(** * SABR Monte-Carlo pricers: a shallow embedding of [HW3/option_models/sabr.py]

    The Python module prices vanilla options under the SABR model by Monte
    Carlo.  It is numpy code over IEEE binary64 numbers; the embedding keeps
    the shape of the source:

    - numbers are an interface ([Arith]) with two instances, binary64
      (Rocq's primitive floats) and the real numbers (exact arithmetic);
    - [np.exp], the pyfeng closed-form pricers and the stream of normal
      draws are external to the file and enter as parameters;
    - Python exceptions are an error monad, the global random generator is a
      state (the number of draws consumed so far);
    - one-dimensional arrays are lists, two-dimensional arrays are lists of
      rows (row = time step, column = path); lists are unbounded, so the
      model never runs out of memory. *)

From Stdlib Require Import ZArith List Bool Lia Reals Lra Floats.
Import ListNotations.
#[local] Set Warnings "-inexact-float,-abstract-large-number".

Set Implicit Arguments.

(* ================================================================== *)
(** ** Exceptions and the pricing monad *)

Inductive exn : Type :=
| ZeroDivisionError   (* scalar division by zero, e.g. [1 / self.vov] *)
| ValueError          (* base_model on an unsupported beta; int(nan); negative shape *)
| OverflowError       (* int(inf) *)
| AssertionError      (* the [assert] of sigma_path *)
| IndexError.         (* indexing an empty array *)

Inductive result (A : Type) : Type :=
| Ok (a : A)
| Raise (e : exn).
Arguments Raise {A} e.

(** The state is the position in the stream of standard normal draws. *)
Definition M (A : Type) : Type := nat -> result (A * nat).

Definition ret {A} (a : A) : M A := fun s => Ok (a, s).

Definition bind {A B} (m : M A) (k : A -> M B) : M B :=
  fun s => match m s with
           | Ok (a, s') => k a s'
           | Raise e => Raise e
           end.

Definition lift {A} (r : result A) : M A :=
  fun s => match r with Ok a => Ok (a, s) | Raise e => Raise e end.

Notation "x <- m ;; k" := (bind m (fun x => k))
  (at level 61, m at next level, right associativity).

(* ================================================================== *)
(** ** The number interface

    The operations the source applies to Python floats and numpy float64
    values.  [int_ceil x] is [int(np.ceil(x))], which raises on nan and inf.  *)

Class Arith (F : Type) : Type := {
  of_Z : Z -> F;               (* an int literal or int64 value used as a float *)
  half : F;                    (* the literal 0.5 *)
  fadd : F -> F -> F;
  fsub : F -> F -> F;
  fmul : F -> F -> F;
  fdiv : F -> F -> F;          (* numpy division: no exception *)
  fneg : F -> F;
  fsqrt : F -> F;              (* np.sqrt *)
  feqb : F -> F -> bool;       (* == *)
  fltb : F -> F -> bool;       (* < *)
  fmax : F -> F -> F;          (* np.fmax *)
  int_ceil : F -> result Z     (* int(np.ceil(x)) *)
}.

Declare Scope num_scope.
Delimit Scope num_scope with num.
Infix "+" := fadd : num_scope.
Infix "-" := fsub : num_scope.
Infix "*" := fmul : num_scope.
Infix "/" := fdiv : num_scope.
Infix "==" := feqb (at level 70, no associativity) : num_scope.

(** [x ** 2], taken as one multiplication: that is numpy's square, and
    Python's power of a float agrees with it up to the rounding of pow. *)
Definition sq {F} `{Arith F} (x : F) : F := (x * x)%num.

(** Division of two Python scalars raises on a zero divisor. *)
Definition pydiv {F} `{Arith F} (x y : F) : result F :=
  if (y == of_Z 0)%num then Raise ZeroDivisionError else Ok (x / y)%num.

(** [x / n] for a Python float [x] and a Python int [n]. *)
Definition pydiv_int {F} `{Arith F} (x : F) (n : Z) : result F :=
  if (n =? 0)%Z then Raise ZeroDivisionError else Ok (x / of_Z n)%num.

Definition py_assert (b : bool) : result unit :=
  if b then Ok tt else Raise AssertionError.

(* ================================================================== *)
(** ** numpy on lists *)

Section Numpy.
Context {F : Type} `{Arith F}.
Local Open Scope num_scope.

Fixpoint map2 {A B C} (f : A -> B -> C) (a : list A) (b : list B) : list C :=
  match a, b with
  | x :: a', y :: b' => f x y :: map2 f a' b'
  | _, _ => []
  end.

(** [np.arange(1, n + 1)] *)
Definition arange1 (n : Z) : list Z :=
  map Z.of_nat (seq 1 (Z.to_nat n)).

(** [a[-1]] on a one-dimensional array, [a[-1, :]] on a matrix. *)
Definition index_last {A} (a : list A) : result A :=
  match rev a with
  | x :: _ => Ok x
  | [] => Raise IndexError
  end.

(** [a.shape[1]] of a matrix that has at least one row. *)
Definition ncols {A} (a : list (list A)) : nat :=
  match a with
  | r :: _ => length r
  | [] => 0
  end.

(** [np.cumsum(a, axis=0)]: row k is row k-1 plus a[k]. *)
Fixpoint cumsum_from (acc : list F) (rows : list (list F)) : list (list F) :=
  match rows with
  | [] => []
  | r :: rs => let acc' := map2 fadd acc r in acc' :: cumsum_from acc' rs
  end.

Definition cumsum_axis0 (rows : list (list F)) : list (list F) :=
  match rows with
  | [] => []
  | r :: rs => r :: cumsum_from r rs
  end.

(** [a.sum()] of a one-dimensional array, summed left to right.  (numpy
    adds the elements of a contiguous array pairwise; the order matters only
    for the rounding, and not at all on the weights 1/2 and 1 this is
    applied to, whose partial sums are exact.) *)
Definition vsum (a : list F) : F := fold_left fadd a (of_Z 0).

(** [np.sum(a, axis=0)]: the first row, then the others added to it one
    after the other.  That is numpy's order on a matrix of two or more
    columns, and on any matrix of fewer than 8 rows; a single column of 8
    or more rows is one contiguous run, which numpy adds pairwise.  The
    order matters for the rounding only: in exact arithmetic every order
    gives this sum, and no statement below gives a binary64 value of a sum
    down a single column of 8 or more rows. *)
Definition sum_axis0 (rows : list (list F)) : list F :=
  match rows with
  | [] => []
  | r :: rs => fold_left (map2 fadd) rs r
  end.

(** [np.mean(a, axis=1)] on one row, summed left to right (numpy adds a
    row of 8 or more entries pairwise: the rounding of the last place can
    differ in binary64, the exact value cannot). *)
Definition mean (a : list F) : F := vsum a / of_Z (Z.of_nat (length a)).

(** [a[i] = v] for an index inside the array. *)
Fixpoint set_nth (a : list F) (i : nat) (v : F) : list F :=
  match a, i with
  | [], _ => []
  | _ :: a', O => v :: a'
  | x :: a', S i' => x :: set_nth a' i' v
  end.

(** [a[[0, -1]] = v]: both assignments, IndexError on an empty array. *)
Definition set_first_last (a : list F) (v : F) : result (list F) :=
  match a with
  | [] => Raise IndexError
  | _ => Ok (set_nth (set_nth a 0 v) (length a - 1) v)
  end.
End Numpy.

(* ================================================================== *)
(** ** The random source *)

Section Random.
Context {F : Type}.
(** One realization of the generator: the n-th standard normal it yields. *)
Variable draws : nat -> F.

(** [np.random.standard_normal(n)] *)
Definition standard_normal (n : Z) : M (list F) :=
  fun s =>
    if (n <? 0)%Z then Raise ValueError
    else Ok (map draws (seq s (Z.to_nat n)), s + Z.to_nat n).

(** [np.random.standard_normal((r, c))], filled row by row. *)
Definition standard_normal2 (r c : Z) : M (list (list F)) :=
  fun s =>
    if ((r <? 0) || (c <? 0))%Z then Raise ValueError
    else Ok (map (fun i => map draws (seq (s + i * Z.to_nat c) (Z.to_nat c)))
                 (seq 0 (Z.to_nat r)),
             s + Z.to_nat r * Z.to_nat c).
End Random.

(* ================================================================== *)
(** ** The models of sabr.py *)

(** The attributes of a model instance ([ModelABC.__init__] and the two
    class-level numerical parameters). *)
Record Model (F : Type) : Type := {
  sigma : F;
  vov : F;
  rho : F;
  beta : F;
  intr : F;
  dt : F;
  n_path : Z
}.

(** pyfeng's two closed-form models, [pf.Norm] and [pf.Bsm]. *)
Inductive pf_kind : Type := Norm | Bsm.

(** The volatility a pyfeng model is built with: a scalar, or one value per
    path (the conditional simulators pass the array [vol]). *)
Inductive pf_sigma (F : Type) : Type :=
| Scalar (x : F)
| PerPath (v : list F).

Record pf_model (F : Type) : Type := {
  pf_k : pf_kind;
  pf_vol : pf_sigma F;
  pf_intr : F
}.

(** The four concrete classes. *)
Inductive simulator : Type := BsmMC | NormMC | BsmCondMC | NormCondMC.

Section Sabr.
Context {F : Type} `{Arith F}.
Local Open Scope num_scope.

(** [np.exp] (the platform's libm). *)
Variable np_exp : F -> F.
(** pyfeng's [price] and [impvol] on scalars.  The arguments are
    kind, sigma, intr, strike, spot, texp, cp for the price and
    kind, intr, price, strike, spot, texp, cp for the implied volatility
    (which does not read the model's own sigma). *)
Variable pf_price : pf_kind -> F -> F -> F -> F -> F -> Z -> F.
Variable pf_impvol : pf_kind -> F -> F -> F -> F -> F -> Z -> F.
(** The realization of the random generator. *)
Variable draws : nat -> F.

(** *** ModelABC.base_model (lines 28-37) *)
Definition base_model (self : Model F) (sigma_arg : option (pf_sigma F))
  : result (pf_model F) :=
  let sigma_arg := match sigma_arg with
                   | None => Scalar (sigma self)
                   | Some s => s
                   end in
  if beta self == of_Z 0 then
    Ok {| pf_k := Norm; pf_vol := sigma_arg; pf_intr := intr self |}
  else if beta self == of_Z 1 then
    Ok {| pf_k := Bsm; pf_vol := sigma_arg; pf_intr := intr self |}
  else Raise ValueError.

(** The volatility of a pyfeng model broadcast against [n] paths. *)
Definition pf_vol_paths (m : pf_model F) (n : nat) : list F :=
  match pf_vol m with
  | Scalar x => repeat x n
  | PerPath v => v
  end.

(** [m.price(strike[:, None], spot, texp, cp)] with one spot per path:
    a matrix, one row per strike and one column per path. *)
Definition model_price (m : pf_model F) (strike spot : list F) (texp : F) (cp : Z)
  : list (list F) :=
  map (fun K =>
         map2 (fun sig S => pf_price (pf_k m) sig (pf_intr m) K S texp cp)
              (pf_vol_paths m (length spot)) spot)
      strike.

(** [m.impvol(price, strike, spot, texp, cp)] with a scalar spot. *)
Definition model_impvol (m : pf_model F) (price strike : list F) (spot texp : F) (cp : Z)
  : list F :=
  map2 (fun p K => pf_impvol (pf_k m) (pf_intr m) p K spot texp cp) price strike.

(** *** ModelABC.sigma_path (lines 64-83) *)

(** [tobs = np.arange(1, n_dt + 1) / n_dt * texp] *)
Definition time_grid (n_dt : Z) (texp : F) : list F :=
  map (fun k => of_Z k / of_Z n_dt * texp) (arange1 n_dt).

Definition sigma_path (self : Model F) (texp : F) : M (list (list F)) :=
  q <- lift (pydiv texp (dt self)) ;;
  n_dt <- lift (int_ceil q) ;;
  let tobs := time_grid n_dt texp in
  dt' <- lift (pydiv_int texp n_dt) ;;
  t_last <- lift (index_last tobs) ;;
  _ <- lift (py_assert (texp == t_last)) ;;
  N <- standard_normal2 draws n_dt (n_path self) ;;
  let Z_t := cumsum_axis0 (map (map (fun x => x * fsqrt dt')) N) in
  let sigma_t :=
    map2 (fun Zrow t =>
            map (fun z => np_exp (vov self * (z - vov self / of_Z 2 * t))) Zrow)
         Z_t tobs in
  ret (repeat (of_Z 1) (ncols sigma_t) :: sigma_t).

(** The rows [sigma_path] returns below the row of ones, as a function of
    the step count [n] and of the matrix [N] of normal draws. *)
Definition sigma_rows (self : Model F) (texp : F) (n : Z) (N : list (list F))
  : list (list F) :=
  map2 (fun Zrow t =>
          map (fun z => np_exp (vov self * (z - vov self / of_Z 2 * t))) Zrow)
       (cumsum_axis0 (map (map (fun x => x * fsqrt (texp / of_Z n))) N))
       (time_grid n texp).

(** *** ModelABC.intvar_normalized (lines 85-100) *)
Definition intvar_normalized (sigma_path : list (list F)) : result (list F) :=
  let weight := repeat (of_Z 1) (length sigma_path) in
  match set_first_last weight half with
  | Raise e => Raise e
  | Ok weight =>
      let total := vsum weight in
      let weight := map (fun w => w / total) weight in
      Ok (sum_axis0 (map2 (fun w row => map (fun x => w * sq x) row) weight sigma_path))
  end.

(** The discounted average payoff of lines 129 and 162:
    [df * np.mean(np.fmax(cp*(S_t - strike[:, None]), 0.0), axis=1)]. *)
Definition payoff_mean (df : F) (cp : Z) (S_t strike : list F) : list F :=
  map (fun K => df * mean (map (fun S => fmax (of_Z cp * (S - K)) (of_Z 0)) S_t)) strike.

(** *** ModelBsmMC.price (lines 109-130) *)
Definition ModelBsmMC_price (self : Model F) (strike : list F) (spot texp : F) (cp : Z)
  : M (list F) :=
  vol_path <- sigma_path self texp ;;
  sigma_t <- lift (index_last vol_path) ;;
  I_t <- lift (intvar_normalized vol_path) ;;
  Z <- standard_normal draws (n_path self) ;;
  inv_vov <- lift (pydiv (of_Z 1) (vov self)) ;;
  let s_t := map2 (fun sT I => inv_vov * (sT - of_Z 1)
                               - half * sigma self * rho self * texp * I)
                  sigma_t I_t in
  let s_t := map (fun s => np_exp (rho self * sigma self * s)) s_t in
  let vol := map (fun I => sigma self * fsqrt ((of_Z 1 - sq (rho self)) * I)) I_t in
  let volt := map (fun v => v * fsqrt texp) vol in
  let S_t := map2 (fun s e => s * spot * e)
                  s_t
                  (map2 (fun v z => np_exp (v * (z - v / of_Z 2))) volt Z) in
  let df := np_exp (fneg (intr self) * texp) in
  ret (payoff_mean df cp S_t strike).

(** *** ModelNormMC.price (lines 139-163) *)
Definition ModelNormMC_price (self : Model F) (strike : list F) (spot texp : F) (cp : Z)
  : M (list F) :=
  vol_path <- sigma_path self texp ;;
  sigma_t <- lift (index_last vol_path) ;;
  I_t <- lift (intvar_normalized vol_path) ;;
  let df := np_exp (fneg (intr self) * texp) in
  _ <- standard_normal draws (n_path self) ;;
  rho_vov <- lift (pydiv (rho self) (vov self)) ;;
  let s_t := map (fun sT => rho_vov * (sT - of_Z 1) * sigma self) sigma_t in
  Z <- standard_normal draws (Z.of_nat (length sigma_t)) ;;
  let vol := map (fun I => sigma self * fsqrt ((of_Z 1 - sq (rho self)) * I)) I_t in
  let volt := map (fun v => v * fsqrt texp) vol in
  let S_t := map2 (fun s vz => s + spot / df + vz) s_t (map2 fmul volt Z) in
  ret (payoff_mean df cp S_t strike).

(** *** ModelBsmCondMC.price (lines 170-197) *)
Definition ModelBsmCondMC_price (self : Model F) (strike : list F) (spot texp : F) (cp : Z)
  : M (list F) :=
  vol_path <- sigma_path self texp ;;
  sigma_t <- lift (index_last vol_path) ;;
  I_t <- lift (intvar_normalized vol_path) ;;
  let vol := map (fun I => sigma self * fsqrt ((of_Z 1 - sq (rho self)) * I)) I_t in
  let volt := map (fun v => v * fsqrt texp) vol in
  let df := np_exp (fneg (intr self) * texp) in
  inv_vov <- lift (pydiv (of_Z 1) (vov self)) ;;
  let s_t := map2 (fun sT I => inv_vov * (sT - of_Z 1)
                               - half * sigma self * rho self * texp * I)
                  sigma_t I_t in
  let s_t := map (fun s => np_exp (rho self * sigma self * s)) s_t in
  let c_f_spot := map (fun s => s * spot / df) s_t in
  Z <- standard_normal draws (n_path self) ;;
  let spot_equiv := map2 (fun c e => c * e)
                         c_f_spot
                         (map2 (fun v z => np_exp (v * (z - v / of_Z 2))) volt Z) in
  m <- lift (base_model self (Some (PerPath vol))) ;;
  ret (map mean (model_price m strike spot_equiv texp cp)).

(** *** ModelNormCondMC.price (lines 204-217) *)
Definition ModelNormCondMC_price (self : Model F) (strike : list F) (spot texp : F) (cp : Z)
  : M (list F) :=
  vol_path <- sigma_path self texp ;;
  sigma_t <- lift (index_last vol_path) ;;
  I_t <- lift (intvar_normalized vol_path) ;;
  let vol := map (fun I => sigma self * fsqrt ((of_Z 1 - sq (rho self)) * I)) I_t in
  Z <- standard_normal draws (n_path self) ;;
  let S_T := map2 (fun a b => a + b)
                  (map2 (fun sT I => spot + sT * fsqrt I) sigma_t I_t)
                  (map2 (fun sT z => sT * fsqrt texp * z) sigma_t Z) in
  m <- lift (base_model self (Some (PerPath vol))) ;;
  ret (map mean (model_price m strike S_T texp cp)).

(** [self.price], dispatched on the class of [self]. *)
Definition price (sim : simulator) : Model F -> list F -> F -> F -> Z -> M (list F) :=
  match sim with
  | BsmMC => ModelBsmMC_price
  | NormMC => ModelNormMC_price
  | BsmCondMC => ModelBsmCondMC_price
  | NormCondMC => ModelNormCondMC_price
  end.

(** *** ModelABC.vol_smile (lines 39-46) *)
Definition vol_smile (sim : simulator) (self : Model F) (strike : list F) (spot texp : F)
  : M (list F) :=
  p <- price sim self strike spot texp 1 ;;
  m <- lift (base_model self None) ;;
  ret (model_impvol m p strike spot texp 1).
End Sabr.

(* ================================================================== *)
(** ** The two arithmetics *)

(** *** Exact arithmetic: the real numbers *)

Definition R_eqb (x y : R) : bool := if Req_dec_T x y then true else false.
Definition R_ltb (x y : R) : bool := if Rlt_dec x y then true else false.
(** The ceiling of a real: [up x] is the integer with [x < up x <= x + 1]. *)
Definition R_ceil (x : R) : Z := (1 - up (- x))%Z.

#[global] Instance R_arith : Arith R := {|
  of_Z := IZR;
  half := (/ 2)%R;
  fadd := Rplus;
  fsub := Rminus;
  fmul := Rmult;
  fdiv := Rdiv;
  fneg := Ropp;
  fsqrt := R_sqrt.sqrt;
  feqb := R_eqb;
  fltb := R_ltb;
  fmax := Rmax;
  int_ceil := fun x => Ok (R_ceil x)
|}.

(** *** IEEE binary64: Rocq's primitive floats *)

(** Conversion of an integer, rounded to nearest even. *)
Definition b64_of_Z (z : Z) : float :=
  SF2Prim (binary_normalize prec emax z 0 false).

(** [np.fmax]: the larger argument, a nan only when both are. *)
Definition b64_fmax (x y : float) : float :=
  if PrimFloat.ltb x y then y else if PrimFloat.eqb x x then x else y.

(** [int(np.ceil(x))]: the value of a finite float is [(+/- m) * 2^e]. *)
Definition b64_int_ceil (x : float) : result Z :=
  match Prim2SF x with
  | S754_nan => Raise ValueError
  | S754_infinity _ => Raise OverflowError
  | S754_zero _ => Ok 0%Z
  | S754_finite s m e =>
      let v := if s then Zneg m else Zpos m in
      Ok (match e with
          | Zneg k => - ((- v) / 2 ^ Zpos k)
          | _ => v * 2 ^ e
          end)%Z
  end.

#[global] Instance b64_arith : Arith float := {|
  of_Z := b64_of_Z;
  half := 0.5%float;
  fadd := PrimFloat.add;
  fsub := PrimFloat.sub;
  fmul := PrimFloat.mul;
  fdiv := PrimFloat.div;
  fneg := PrimFloat.opp;
  fsqrt := PrimFloat.sqrt;
  feqb := PrimFloat.eqb;
  fltb := PrimFloat.ltb;
  fmax := b64_fmax;
  int_ceil := b64_int_ceil
|}.

(** *** Identities shared by both arithmetics

    The few facts about numbers that the grid construction and the model
    selection rely on.  They hold in exact arithmetic and, with the rounding
    written out, in binary64 (both instances are proved below). *)
Unset Implicit Arguments.
Class ArithLaws (F : Type) `{Arith F} : Prop := {
  (** [n / n] is exactly 1 for the step count [n = int(np.ceil(x)) >= 1] *)
  int_ceil_div_self :
    forall (x : F) (n : Z), int_ceil x = Ok n -> (1 <= n)%Z ->
                            (of_Z n / of_Z n)%num = of_Z 1;
  (** the conversion to an int raises nothing but ValueError (nan) and
      OverflowError (inf) *)
  int_ceil_exn :
    forall (x : F) (e : exn), int_ceil x = Raise e -> e = ValueError \/ e = OverflowError;
  (** [1.0 * x] is exactly [x] *)
  mul_one_l : forall x : F, (of_Z 1 * x)%num = x;
  (** a positive number equals itself (it is not a nan) and is not zero *)
  pos_eqb_refl : forall x : F, fltb (of_Z 0) x = true -> (x == x)%num = true;
  pos_nonzero : forall x : F, fltb (of_Z 0) x = true -> (x == of_Z 0)%num = false;
  one_pos : fltb (of_Z 0) (of_Z 1 : F) = true;
  (** a number equal to 1 is not equal to 0 *)
  one_nonzero : forall x : F, (x == of_Z 1)%num = true -> (x == of_Z 0)%num = false
}.
Set Implicit Arguments.

(* ================================================================== *)
(** ** The specification's formulas

    Written from the specification, one path and one strike at a time, to be
    compared with the array code above. *)

Section Formulas.
Context {F : Type} `{Arith F}.
Local Open Scope num_scope.
Variable np_exp : F -> F.
Variable pf_price : pf_kind -> F -> F -> F -> F -> F -> Z -> F.

(** Trapezoidal weights on [m] grid points: 1/2 at both ends, 1 inside. *)
Definition trapezoid_weights (m : nat) : list F :=
  match m with
  | 0 => []
  | 1 => [half]
  | S (S k) => half :: repeat (of_Z 1) k ++ [half]
  end.

(** The weights divided by their sum. *)
Definition normalized_weights (m : nat) : list F :=
  let w := trapezoid_weights m in
  map (fun x => x / vsum w) w.

(** Column [j] of a matrix. *)
Definition column (j : nat) (rows : list (list F)) : list F :=
  flat_map (fun row => match nth_error row j with
                       | Some x => [x]
                       | None => []
                       end) rows.

(** The weighted sum of the squared multipliers of one path, the first
    term taken as the start of the sum. *)
Definition weighted_square_sum (w path : list F) : F :=
  match map2 (fun wi x => wi * sq x) w path with
  | [] => of_Z 0
  | t :: ts => fold_left fadd ts t
  end.

(** The auxiliary shift [s = (1/vov)(sigma_T - 1) - 0.5 sigma rho texp I_T]. *)
Definition corr_shift (self : Model F) (texp sigma_T I_T : F) : F :=
  of_Z 1 / vov self * (sigma_T - of_Z 1)
  - half * sigma self * rho self * texp * I_T.

(** The correlation component [exp(rho sigma s)]. *)
Definition corr_component (self : Model F) (texp sigma_T I_T : F) : F :=
  np_exp (rho self * sigma self * corr_shift self texp sigma_T I_T).

(** The equivalent (residual) volatility [sigma sqrt((1 - rho^2) I_T)]. *)
Definition equiv_vol (self : Model F) (I_T : F) : F :=
  sigma self * fsqrt ((of_Z 1 - sq (rho self)) * I_T).

(** A martingale-corrected log-normal step of scaled volatility [v] driven
    by the normal draw [z]: [x exp(v (z - v/2))]. *)
Definition lognormal_step (x v z : F) : F :=
  x * np_exp (v * (z - v / of_Z 2)).

(** The discount factor [exp(-intr texp)]. *)
Definition discount (self : Model F) (texp : F) : F :=
  np_exp (fneg (intr self) * texp).

(** Terminal spot of the log-normal direct simulator on one path. *)
Definition bsm_terminal_spot (self : Model F) (spot texp : F) (p : F * F * F) : F :=
  let '(sigma_T, I_T, z) := p in
  lognormal_step (corr_component self texp sigma_T I_T * spot)
                 (equiv_vol self I_T * fsqrt texp) z.

(** Discounted average over the paths of [max(sign (S_T - K), 0)]. *)
Definition discounted_payoff (self : Model F) (texp : F) (cp : Z) (S_T : list F) (K : F) : F :=
  discount self texp
  * mean (map (fun S => fmax (of_Z cp * (S - K)) (of_Z 0)) S_T).

Definition spec_bsm_direct (self : Model F) (strike : list F) (spot texp : F) (cp : Z)
           (sigma_T I_T Z : list F) : list F :=
  let S_T := map (bsm_terminal_spot self spot texp) (combine (combine sigma_T I_T) Z) in
  map (discounted_payoff self texp cp S_T) strike.

(** Equivalent spot of the log-normal conditional simulator on one path:
    the correlation component times spot, divided by the discount factor,
    then one log-normal step. *)
Definition bsm_equiv_spot (self : Model F) (spot texp : F) (p : F * F * F) : F :=
  let '(sigma_T, I_T, z) := p in
  lognormal_step (corr_component self texp sigma_T I_T * spot / discount self texp)
                 (equiv_vol self I_T * fsqrt texp) z.

(** Terminal spot of the normal conditional simulator on one path. *)
Definition norm_cond_spot (spot texp : F) (p : F * F * F) : F :=
  let '(sigma_T, I_T, z) := p in
  spot + sigma_T * fsqrt I_T + sigma_T * fsqrt texp * z.

(** The closed-form model the specification selects for [beta]. *)
Definition select_kind (self : Model F) : result pf_kind :=
  if beta self == of_Z 0 then Ok Norm
  else if beta self == of_Z 1 then Ok Bsm
  else Raise ValueError.

(** The closed-form price of kind [k] averaged over the paths, each path
    with its own equivalent spot and volatility, for every strike. *)
Definition spec_conditional (k : pf_kind) (self : Model F) (strike : list F) (texp : F) (cp : Z)
           (equiv_spot : F * F * F -> F) (sigma_T I_T Z : list F) : list F :=
  let paths := combine (combine sigma_T I_T) Z in
  map (fun K =>
         mean (map (fun p => pf_price k (equiv_vol self (snd (fst p))) (intr self)
                                      K (equiv_spot p) texp cp)
                   paths))
      strike.
End Formulas.

(* ================================================================== *)
(** ** Further formulas: the entries of the path matrix, the normal direct
    simulator *)

Section PathFormulas.
Context {F : Type} `{Arith F}.
Local Open Scope num_scope.
Variable np_exp : F -> F.
Variable draws : nat -> F.

(** The cumulated, scaled normal draws of path [j] after [k + 1] steps, when
    the matrix of draws starts at position [s] of the generator and has [c]
    columns: the sum, from the first step on, of draw * sd. *)
Fixpoint scaled_walk (s c : nat) (sd : F) (j k : nat) : F :=
  match k with
  | O => draws (s + j) * sd
  | S k' => scaled_walk s c sd j k' + draws (s + S k' * c + j) * sd
  end.

(** The volatility ratio of path [j] at the observation time number [k + 1]
    of [n]. *)
Definition vol_entry (self : Model F) (texp : F) (n : Z) (s j k : nat) : F :=
  np_exp (vov self
          * (scaled_walk s (Z.to_nat (n_path self)) (fsqrt (texp / of_Z n)) j k
             - vov self / of_Z 2 * (of_Z (Z.of_nat (S k)) / of_Z n * texp))).

(** Terminal spot of the normal direct simulator on one path: the
    correlation term (rho/vov)(sigma_T - 1) sigma, the forward spot / df and
    the residual volatility times sqrt(texp) times the normal draw. *)
Definition norm_terminal_spot (self : Model F) (spot texp : F) (p : F * F * F) : F :=
  let '(sigma_T, I_T, z) := p in
  rho self / vov self * (sigma_T - of_Z 1) * sigma self
  + spot / discount np_exp self texp
  + equiv_vol self I_T * fsqrt texp * z.

(** The prices of the normal direct simulator from the last row, the
    integrated variance and the draws of the paths. *)
Definition spec_norm_direct (self : Model F) (strike : list F) (spot texp : F) (cp : Z)
           (sigma_T I_T Z : list F) : list F :=
  let S_T := map (norm_terminal_spot self spot texp) (combine (combine sigma_T I_T) Z) in
  map (discounted_payoff np_exp self texp cp S_T) strike.

(** The terminal spots of the two direct simulators on all paths, from the
    last row [sigma_T] and the integrated variance [I_T] of the path matrix
    and from the state [s1] of the generator after the path: the log-normal
    one is driven by the next [n_path] draws, the normal one by the [n_path]
    draws after those. *)
Definition direct_terminal_spots (sim : simulator) (self : Model F) (spot texp : F)
           (sigma_T I_T : list F) (s1 : nat) : list F :=
  let c := Z.to_nat (n_path self) in
  match sim with
  | NormMC =>
      map (norm_terminal_spot self spot texp)
          (combine (combine sigma_T I_T) (map draws (seq (s1 + c) c)))
  | _ =>
      map (bsm_terminal_spot np_exp self spot texp)
          (combine (combine sigma_T I_T) (map draws (seq s1 c)))
  end.

(** The batches of [n_path] draws a [price] call takes after the path. *)
Definition batches (sim : simulator) : nat :=
  match sim with
  | NormMC => 2
  | _ => 1
  end.
End PathFormulas.

(* ================================================================== *)
(** ** Concrete binary64 models *)

(** The default numerical parameters ([dt = 0.1], [n_path = 10000]) with
    [sigma = 0.2], [vov = 0.5], [rho = -0.25], [beta = 1], [intr = 0]. *)
Definition b64_model : Model float :=
  {| sigma := 0.2%float; vov := 0.5%float; rho := (-0.25)%float; beta := 1%float;
     intr := 0%float; dt := 0.1%float; n_path := 10000%Z |}.

(** A maturity so small that [texp / dt] underflows to zero. *)
Definition b64_tiny_model : Model float :=
  {| sigma := 0.2%float; vov := 0.5%float; rho := (-0.25)%float; beta := 1%float;
     intr := 0%float; dt := 2%float; n_path := 1%Z |}.

(** The default constructor arguments ([vov = 0], [rho = 0], [beta = 1],
    [intr = 0]) with [sigma = 0.2]. *)
Definition b64_flat_model : Model float :=
  {| sigma := 0.2%float; vov := 0%float; rho := 0%float; beta := 1%float;
     intr := 0%float; dt := 0.1%float; n_path := 10000%Z |}.

(** A small model with [vov = 0]: two steps, two paths. *)
Definition b64_small_flat_model : Model float :=
  {| sigma := 0.2%float; vov := 0%float; rho := 0%float; beta := 1%float;
     intr := 0%float; dt := 0.5%float; n_path := 2%Z |}.

(** A model of the normal simulators: [beta = 0]. *)
Definition b64_norm_model : Model float :=
  {| sigma := 20%float; vov := 0.5%float; rho := (-0.25)%float; beta := 0%float;
     intr := 0%float; dt := 0.5%float; n_path := 2%Z |}.

(** A small log-normal model: two steps, two paths. *)
Definition b64_small_model : Model float :=
  {| sigma := 0.2%float; vov := 0.5%float; rho := (-0.25)%float; beta := 1%float;
     intr := 0%float; dt := 0.5%float; n_path := 2%Z |}.

(** A model with a large vol-of-vol: one step, one path. *)
Definition b64_wild_model : Model float :=
  {| sigma := 0.2%float; vov := 100%float; rho := 0%float; beta := 1%float;
     intr := 0%float; dt := 1%float; n_path := 1%Z |}.

(** A stand-in for pyfeng that tells the two models apart. *)
Definition pf_price_tag (k : pf_kind) (_ _ _ _ _ : float) (_ : Z) : float :=
  match k with Norm => 0%float | Bsm => 1%float end.

(** *** The same in exact arithmetic *)

(** The model of [b64_model] in exact arithmetic. *)
Definition R_model : Model R :=
  {| sigma := (2 / 10)%R; vov := (1 / 2)%R; rho := (- (1 / 4))%R; beta := 1%R;
     intr := 0%R; dt := (1 / 10)%R; n_path := 10000%Z |}.

(** The closed-form price at zero volatility and zero rate, the intrinsic
    value: a stand-in for pyfeng that is monotone in the strike. *)
Definition pf_price_intrinsic (_ : pf_kind) (_ _ K S _ : R) (cp : Z) : R :=
  Rmax (IZR cp * (S - K)) 0.

(** A closed-form price is monotone in the strike: non-increasing for calls,
    non-decreasing for puts. *)
Definition strike_monotone (pf_price : pf_kind -> R -> R -> R -> R -> R -> Z -> R) : Prop :=
  forall (k : pf_kind) (sig r K1 K2 S t : R),
    (K1 <= K2)%R ->
    (pf_price k sig r K2 S t 1%Z <= pf_price k sig r K1 S t 1%Z)%R
    /\ (pf_price k sig r K1 S t (-1)%Z <= pf_price k sig r K2 S t (-1)%Z)%R.

(** *** Further examples *)

(** A model whose beta is neither 0 nor 1: two steps, two paths. *)
Definition b64_cev_model : Model float :=
  {| sigma := 0.2%float; vov := 0.5%float; rho := (-0.25)%float; beta := 0.5%float;
     intr := 0%float; dt := 0.5%float; n_path := 2%Z |}.

(** A realization of the generator used in examples: 0, 1, 2, ... *)
Definition b64_count_draws (n : nat) : float := b64_of_Z (Z.of_nat n).

(** A stand-in for the exponential in examples: x -> 1 + x. *)
Definition b64_affine_exp (x : float) : float := (1 + x)%float.

(** A stand-in for pyfeng's implied volatility: price over strike. *)
Definition pf_impvol_ratio (_ : pf_kind) (_ p K _ _ : float) (_ : Z) : float := (p / K)%float.

(** A small model with vov = 0 and beta = 0 in exact arithmetic. *)
Definition R_flat_model : Model R :=
  {| sigma := 20%R; vov := 0%R; rho := (- (1 / 4))%R; beta := 0%R;
     intr := 0%R; dt := (1 / 2)%R; n_path := 2%Z |}.

(** A model whose discount factor [exp(-intr texp) = exp(1000)] overflows at
    maturity 1: one step, one path, no correlation. *)
Definition b64_overflow_model : Model float :=
  {| sigma := 0.2%float; vov := 0.5%float; rho := 0%float; beta := 1%float;
     intr := (-1000)%float; dt := 1%float; n_path := 1%Z |}.

(** A realization of the generator: 0.25 for the step of the volatility
    path, 0.1 afterwards.  On [b64_overflow_model] at maturity 1 every
    exponential of the path and of the spot is then taken at exactly 0. *)
Definition b64_still_draws (n : nat) : float :=
  match n with
  | O => 0.25%float
  | _ => 0.1%float
  end.

(* ================================================================== *)
(** ** Claims of the specification, as it states them *)

(** The claim on [sigma_path] as the specification states it, for an
    arithmetic [F] and an exponential [np_exp]. *)
Definition sigma_path_claim {F : Type} `{Arith F} (np_exp : F -> F) : Prop :=
  forall (draws : nat -> F) (self : Model F) (texp : F) (s : nat),
    fltb (of_Z 0) texp = true -> fltb (of_Z 0) (dt self) = true ->
    (0 < n_path self)%Z ->
    exists (n_dt : Z) (rows : list (list F)) (s' : nat),
      int_ceil (fdiv texp (dt self)) = Ok n_dt
      /\ sigma_path np_exp draws self texp s = Ok (rows, s')
      /\ length rows = S (Z.to_nat n_dt)
      /\ Forall (fun row => length row = Z.to_nat (n_path self)) rows
      /\ hd [] rows = repeat (of_Z 1) (Z.to_nat (n_path self))
      /\ Forall (Forall (fun x => fltb (of_Z 0) x = true)) rows
      /\ index_last (time_grid n_dt texp) = Ok texp.

(** The claim on [vov = 0] as the specification states it: every simulator
    divides by zero once the volatility path is there. *)
Definition vov_zero_claim {F : Type} `{Arith F} : Prop :=
  forall (sim : simulator) (np_exp : F -> F)
         (pf_price : pf_kind -> F -> F -> F -> F -> F -> Z -> F)
         (draws : nat -> F) (self : Model F) (strike : list F) (spot texp : F)
         (cp : Z) (s : nat),
    feqb (vov self) (of_Z 0) = true ->
    match sigma_path np_exp draws self texp s with
    | Ok _ => price np_exp pf_price draws sim self strike spot texp cp s
              = Raise ZeroDivisionError
    | Raise _ => True
    end.

(** The claim on the normal conditional simulator as the specification
    states it: the closed-form normal model, whatever the configuration. *)
Definition norm_cond_claim {F : Type} `{Arith F} : Prop :=
  forall (np_exp : F -> F) (pf_price : pf_kind -> F -> F -> F -> F -> F -> Z -> F)
         (draws : nat -> F) (self : Model F) (strike : list F) (spot texp : F)
         (cp : Z) (s : nat),
    ModelNormCondMC_price np_exp pf_price draws self strike spot texp cp s
    = (vol_path <- sigma_path np_exp draws self texp ;;
       sigma_T <- lift (index_last vol_path) ;;
       I_T <- lift (intvar_normalized vol_path) ;;
       Z <- standard_normal draws (n_path self) ;;
       ret (spec_conditional pf_price Norm self strike texp cp
                             (norm_cond_spot spot texp) sigma_T I_T Z)) s.

(** The claim on the log-normal conditional simulator as the specification
    states it: for every configuration with vov > 0 a price is returned, the
    average of the closed-form log-normal price. *)
Definition bsm_cond_claim {F : Type} `{Arith F} : Prop :=
  forall (np_exp : F -> F) (pf_price : pf_kind -> F -> F -> F -> F -> F -> Z -> F)
         (draws : nat -> F) (self : Model F) (strike : list F) (spot texp : F)
         (cp : Z) (s : nat),
    fltb (of_Z 0) (vov self) = true ->
    ModelBsmCondMC_price np_exp pf_price draws self strike spot texp cp s
    = (vol_path <- sigma_path np_exp draws self texp ;;
       sigma_T <- lift (index_last vol_path) ;;
       I_T <- lift (intvar_normalized vol_path) ;;
       Z <- standard_normal draws (n_path self) ;;
       ret (spec_conditional pf_price Bsm self strike texp cp
                             (bsm_equiv_spot np_exp self spot texp) sigma_T I_T Z)) s.

(** [x <= y] *)
Definition fleb {F : Type} `{Arith F} (x y : F) : bool := fltb x y || feqb x y.

(** The claim on the monotonicity in the strike as the specification states
    it, for the two direct simulators (lines 129 and 162), in an arithmetic
    [F] with the exponential [np_exp]: of two strikes Ki <= Kj, the call
    price at Kj is at most the one at Ki, the put price at least. *)
Definition price_monotone_claim {F : Type} `{Arith F} (np_exp : F -> F) : Prop :=
  forall (pf_price : pf_kind -> F -> F -> F -> F -> F -> Z -> F) (draws : nat -> F)
         (sim : simulator) (self : Model F) (strike : list F) (spot texp : F)
         (cp : Z) (s s' : nat) (p : list F),
    sim = BsmMC \/ sim = NormMC ->
    price np_exp pf_price draws sim self strike spot texp cp s = Ok (p, s') ->
    forall (i j : nat) (Ki Kj pi pj : F),
      nth_error strike i = Some Ki -> nth_error strike j = Some Kj ->
      nth_error p i = Some pi -> nth_error p j = Some pj ->
      fleb Ki Kj = true ->
      (cp = 1%Z -> fleb pj pi = true) /\ (cp = (-1)%Z -> fleb pi pj = true).

(** The same claim in binary64, whose exponential is 1 at 0 and overflows
    to infinity at 1000: that is all the statement asks of [np.exp]. *)
Definition price_monotone_claim_b64 : Prop :=
  exists np_exp : float -> float,
    np_exp 0%float = 1%float
    /\ np_exp 1000%float = infinity
    /\ price_monotone_claim np_exp.

(* ================================================================== *)
(** ** Binary64: exact conversions, [x / x] and [1 * x] *)

Unset Implicit Arguments.

Section Binary64Facts.
Local Open Scope Z_scope.

Lemma iter_pos_nat {A} (f : A -> A) (k : positive) (x : A) :
iter_pos f k x = Nat.iter (Pos.to_nat k) f x.
Proof.
revert x; induction k as [k IH | k IH |]; intro x; cbn [iter_pos].
- rewrite !IH, Pos2Nat.inj_xI.
  replace (S (2 * Pos.to_nat k))%nat with (Pos.to_nat k + S (Pos.to_nat k))%nat by lia.
  now rewrite Nat.iter_add, Nat.iter_succ_r.
- rewrite !IH, Pos2Nat.inj_xO.
  replace (2 * Pos.to_nat k)%nat with (Pos.to_nat k + Pos.to_nat k)%nat by lia.
  now rewrite Nat.iter_add.
- reflexivity.
Qed.

(** Shifting right the low zero bits of a mantissa loses nothing. *)
Lemma shr_1_iter_xO (j : nat) (q : positive) :
Nat.iter j shr_1 {| shr_m := Zpos (Nat.iter j xO q); shr_r := false; shr_s := false |}
= {| shr_m := Zpos q; shr_r := false; shr_s := false |}.
Proof.
induction j as [| j IH]; [reflexivity |].
rewrite Nat.iter_succ_r. simpl. exact IH.
Qed.

Lemma digits2_pos_iter_xO (j : nat) (q : positive) :
Zpos (digits2_pos (Nat.iter j xO q)) = Zpos (digits2_pos q) + Z.of_nat j.
Proof.
induction j as [| j IH]; [simpl; lia |].
change (Nat.iter (S j) xO q) with (xO (Nat.iter j xO q)).
cbn [digits2_pos]. rewrite Pos2Z.inj_succ, IH. lia.
Qed.

Lemma Zpos_iter_xO (j : nat) (q : positive) :
Zpos (Nat.iter j xO q) = Zpos q * 2 ^ Z.of_nat j.
Proof.
induction j as [| j IH]; [simpl; lia |].
change (Nat.iter (S j) xO q) with (xO (Nat.iter j xO q)).
rewrite Pos2Z.inj_xO, IH, Nat2Z.inj_succ, Z.pow_succ_r by lia. lia.
Qed.

Lemma digits2_pos_gt (p : positive) : Zpos p < 2 ^ Zpos (digits2_pos p).
Proof.
induction p as [p IH | p IH |]; cbn [digits2_pos];
  rewrite ?Pos2Z.inj_succ, ?Z.pow_succ_r by lia; lia.
Qed.

Lemma digits2_pos_le (p : positive) (k : Z) :
0 <= k -> Zpos p < 2 ^ k -> Zpos (digits2_pos p) <= k.
Proof.
revert k; induction p as [p IH | p IH |]; intros k Hk Hp; cbn [digits2_pos].
- assert (k <> 0) by (intros ->; simpl in Hp; lia).
  replace k with (Z.succ (k - 1)) in Hp by lia. rewrite Z.pow_succ_r in Hp by lia.
  rewrite Pos2Z.inj_succ. specialize (IH (k - 1)). lia.
- assert (k <> 0) by (intros ->; simpl in Hp; lia).
  replace k with (Z.succ (k - 1)) in Hp by lia. rewrite Z.pow_succ_r in Hp by lia.
  rewrite Pos2Z.inj_succ. specialize (IH (k - 1)). lia.
- assert (k <> 0) by (intros ->; simpl in Hp; lia). lia.
Qed.

Lemma bounded_inv (m : positive) (e : Z) :
bounded prec emax m e = true ->
fexp prec emax (Zpos (digits2_pos m) + e) = e /\ e <= 971 /\ Zpos (digits2_pos m) <= 53.
Proof.
unfold bounded, canonical_mantissa. intros Hb.
apply andb_true_iff in Hb. destruct Hb as [Hc He].
apply Z.eqb_eq in Hc. apply Z.leb_le in He.
unfold emax, prec in He. split; [exact Hc |]. split; [lia |].
unfold fexp, emin, emax, prec in Hc. lia.
Qed.

(** Rounding an exactly representable value [m * 2^e], given with [j] extra
  low zero bits, returns it unchanged. *)
Lemma binary_round_aux_exact (s : bool) (m : positive) (e : Z) (j : nat) :
bounded prec emax m e = true ->
binary_round_aux prec emax s (Zpos (Nat.iter j xO m)) (e - Z.of_nat j) loc_Exact
= S754_finite s m e.
Proof.
intros Hb. destruct (bounded_inv _ _ Hb) as (Hc & He & _).
unfold binary_round_aux, shr_fexp.
cbn [Zdigits2]. rewrite digits2_pos_iter_xO.
replace (Zpos (digits2_pos m) + Z.of_nat j + (e - Z.of_nat j)) with (Zpos (digits2_pos m) + e) by lia.
rewrite Hc.
replace (e - (e - Z.of_nat j)) with (Z.of_nat j) by lia.
assert (Hs : shr (shr_record_of_loc (Zpos (Nat.iter j xO m)) loc_Exact) (e - Z.of_nat j) (Z.of_nat j)
             = ({| shr_m := Zpos m; shr_r := false; shr_s := false |}, e)).
{ destruct j as [| j].
  - simpl. f_equal. lia.
  - unfold shr. cbn [Z.of_nat shr_record_of_loc].
    rewrite iter_pos_nat, SuccNat2Pos.id_succ, shr_1_iter_xO. f_equal.
    rewrite Zpos_P_of_succ_nat. lia. }
rewrite Hs. cbn [shr_m loc_of_shr_record round_nearest_even Zdigits2].
rewrite Hc, Z.sub_diag. cbn [shr shr_record_of_loc shr_m].
assert (Hle : (e <=? emax - prec) = true) by (apply Z.leb_le; unfold emax, prec; lia).
now rewrite Hle.
Qed.

Lemma b64_mul_1_l (x : float) : PrimFloat.mul 1 x = x.
Proof.
apply Prim2SF_inj. rewrite mul_spec.
change (Prim2SF 1) with (S754_finite false 4503599627370496 (-52)).
pose proof (Prim2SF_valid x) as Hv.
destruct (Prim2SF x) as [s | s | | s m e]; try reflexivity.
unfold SF64mul, SFmul. cbn [xorb].
change (Pos.mul 4503599627370496 m) with (Nat.iter 52 xO m).
replace (-52 + e) with (e - Z.of_nat 52) by lia.
cbn [valid_binary] in Hv.
now apply binary_round_aux_exact.
Qed.

Lemma b64_div_same (y : float) s m e :
Prim2SF y = S754_finite s m e -> PrimFloat.div y y = 1%float.
Proof.
intros Hy. apply Prim2SF_inj. rewrite div_spec, Hy.
unfold SF64div, SFdiv, SFdiv_core_binary.
rewrite !Z.sub_diag.
change (Z.min (fexp prec emax 0) 0) with (-53).
change (0 - -53) with 53.
cbv beta iota zeta.
rewrite Z.shiftl_mul_pow2 by lia.
pose proof (Z_div_mod_full (Zpos m * 2 ^ 53) (Zpos m) ltac:(lia)) as Hd.
destruct (Z.div_eucl (Zpos m * 2 ^ 53) (Zpos m)) as [q r] eqn:Hqr.
destruct Hd as [Hd Hr]. unfold Remainder in Hr.
assert (Hq : q = 2 ^ 53 /\ r = 0).
{ set (c := 2 ^ 53) in *. clearbody c.
  assert (Zpos m * (c - q) = r) by lia.
  assert (c - q = 0) by nia. lia. }
destruct Hq as [-> ->].
assert (Hl : new_location (Zpos m) 0 = loc_Exact).
{ unfold new_location, new_location_even, new_location_odd.
  now destruct (Z.even (Zpos m)). }
rewrite Hl. now destruct s.
Qed.

Lemma Prim2SF_b64_of_Z (n : Z) (y : spec_float) :
binary_normalize prec emax n 0 false = y -> valid_binary y = true ->
Prim2SF (b64_of_Z n) = y.
Proof. intros <- Hv. unfold b64_of_Z. now apply Prim2SF_SF2Prim. Qed.

(** A positive integer below 2^53 converts to a finite float. *)
Lemma b64_of_Z_small (p : positive) :
Zpos (digits2_pos p) <= 53 ->
exists m e, Prim2SF (b64_of_Z (Zpos p)) = S754_finite false m e.
Proof.
intros Hd.
remember (Z.to_nat (53 - Zpos (digits2_pos p))) as j eqn:Hj.
exists (Nat.iter j xO p), (- Z.of_nat j).
assert (Hb : bounded prec emax (Nat.iter j xO p) (- Z.of_nat j) = true).
{ unfold bounded, canonical_mantissa. rewrite digits2_pos_iter_xO.
  apply andb_true_iff. split; [apply Z.eqb_eq | apply Z.leb_le];
    unfold fexp, emin, emax, prec; lia. }
apply Prim2SF_b64_of_Z; [| exact Hb].
unfold binary_normalize, binary_round, shl_align.
replace (fexp prec emax (Zpos (digits2_pos p) + 0) - 0) with (- Z.of_nat j)
  by (unfold fexp, emin, emax, prec; lia).
destruct j as [| j'].
- cbn [Z.of_nat Z.opp]. apply (binary_round_aux_exact false p 0 0).
  exact Hb.
- cbn [Z.of_nat Z.opp].
  rewrite Pos2Nat.inj_iter, SuccNat2Pos.id_succ.
  replace (fexp prec emax (Zpos (digits2_pos p) + 0)) with (- Z.of_nat (S j'))
    by (unfold fexp, emin, emax, prec; lia).
  change (nat_rect (fun _ => positive) p (fun _ => xO) (S j')) with (Nat.iter (S j') xO p).
  apply (binary_round_aux_exact false (Nat.iter (S j') xO p) (- Z.of_nat (S j')) 0).
  exact Hb.
Qed.

(** So does a 53-bit mantissa followed by zero bits. *)
Lemma b64_of_Z_shifted (q : positive) (j : nat) :
bounded prec emax q (Z.of_nat j) = true ->
Prim2SF (b64_of_Z (Zpos (Nat.iter j xO q))) = S754_finite false q (Z.of_nat j).
Proof.
intros Hb. destruct (bounded_inv _ _ Hb) as (Hc & He & Hd).
apply Prim2SF_b64_of_Z; [| exact Hb].
unfold binary_normalize, binary_round, shl_align.
rewrite digits2_pos_iter_xO.
replace (Zpos (digits2_pos q) + Z.of_nat j + 0) with (Zpos (digits2_pos q) + Z.of_nat j) by lia.
rewrite Hc.
assert (Hsh : Z.of_nat j - 0 = Z.of_nat j) by lia. rewrite Hsh.
destruct (Z.of_nat j) as [| k | k] eqn:Hk; [ | | lia].
- replace 0 with (Z.of_nat j - Z.of_nat j) at 1 by lia. rewrite <- Hk.
  now apply binary_round_aux_exact; rewrite Hk.
- replace 0 with (Z.of_nat j - Z.of_nat j) at 1 by lia. rewrite <- Hk.
  now apply binary_round_aux_exact; rewrite Hk.
Qed.

(** [int(np.ceil(x))], when at least 1, converts back to a finite float. *)
Lemma b64_of_Z_int_ceil (x : float) (n : Z) :
b64_int_ceil x = Ok n -> 1 <= n ->
exists m e, Prim2SF (b64_of_Z n) = S754_finite false m e.
Proof.
unfold b64_int_ceil. pose proof (Prim2SF_valid x) as Hv.
destruct (Prim2SF x) as [s | s | | s m e]; try discriminate.
- intros [= <-]. lia.
- cbn [valid_binary] in Hv. destruct (bounded_inv _ _ Hv) as (Hc & He & Hd).
  pose proof (digits2_pos_gt m) as Hm.
  assert (Hm53 : Zpos m < 2 ^ 53).
  { eapply Z.lt_le_trans; [exact Hm |]. apply Z.pow_le_mono_r; lia. }
  intros [= <-] Hn. destruct e as [| k | k].
  + destruct s; [lia |]. rewrite Z.mul_1_r. now apply b64_of_Z_small.
  + destruct s; [lia |].
    rewrite <- (positive_nat_Z k) in Hv |- *. rewrite <- Zpos_iter_xO.
    eexists _, _. now apply b64_of_Z_shifted.
  + assert (H2 : 0 < 2 ^ Zpos k) by (apply Z.pow_pos_nonneg; lia).
    destruct s.
    * exfalso. change (- Zneg m) with (Zpos m) in Hn.
      assert (0 <= Zpos m / 2 ^ Zpos k) by (apply Z.div_pos; lia). lia.
    * change (- Zpos m) with (Zneg m) in *.
      pose proof (Z_div_mod_eq_full (Zneg m) (2 ^ Zpos k)) as Hdm.
      pose proof (Z.mod_pos_bound (Zneg m) (2 ^ Zpos k) H2) as Hr.
      set (c := 2 ^ Zpos k) in *. set (qq := Zneg m / c) in *.
      set (r := Zneg m mod c) in *.
      assert (Hub : - qq <= Zpos m) by nia.
      change (- (Zneg m / Z.pow_pos 2 k)) with (- qq) in Hn |- *.
      destruct (- qq) as [| p | p] eqn:Hp; [lia | | lia].
      apply b64_of_Z_small. apply digits2_pos_le; lia.
Qed.

End Binary64Facts.

(* ================================================================== *)
(** ** Both arithmetics satisfy the shared identities *)

Lemma b64_pos_finite_or_inf (x : float) :
  PrimFloat.ltb 0 x = true ->
  Prim2SF x = S754_infinity false \/ exists m e, Prim2SF x = S754_finite false m e.
Proof.
  rewrite FloatAxioms.ltb_spec. change (Prim2SF 0) with (S754_zero false).
  unfold SFltb, SFcompare.
  destruct (Prim2SF x) as [s | [|] | | [|] m e]; try discriminate; eauto.
Qed.

Lemma SFcompare_finite_refl (s : bool) (m : positive) (e : Z) :
  SFcompare (S754_finite s m e) (S754_finite s m e) = Some Eq.
Proof.
  cbn [SFcompare]. rewrite Z.compare_refl, Pos.compare_cont_refl. now destruct s.
Qed.

#[global] Instance b64_laws : ArithLaws float.
Proof.
  constructor.
  - intros x n Hc Hn. cbn in *.
    destruct (b64_of_Z_int_ceil _ _ Hc Hn) as (m & e & Hf).
    now apply (b64_div_same _ _ _ _ Hf).
  - intros x e. cbn. unfold b64_int_ceil.
    destruct (Prim2SF x); intros [= <-]; auto.
  - intros x. apply b64_mul_1_l.
  - intros x Hx. cbn in *. rewrite FloatAxioms.eqb_spec.
    destruct (b64_pos_finite_or_inf _ Hx) as [-> | (m & e & ->)]; [reflexivity |].
    unfold SFeqb. now rewrite SFcompare_finite_refl.
  - intros x Hx. cbn in *. rewrite FloatAxioms.eqb_spec.
    change (Prim2SF (b64_of_Z 0)) with (S754_zero false).
    now destruct (b64_pos_finite_or_inf _ Hx) as [-> | (m & e & ->)].
  - reflexivity.
  - intros x. cbn. rewrite !FloatAxioms.eqb_spec.
    change (Prim2SF (b64_of_Z 0)) with (S754_zero false).
    change (Prim2SF (b64_of_Z 1)) with (S754_finite false 4503599627370496 (-52)).
    unfold SFeqb, SFcompare.
    destruct (Prim2SF x) as [s | [|] | | [|] m e]; try discriminate; reflexivity.
Qed.

Lemma R_eqb_true (x y : R) : R_eqb x y = true <-> x = y.
Proof. unfold R_eqb. destruct (Req_dec_T x y); split; congruence. Qed.

Lemma R_eqb_false (x y : R) : R_eqb x y = false <-> x <> y.
Proof. unfold R_eqb. destruct (Req_dec_T x y); split; congruence. Qed.

Lemma R_ltb_true (x y : R) : R_ltb x y = true <-> (x < y)%R.
Proof. unfold R_ltb. destruct (Rlt_dec x y); split; intros; (congruence || lra || auto). Qed.

#[global] Instance R_laws : ArithLaws R.
Proof.
  constructor; cbn.
  - intros _ n _ Hn. apply IZR_le in Hn. field. lra.
  - discriminate.
  - intros x. ring.
  - intros x _. now apply R_eqb_true.
  - intros x Hx. apply R_ltb_true in Hx. apply R_eqb_false. lra.
  - apply R_ltb_true. lra.
  - intros x Hx. apply R_eqb_true in Hx. apply R_eqb_false. lra.
Qed.

(* ================================================================== *)
(** ** Lists as arrays *)

Section ArrayFacts.
Context {A B C : Type}.

Lemma map2_length (f : A -> B -> C) (a : list A) (b : list B) :
  length (map2 f a b) = Nat.min (length a) (length b).
Proof.
  revert b; induction a as [| x a IH]; intros [| y b]; simpl; auto.
Qed.

Lemma map2_Forall (P : C -> Prop) (f : A -> B -> C) (a : list A) (b : list B) :
  (forall x y, In x a -> In y b -> P (f x y)) -> Forall P (map2 f a b).
Proof.
  revert b; induction a as [| x a IH]; intros [| y b] Hf; simpl; constructor.
  - apply Hf; now left.
  - apply IH. intros; apply Hf; now right.
Qed.

Lemma index_last_app (l : list A) (x : A) : index_last (l ++ [x]) = Ok x.
Proof. unfold index_last. now rewrite rev_unit. Qed.

Lemma index_last_cons_ok (x : A) (l : list A) : exists y, index_last (x :: l) = Ok y.
Proof.
  destruct (exists_last (l := x :: l)) as (l' & y & ->); [discriminate |].
  exists y. apply index_last_app.
Qed.

End ArrayFacts.

Section SigmaPathFacts.
Context {F : Type} `{Arith F}.
Local Open Scope num_scope.
Variable np_exp : F -> F.
Variable draws : nat -> F.

Lemma arange1_succ (k : nat) :
  arange1 (Z.of_nat (S k)) = arange1 (Z.of_nat k) ++ [Z.of_nat (S k)].
Proof.
  unfold arange1. rewrite !Nat2Z.id, seq_S, map_app. reflexivity.
Qed.

Lemma arange1_length (n : Z) : length (arange1 n) = Z.to_nat n.
Proof. unfold arange1. now rewrite length_map, length_seq. Qed.

Lemma time_grid_length (n : Z) (texp : F) : length (time_grid n texp) = Z.to_nat n.
Proof. unfold time_grid. now rewrite length_map, arange1_length. Qed.

(** The last grid point is [n_dt / n_dt * texp]. *)
Lemma time_grid_last (n : Z) (texp : F) :
  (1 <= n)%Z -> index_last (time_grid n texp) = Ok (of_Z n / of_Z n * texp).
Proof.
  intros Hn. unfold time_grid.
  assert (Hk : n = Z.of_nat (S (Z.to_nat n - 1))) by lia.
  assert (Ha : arange1 n = arange1 (Z.of_nat (Z.to_nat n - 1)) ++ [n]).
  { rewrite Hk at 1. rewrite arange1_succ. now rewrite <- Hk. }
  rewrite Ha, map_app. cbn [map]. apply index_last_app.
Qed.

Lemma time_grid_nonpositive (n : Z) (texp : F) :
  (n <= 0)%Z -> time_grid n texp = [].
Proof.
  intros Hn. unfold time_grid, arange1.
  replace (Z.to_nat n) with 0%nat by lia. reflexivity.
Qed.

Lemma cumsum_from_length (acc : list F) (rows : list (list F)) :
  length (cumsum_from acc rows) = length rows.
Proof. revert acc; induction rows as [| r rs IH]; intros acc; simpl; auto. Qed.

Lemma cumsum_from_cols (c : nat) (acc : list F) (rows : list (list F)) :
  length acc = c -> Forall (fun r => length r = c) rows ->
  Forall (fun r => length r = c) (cumsum_from acc rows).
Proof.
  revert acc; induction rows as [| r rs IH]; intros acc Ha Hr; simpl; constructor;
    inversion Hr; subst.
  - rewrite map2_length. lia.
  - apply IH; [rewrite map2_length; lia | assumption].
Qed.

Lemma cumsum_axis0_length (rows : list (list F)) :
  length (cumsum_axis0 rows) = length rows.
Proof. destruct rows; simpl; [| rewrite cumsum_from_length]; reflexivity. Qed.

Lemma cumsum_axis0_cols (c : nat) (rows : list (list F)) :
  Forall (fun r => length r = c) rows ->
  Forall (fun r => length r = c) (cumsum_axis0 rows).
Proof.
  destruct rows as [| r rs]; simpl; intros Hr; [constructor |].
  inversion Hr; subst. constructor; [reflexivity |]. now apply cumsum_from_cols.
Qed.

Lemma sigma_rows_shape (self : Model F) (texp : F) (n : Z) (c : nat) (N : list (list F)) :
  length N = Z.to_nat n -> Forall (fun r => length r = c) N ->
  length (sigma_rows np_exp self texp n N) = Z.to_nat n
  /\ Forall (fun r => length r = c) (sigma_rows np_exp self texp n N)
  /\ Forall (Forall (fun x => exists a, x = np_exp a)) (sigma_rows np_exp self texp n N).
Proof.
  intros HN Hc. unfold sigma_rows. split; [| split].
  - rewrite map2_length, cumsum_axis0_length, length_map, time_grid_length. lia.
  - apply map2_Forall. intros r t Hr _. rewrite length_map.
    assert (Hall : Forall (fun r => length r = c)
                          (cumsum_axis0 (map (map (fun x => x * fsqrt (texp / of_Z n))) N))).
    { apply cumsum_axis0_cols. apply Forall_map.
      eapply Forall_impl; [| exact Hc]. intros a Ha. now rewrite length_map. }
    rewrite Forall_forall in Hall. now apply Hall.
  - apply map2_Forall. intros r t _ _. apply Forall_map, Forall_forall.
    intros z _. eauto.
Qed.

Lemma standard_normal2_shape (r c : Z) (s : nat) :
  (0 <= r)%Z -> (0 <= c)%Z ->
  exists N, standard_normal2 draws r c s = Ok (N, (s + Z.to_nat r * Z.to_nat c)%nat)
            /\ length N = Z.to_nat r
            /\ Forall (fun row => length row = Z.to_nat c) N.
Proof.
  intros Hr Hc. unfold standard_normal2.
  replace ((r <? 0)%Z || (c <? 0)%Z) with false
    by (symmetry; apply orb_false_iff; split; apply Z.ltb_ge; lia).
  eexists; split; [reflexivity | split].
  - now rewrite length_map, length_seq.
  - apply Forall_map, Forall_forall. intros i _. now rewrite length_map, length_seq.
Qed.
End SigmaPathFacts.

(* ================================================================== *)
(** ** sigma_path *)

Section SigmaPathRun.
Context {F : Type} `{Arith F}.
Local Open Scope num_scope.
Variable np_exp : F -> F.
Variable draws : nat -> F.

(** One run of [sigma_path] on a grid of [n >= 1] steps whose assertion
    passes. *)
Lemma sigma_path_run (self : Model F) (texp : F) (n : Z) (s : nat) :
  (dt self == of_Z 0) = false ->
  int_ceil (texp / dt self) = Ok n ->
  (1 <= n)%Z -> (0 <= n_path self)%Z ->
  index_last (time_grid n texp) = Ok texp ->
  (texp == texp) = true ->
  exists N,
    standard_normal2 draws n (n_path self) s
    = Ok (N, (s + Z.to_nat n * Z.to_nat (n_path self))%nat)
    /\ length N = Z.to_nat n
    /\ Forall (fun row => length row = Z.to_nat (n_path self)) N
    /\ sigma_path np_exp draws self texp s
       = Ok (repeat (of_Z 1) (Z.to_nat (n_path self)) :: sigma_rows np_exp self texp n N,
             (s + Z.to_nat n * Z.to_nat (n_path self))%nat).
Proof.
  intros Hdt Hceil Hn Hp Hlast Heq.
  destruct (standard_normal2_shape draws n (n_path self) s) as (N & HN & Hlen & Hcols);
    [lia | lia |].
  exists N. repeat split; try assumption.
  unfold sigma_path, bind, lift, pydiv, pydiv_int. rewrite Hdt, Hceil.
  replace (n =? 0)%Z with false by (symmetry; apply Z.eqb_neq; lia).
  rewrite Hlast, Heq. cbn [py_assert]. rewrite HN. unfold ret.
  fold (sigma_rows np_exp self texp n N).
  destruct (sigma_rows_shape np_exp self texp n (Z.to_nat (n_path self)) N Hlen Hcols)
    as (Hl & Hc & _).
  destruct (sigma_rows np_exp self texp n N) as [| r rs]; [simpl in Hl; lia |].
  inversion Hc as [| ? ? Hr0 _]; subst. cbn [ncols]. now rewrite Hr0.
Qed.

(** Whatever [sigma_path] returns has a first row, and the path count is not
    negative. *)
Lemma sigma_path_Ok_inv (self : Model F) (texp : F) (s s' : nat) (rows : list (list F)) :
  sigma_path np_exp draws self texp s = Ok (rows, s') ->
  rows <> [] /\ (0 <= n_path self)%Z.
Proof.
  unfold sigma_path, bind, lift, ret, standard_normal2.
  destruct (pydiv texp (dt self)) as [q |]; [| discriminate].
  destruct (int_ceil q) as [n |]; [| discriminate].
  destruct (pydiv_int texp n) as [d |]; [| discriminate].
  destruct (index_last (time_grid n texp)) as [t |]; [| discriminate].
  destruct (py_assert (texp == t)) as [u |]; [| discriminate].
  destruct ((n <? 0)%Z || (n_path self <? 0)%Z) eqn:Hneg; [discriminate |].
  apply orb_false_iff in Hneg. destruct Hneg as [_ Hp]. apply Z.ltb_ge in Hp.
  intros [= <- _]. split; [discriminate | assumption].
Qed.
End SigmaPathRun.

Section SigmaPathTheorems.
Context {F : Type} `{ArithLaws F}.
Local Open Scope num_scope.
Variable np_exp : F -> F.
Variable draws : nat -> F.

Lemma time_grid_last_exact (x texp : F) (n : Z) :
  int_ceil x = Ok n -> (1 <= n)%Z -> index_last (time_grid n texp) = Ok texp.
Proof.
  intros Hc Hn. rewrite time_grid_last by assumption.
  now rewrite (int_ceil_div_self x n Hc Hn), mul_one_l.
Qed.

(** Under the shared identities a grid of [n >= 1] steps passes the
    assertion, and [sigma_path] returns the row of ones on top of
    [sigma_rows]. *)
Lemma sigma_path_runs (self : Model F) (texp : F) (n : Z) (s : nat) :
  fltb (of_Z 0) texp = true -> fltb (of_Z 0) (dt self) = true ->
  (0 <= n_path self)%Z ->
  int_ceil (texp / dt self) = Ok n -> (1 <= n)%Z ->
  exists N,
    length N = Z.to_nat n
    /\ Forall (fun row => length row = Z.to_nat (n_path self)) N
    /\ sigma_path np_exp draws self texp s
       = Ok (repeat (of_Z 1) (Z.to_nat (n_path self)) :: sigma_rows np_exp self texp n N,
             (s + Z.to_nat n * Z.to_nat (n_path self))%nat).
Proof.
  intros Ht Hd Hp Hc Hn.
  destruct (sigma_path_run np_exp draws self texp n s
              (pos_nonzero _ Hd) Hc Hn Hp (time_grid_last_exact _ texp _ Hc Hn)
              (pos_eqb_refl _ Ht))
    as (N & _ & HlenN & HcolsN & Hrun).
  now exists N.
Qed.

(** The row of ones is positive, and so are the rows below it when the
    exponential is. *)
Lemma path_rows_positive (c : nat) (rows : list (list F)) :
  Forall (Forall (fun x => exists a, x = np_exp a)) rows ->
  (forall a, fltb (of_Z 0) (np_exp a) = true) ->
  Forall (Forall (fun x => fltb (of_Z 0) x = true)) (repeat (of_Z 1) c :: rows).
Proof.
  intros Hex Hpos. constructor.
  - apply Forall_forall. intros x Hx. apply repeat_spec in Hx. subst. apply one_pos.
  - eapply Forall_impl; [| exact Hex]. intros r Hr.
    eapply Forall_impl; [| exact Hr]. intros x [a ->]. apply Hpos.
Qed.

(** C1 (as amended): for texp > 0, dt > 0 and n_path > 0, whenever the step
    count n_dt = int(ceil(texp/dt)) is at least 1, [sigma_path] returns
    n_dt + 1 rows of n_path columns and consumes n_dt * n_path draws; the
    first row is all 1.0, every other entry is a value of np.exp (so every
    entry is positive when np.exp is), and the last grid point is texp. *)
Theorem sigma_path_shape (self : Model F) (texp : F) (n : Z) (s : nat) :
  fltb (of_Z 0) texp = true -> fltb (of_Z 0) (dt self) = true ->
  (0 < n_path self)%Z ->
  int_ceil (texp / dt self) = Ok n -> (1 <= n)%Z ->
  exists rows : list (list F),
    sigma_path np_exp draws self texp s
    = Ok (rows, (s + Z.to_nat n * Z.to_nat (n_path self))%nat)
    /\ length rows = S (Z.to_nat n)
    /\ Forall (fun row => length row = Z.to_nat (n_path self)) rows
    /\ hd [] rows = repeat (of_Z 1) (Z.to_nat (n_path self))
    /\ Forall (Forall (fun x => exists a, x = np_exp a)) (tl rows)
    /\ ((forall a, fltb (of_Z 0) (np_exp a) = true) ->
        Forall (Forall (fun x => fltb (of_Z 0) x = true)) rows)
    /\ index_last (time_grid n texp) = Ok texp.
Proof.
  intros Ht Hd Hp Hc Hn.
  destruct (sigma_path_runs self texp n s Ht Hd ltac:(lia) Hc Hn)
    as (N & HlenN & HcolsN & Hrun).
  destruct (sigma_rows_shape np_exp self texp n _ N HlenN HcolsN) as (Hl & Hcs & Hex).
  eexists. split; [exact Hrun |]. cbn [length hd tl].
  split; [now rewrite Hl |].
  split; [constructor; [apply repeat_length | exact Hcs] |].
  split; [reflexivity |].
  split; [exact Hex |].
  split; [now apply path_rows_positive |].
  exact (time_grid_last_exact _ texp _ Hc Hn).
Qed.

(** C10: for texp > 0 and dt > 0 the assertion [texp == tobs[-1]] of
    [sigma_path] never fails: the last grid point is [n_dt / n_dt * texp],
    which is exactly texp, so no run ends in AssertionError. *)
Theorem sigma_path_assert_never_fails (self : Model F) (texp : F) (s : nat) :
  fltb (of_Z 0) texp = true -> fltb (of_Z 0) (dt self) = true ->
  (forall n, int_ceil (texp / dt self) = Ok n -> (1 <= n)%Z ->
             index_last (time_grid n texp) = Ok (of_Z n / of_Z n * texp)
             /\ of_Z n / of_Z n * texp = texp)
  /\ sigma_path np_exp draws self texp s <> Raise AssertionError.
Proof.
  intros Ht Hd. split.
  - intros n Hc Hn. split; [now apply time_grid_last |].
    now rewrite (int_ceil_div_self _ n Hc Hn), mul_one_l.
  - unfold sigma_path, bind, lift, pydiv. rewrite (pos_nonzero _ Hd).
    destruct (int_ceil (texp / dt self)) as [n | e] eqn:Hc.
    2:{ destruct (int_ceil_exn _ _ Hc) as [-> | ->]; discriminate. }
    unfold pydiv_int. destruct (n =? 0)%Z eqn:Hn0; [discriminate |].
    apply Z.eqb_neq in Hn0.
    destruct (Z_le_gt_dec 1 n) as [Hn | Hn].
    + rewrite (time_grid_last_exact _ texp _ Hc Hn), (pos_eqb_refl _ Ht).
      cbn [py_assert]. unfold standard_normal2, ret.
      now destruct ((n <? 0)%Z || (n_path self <? 0)%Z).
    + rewrite time_grid_nonpositive by lia. discriminate.
Qed.
End SigmaPathTheorems.

Lemma R_ceil_pos (x : R) : (0 < x)%R -> (1 <= R_ceil x)%Z.
Proof.
  intros Hx. unfold R_ceil. destruct (archimed (- x)) as [_ Hup].
  assert (Hlt : (IZR (up (- x)) < 1)%R) by lra.
  apply lt_IZR in Hlt. lia.
Qed.

(** In exact arithmetic the claim on [sigma_path] holds as stated. *)
Lemma sigma_path_claim_exact : sigma_path_claim (F := R) exp.
Proof.
  intros draws self texp s Ht Hd Hp.
  pose proof Ht as Ht'. pose proof Hd as Hd'.
  cbn in Ht', Hd'. apply R_ltb_true in Ht', Hd'.
  set (n := R_ceil (texp / dt self)).
  assert (Hn : (1 <= n)%Z) by (apply R_ceil_pos, Rdiv_lt_0_compat; assumption).
  destruct (sigma_path_runs exp draws self texp n s Ht Hd ltac:(lia) eq_refl Hn)
    as (N & HlenN & HcolsN & Hrun).
  destruct (sigma_rows_shape exp self texp n _ N HlenN HcolsN) as (Hl & Hcs & Hex).
  eexists n, _, _. split; [reflexivity |]. split; [exact Hrun |].
  cbn [length hd]. split; [now rewrite Hl |].
  split; [constructor; [apply repeat_length | exact Hcs] |].
  split; [reflexivity |].
  split; [| exact (time_grid_last_exact (texp / dt self)%num texp n eq_refl Hn)].
  apply (path_rows_positive exp); [exact Hex |].
  intros a. cbn. apply R_ltb_true, exp_pos.
Qed.

(** In binary64 it fails whatever [np.exp] is: [texp / dt] can underflow. *)
Lemma sigma_path_claim_fails_b64 :
  ~ exists np_exp : float -> float, sigma_path_claim np_exp.
Proof.
  intros [np_exp Hc].
  destruct (Hc (fun _ => 0%float) b64_tiny_model 0x1p-1074%float 0%nat
               eq_refl eq_refl eq_refl)
    as (n & rows & s' & _ & Hrun & _).
  vm_compute in Hrun. discriminate.
Qed.

(** Where the exponential underflows, an entry of the path is zero: with
    [vov = 100] and a draw equal to 0 the entry at maturity 1 is
    [np.exp(-5000)]. *)
Lemma sigma_path_entry_underflows (np_exp : float -> float) (s : nat) :
  sigma_path np_exp (fun _ => 0%float) b64_wild_model 1%float s
  = Ok ([[1%float]; [np_exp (-5000)%float]], (s + 1)%nat).
Proof.
  assert (Ht : fltb (of_Z 0) 1%float = true) by (vm_compute; reflexivity).
  assert (Hc : int_ceil (fdiv 1%float (dt b64_wild_model)) = Ok 1%Z)
    by (vm_compute; reflexivity).
  destruct (sigma_path_run np_exp (fun _ => 0%float) b64_wild_model 1%float 1 s)
    as (N & HN & _ & _ & ->); try (vm_compute; reflexivity); try discriminate.
  unfold standard_normal2 in HN. cbn in HN. injection HN as <-.
  f_equal.
Qed.

Lemma sigma_path_shape_witness :
  (fltb (of_Z 0) 1%float = true /\ fltb (of_Z 0) (dt b64_model) = true
   /\ (0 < n_path b64_model)%Z
   /\ int_ceil (fdiv 1%float (dt b64_model)) = Ok 10%Z /\ (1 <= 10)%Z)
  /\ forall (np_exp : float -> float) (draws : nat -> float) (s : nat),
      exists rows : list (list float),
        sigma_path np_exp draws b64_model 1%float s = Ok (rows, (s + 10 * 10000)%nat)
        /\ length rows = 11%nat
        /\ Forall (fun row => length row = 10000%nat) rows
        /\ index_last (time_grid 10 1%float) = Ok 1%float.
Proof.
  split; [repeat apply conj; try (vm_compute; reflexivity); discriminate |].
  intros np_exp draws s.
  assert (Ht : fltb (of_Z 0) 1%float = true) by (vm_compute; reflexivity).
  assert (Hd : fltb (of_Z 0) (dt b64_model) = true) by (vm_compute; reflexivity).
  assert (Hp : (0 < n_path b64_model)%Z) by reflexivity.
  assert (Hc : int_ceil (fdiv 1%float (dt b64_model)) = Ok 10%Z) by (vm_compute; reflexivity).
  assert (Hn : (1 <= 10)%Z) by discriminate.
  destruct (sigma_path_shape np_exp draws b64_model 1%float 10 s Ht Hd Hp Hc Hn)
    as (rows & Hrun & Hlen & Hcols & _ & _ & _ & Hlast).
  exists rows. repeat split; assumption.
Defined.

Lemma sigma_path_assert_never_fails_witness :
  (fltb (of_Z 0) 1%float = true /\ fltb (of_Z 0) (dt b64_model) = true)
  /\ forall (np_exp : float -> float) (draws : nat -> float) (s : nat),
      sigma_path np_exp draws b64_model 1%float s <> Raise AssertionError.
Proof.
  split; [split; vm_compute; reflexivity |].
  intros np_exp draws s.
  assert (Ht : fltb (of_Z 0) 1%float = true) by (vm_compute; reflexivity).
  assert (Hd : fltb (of_Z 0) (dt b64_model) = true) by (vm_compute; reflexivity).
  exact (proj2 (sigma_path_assert_never_fails np_exp draws b64_model 1%float s Ht Hd)).
Defined.

(* ================================================================== *)
(** ** intvar_normalized *)

Section IntvarFacts.
Context {F : Type} `{Arith F}.
Local Open Scope num_scope.

Lemma set_nth_repeat_last (a v : F) (k : nat) :
  set_nth (repeat a (S k)) k v = repeat a k ++ [v].
Proof. induction k as [| k IH]; [reflexivity |]. cbn [repeat set_nth app] in *. now rewrite IH. Qed.

(** The weights the code builds are the trapezoidal ones. *)
Lemma set_first_last_ones (m : nat) :
  set_first_last (repeat (of_Z 1) (S m)) half = Ok (trapezoid_weights (S m)).
Proof.
  unfold set_first_last. rewrite repeat_length. cbn [repeat]. f_equal.
  replace (S m - 1)%nat with m by lia. cbn [set_nth].
  destruct m as [| k]; [reflexivity |].
  cbn [set_nth trapezoid_weights]. f_equal.
  change (of_Z 1 :: repeat (of_Z 1) k) with (repeat (of_Z 1 : F) (S k)).
  apply set_nth_repeat_last.
Qed.

Lemma intvar_normalized_unfold (r : list F) (rs : list (list F)) :
  intvar_normalized (r :: rs)
  = Ok (sum_axis0 (map2 (fun w row => map (fun x => w * sq x) row)
                        (normalized_weights (S (length rs))) (r :: rs))).
Proof.
  unfold intvar_normalized. cbn [length]. now rewrite set_first_last_ones.
Qed.

Lemma nth_error_map2 {A B C} (f : A -> B -> C) (a : list A) (b : list B) (j : nat) x y :
  nth_error a j = Some x -> nth_error b j = Some y ->
  nth_error (map2 f a b) j = Some (f x y).
Proof.
  revert a b; induction j as [| j IH]; intros [| x' a] [| y' b]; try discriminate; cbn.
  - now intros [= ->] [= ->].
  - apply IH.
Qed.

Lemma column_cons (j : nat) (r : list F) (rs : list (list F)) (x : F) :
  nth_error r j = Some x -> column j (r :: rs) = x :: column j rs.
Proof. intros Hx. unfold column. cbn [flat_map]. now rewrite Hx. Qed.

Lemma nth_error_lt {A} (l : list A) (j : nat) :
  j < length l -> exists x, nth_error l j = Some x.
Proof.
  intros Hj. destruct (nth_error l j) eqn:E; [eauto |].
  apply nth_error_None in E. lia.
Qed.

(** Adding rows one after the other adds each column from top to bottom. *)
Lemma fold_rows_nth (rs : list (list F)) (acc : list F) (j : nat) (a : F) :
  nth_error acc j = Some a -> Forall (fun r => j < length r) rs ->
  nth_error (fold_left (map2 fadd) rs acc) j = Some (fold_left fadd (column j rs) a).
Proof.
  revert acc a; induction rs as [| r rs IH]; intros acc a Ha Hr; [exact Ha |].
  inversion Hr as [| ? ? Hj Hrs]; subst.
  destruct (nth_error_lt _ _ Hj) as [x Hx].
  rewrite (column_cons _ _ rs _ Hx). cbn [fold_left].
  apply IH; [| assumption]. now apply nth_error_map2.
Qed.

Lemma fold_rows_length (n : nat) (rs : list (list F)) (acc : list F) :
  length acc = n -> Forall (fun r => length r = n) rs ->
  length (fold_left (map2 fadd) rs acc) = n.
Proof.
  revert acc; induction rs as [| r rs IH]; intros acc Ha Hr; [exact Ha |].
  inversion Hr; subst. cbn [fold_left]. apply IH; [| assumption].
  rewrite map2_length. lia.
Qed.

Lemma column_weighted (j : nat) (w : list F) (rows : list (list F)) :
  Forall (fun r => j < length r) rows ->
  column j (map2 (fun wi row => map (fun x => wi * sq x) row) w rows)
  = map2 (fun wi x => wi * sq x) w (column j rows).
Proof.
  revert w; induction rows as [| r rows IH]; intros [| wi w] Hr; try reflexivity.
  inversion Hr as [| ? ? Hj Hrs]; subst.
  destruct (nth_error_lt _ _ Hj) as [x Hx].
  cbn [map2]. rewrite (column_cons j r rows x Hx).
  erewrite column_cons by (rewrite nth_error_map, Hx; reflexivity).
  cbn [map2]. f_equal. now apply IH.
Qed.

(** [intvar_normalized] on a matrix with at least one row and [n] columns:
    one value per path, the weighted sum of the squares down its column. *)
Lemma intvar_normalized_columns (path : list (list F)) (n : nat) :
  path <> [] -> Forall (fun row => length row = n) path ->
  exists I_t,
    intvar_normalized path = Ok I_t
    /\ length I_t = n
    /\ forall j, j < n ->
         nth_error I_t j
         = Some (weighted_square_sum (normalized_weights (length path)) (column j path)).
Proof.
  intros Hne Hrect. destruct path as [| r rs]; [congruence |]. clear Hne.
  rewrite intvar_normalized_unfold. eexists; split; [reflexivity |].
  set (W := normalized_weights (S (length rs))).
  assert (HW : exists w0 ws, W = w0 :: ws /\ length ws = length rs).
  { unfold W, normalized_weights.
    destruct (length rs) as [| k] eqn:Hk; cbn [trapezoid_weights map].
    - now exists (half / vsum [half]), [].
    - eexists _, _. split; [reflexivity |].
      rewrite length_map, length_app, repeat_length. cbn. lia. }
  destruct HW as (w0 & ws & HW & Hws). cbn [length]. fold W. rewrite HW.
  inversion Hrect as [| ? ? Hr Hrs]; subst.
  cbn [map2 sum_axis0]. split.
  - apply fold_rows_length; [now rewrite length_map |].
    apply map2_Forall. intros wi row _ Hrow. rewrite length_map.
    rewrite Forall_forall in Hrs. now apply Hrs.
  - intros j Hj.
    assert (Hall : Forall (fun r0 => j < length r0) rs).
    { eapply Forall_impl; [| exact Hrs]. intros a Ha. cbn in Ha. lia. }
    destruct (nth_error_lt r j Hj) as [x Hx].
    erewrite fold_rows_nth;
      [ | rewrite nth_error_map, Hx; reflexivity
        | apply map2_Forall; intros wi row _ Hrow; rewrite length_map;
          rewrite Forall_forall in Hall; now apply Hall ].
    rewrite column_weighted by assumption.
    rewrite (column_cons j r rs x Hx). reflexivity.
Qed.
End IntvarFacts.

Section IntvarExact.
Local Open Scope R_scope.

Lemma fold_left_Rplus_acc (l : list R) (a : R) :
  fold_left Rplus l a = a + fold_left Rplus l 0.
Proof.
  revert a; induction l as [| x l IH]; intros a; cbn [fold_left]; [lra |].
  rewrite (IH (a + x)), (IH (0 + x)). lra.
Qed.

Lemma vsum_R_cons (x : R) (l : list R) : vsum (x :: l) = x + vsum l.
Proof. unfold vsum. cbn. rewrite fold_left_Rplus_acc. lra. Qed.

Lemma vsum_R_app (l l' : list R) : vsum (l ++ l') = vsum l + vsum l'.
Proof.
  induction l as [| x l IH]; cbn [app]; [unfold vsum at 2; cbn; lra |].
  rewrite !vsum_R_cons, IH. lra.
Qed.

Lemma vsum_R_map_div (t : R) (l : list R) :
  vsum (map (fun x => fdiv x t) l) = vsum l / t.
Proof.
  induction l as [| x l IH]; cbn [map].
  - unfold vsum. cbn. unfold Rdiv. lra.
  - rewrite !vsum_R_cons, IH. cbn. unfold Rdiv. lra.
Qed.

Lemma vsum_R_repeat_one (k : nat) : 0 <= vsum (repeat (of_Z 1 : R) k).
Proof.
  induction k as [| k IH]; [unfold vsum; cbn; lra |].
  cbn [repeat]. rewrite vsum_R_cons. change (of_Z 1 : R) with 1 in *. lra.
Qed.

Lemma trapezoid_weights_sum_pos (m : nat) : 0 < vsum (trapezoid_weights (F := R) (S m)).
Proof.
  destruct m as [| k]; cbn [trapezoid_weights].
  - rewrite vsum_R_cons. unfold vsum. cbn. lra.
  - rewrite vsum_R_cons, vsum_R_app, vsum_R_cons.
    pose proof (vsum_R_repeat_one k) as Hk.
    change (vsum (@nil R)) with 0. change (half : R) with (/ 2). lra.
Qed.

(** In exact arithmetic the normalized weights sum to 1. *)
Lemma normalized_weights_sum (m : nat) : vsum (normalized_weights (F := R) (S m)) = 1.
Proof.
  unfold normalized_weights. rewrite vsum_R_map_div.
  pose proof (trapezoid_weights_sum_pos m). field. lra.
Qed.

Lemma normalized_weights_length {F : Type} `{Arith F} (m : nat) :
  length (normalized_weights (F := F) m) = m.
Proof.
  unfold normalized_weights. rewrite length_map.
  destruct m as [| [| k]]; cbn [trapezoid_weights length]; try reflexivity.
  rewrite length_app, repeat_length. cbn. lia.
Qed.

Lemma weighted_square_sum_ones (w : list R) :
  weighted_square_sum w (repeat 1 (length w)) = vsum w.
Proof.
  unfold weighted_square_sum.
  assert (Hm : map2 (fun wi x : R => fmul wi (sq x)) w (repeat 1 (length w)) = w).
  { induction w as [| x w IH]; [reflexivity |].
    cbn [length repeat map2]. rewrite IH. f_equal. cbn. ring. }
  rewrite Hm. destruct w as [| t ts]; [reflexivity |].
  unfold vsum. cbn. now rewrite Rplus_0_l.
Qed.

Lemma column_constant {F : Type} `{Arith F} (a : F) (j n m : nat) :
  (j < n)%nat -> column j (repeat (repeat a n) m) = repeat a m.
Proof.
  intros Hj. induction m as [| m IH]; [reflexivity |].
  cbn [repeat]. rewrite (column_cons j _ _ a) by now apply nth_error_repeat.
  now rewrite IH.
Qed.

(** In exact arithmetic a constant path of ones integrates to exactly 1. *)
Lemma intvar_normalized_ones_exact (m n : nat) :
  intvar_normalized (F := R) (repeat (repeat 1 n) (S m)) = Ok (repeat 1 n).
Proof.
  destruct (intvar_normalized_columns (repeat (repeat 1 n) (S m)) n)
    as (I_t & -> & Hlen & Hnth).
  - discriminate.
  - apply Forall_forall. intros row Hrow. apply repeat_spec in Hrow. subst.
    apply repeat_length.
  - f_equal. apply nth_error_ext. intros j.
    destruct (Nat.lt_ge_cases j n) as [Hj | Hj].
    + rewrite (Hnth j Hj), nth_error_repeat by assumption. f_equal.
      rewrite repeat_length, column_constant by assumption.
      rewrite <- (normalized_weights_length (F := R) (S m)) at 2.
      rewrite weighted_square_sum_ones. apply normalized_weights_sum.
    + transitivity (@None R); [| symmetry]; apply nth_error_None;
        rewrite ?repeat_length; lia.
Qed.
End IntvarExact.

(** In binary64 the same path integrates to the float just below 1, on a
    grid of 4 points (three steps: the weights 1/6, 1/3, 1/3, 1/6 add up to
    it in whatever order they are taken one by one) and on the default grid
    of 11 points (texp = 1, dt = 0.1); both matrices have two columns, which
    numpy adds row by row. *)
Lemma intvar_normalized_ones_b64 :
  intvar_normalized (F := float) (repeat (repeat 1%float 2) 4)
  = Ok [0x1.fffffffffffffp-1%float; 0x1.fffffffffffffp-1%float]
  /\ intvar_normalized (F := float) (repeat (repeat 1%float 2) 11)
     = Ok [0x1.fffffffffffffp-1%float; 0x1.fffffffffffffp-1%float]
  /\ feqb 0x1.fffffffffffffp-1%float 1%float = false.
Proof. repeat apply conj; vm_compute; reflexivity. Qed.

(** C5 (as amended): on every path matrix with at least one row,
    [intvar_normalized] returns one value per path, in any arithmetic; in
    exact arithmetic that value is the sum down the column of the squared
    multipliers weighted by the trapezoidal weights (1/2 at both ends, 1
    inside) divided by their sum, these weights sum to 1, and a constant
    path of ones gives exactly 1. *)
Theorem intvar_normalized_trapezoid :
  (forall (F : Type) (A : Arith F) (path : list (list F)) (n : nat),
      path <> [] -> Forall (fun row => length row = n) path ->
      exists I_t, intvar_normalized path = Ok I_t /\ length I_t = n)
  /\ (forall (path : list (list R)) (n : nat),
         path <> [] -> Forall (fun row => length row = n) path ->
         exists I_t,
           intvar_normalized path = Ok I_t
           /\ length I_t = n
           /\ forall j, j < n ->
                nth_error I_t j
                = Some (weighted_square_sum (normalized_weights (length path))
                                            (column j path)))
  /\ (forall m : nat, vsum (normalized_weights (F := R) (S m)) = 1%R)
  /\ (forall m n : nat,
         intvar_normalized (F := R) (repeat (repeat 1%R n) (S m)) = Ok (repeat 1%R n)).
Proof.
  split; [| split; [| split]].
  - intros F A path n Hne Hrect.
    destruct (intvar_normalized_columns path n Hne Hrect) as (I_t & HI & Hlen & _).
    now exists I_t.
  - intros path n. apply intvar_normalized_columns.
  - apply normalized_weights_sum.
  - apply intvar_normalized_ones_exact.
Qed.

(* ================================================================== *)
(** ** base_model *)

Section BaseModel.
Context {F : Type} `{ArithLaws F}.
Local Open Scope num_scope.

(** C6: [base_model] returns the normal model built with (vol, intr) when
    beta = 0, the log-normal model built with (vol, intr) when beta = 1, and
    raises ValueError at once for every other beta; without an argument it
    uses the model's own sigma. *)
Theorem base_model_selection (self : Model F) (vol : pf_sigma F) :
  ((beta self == of_Z 0) = true ->
   base_model self (Some vol)
   = Ok {| pf_k := Norm; pf_vol := vol; pf_intr := intr self |})
  /\ ((beta self == of_Z 1) = true ->
      base_model self (Some vol)
      = Ok {| pf_k := Bsm; pf_vol := vol; pf_intr := intr self |})
  /\ ((beta self == of_Z 0) = false -> (beta self == of_Z 1) = false ->
      forall arg, base_model self arg = Raise ValueError)
  /\ base_model self None = base_model self (Some (Scalar (sigma self))).
Proof.
  unfold base_model. repeat split.
  - now intros ->.
  - intros H1. now rewrite (one_nonzero _ H1), H1.
  - now intros -> ->.
Qed.

Lemma base_model_select_kind (self : Model F) (vol : pf_sigma F) :
  base_model self (Some vol)
  = match select_kind self with
    | Ok k => Ok {| pf_k := k; pf_vol := vol; pf_intr := intr self |}
    | Raise e => Raise e
    end.
Proof.
  unfold base_model, select_kind.
  destruct (beta self == of_Z 0); [reflexivity |].
  now destruct (beta self == of_Z 1).
Qed.

Lemma base_model_exn (self : Model F) (arg : option (pf_sigma F)) (e : exn) :
  base_model self arg = Raise e -> e = ValueError.
Proof.
  unfold base_model. destruct (beta self == of_Z 0); [discriminate |].
  destruct (beta self == of_Z 1); [discriminate |]. now intros [= <-].
Qed.
End BaseModel.

Lemma base_model_selection_witness :
  feqb (beta b64_model) (of_Z 1) = true
  /\ base_model b64_model (Some (PerPath [0.2%float]))
     = Ok {| pf_k := Bsm; pf_vol := PerPath [0.2%float]; pf_intr := intr b64_model |}.
Proof.
  assert (Hb : feqb (beta b64_model) (of_Z 1) = true) by (vm_compute; reflexivity).
  split; [exact Hb |].
  exact (proj1 (proj2 (base_model_selection b64_model (PerPath [0.2%float]))) Hb).
Defined.

(** ** The division by vov *)

Section VovZero.
Context {F : Type} `{Arith F}.
Local Open Scope num_scope.
Variable np_exp : F -> F.
Variable pf_price : pf_kind -> F -> F -> F -> F -> F -> Z -> F.
Variable draws : nat -> F.

Lemma standard_normal_ok (n : Z) (s : nat) :
  (0 <= n)%Z ->
  standard_normal draws n s = Ok (map draws (seq s (Z.to_nat n)), (s + Z.to_nat n)%nat).
Proof.
  intros Hn. unfold standard_normal.
  now replace (n <? 0)%Z with false by (symmetry; apply Z.ltb_ge; lia).
Qed.

Lemma pydiv_zero (x y : F) : (y == of_Z 0) = true -> pydiv x y = Raise ZeroDivisionError.
Proof. unfold pydiv. now intros ->. Qed.

Lemma pydiv_nonzero (x y : F) : (y == of_Z 0) = false -> pydiv x y = Ok (x / y).
Proof. unfold pydiv. now intros ->. Qed.

(** What every [price] does first: the path, its last row, its integrated
    variance. *)
Lemma price_prefix (self : Model F) (texp : F) (s s1 : nat) (rows : list (list F)) :
  sigma_path np_exp draws self texp s = Ok (rows, s1) ->
  exists sigma_T I_T,
    index_last rows = Ok sigma_T /\ intvar_normalized rows = Ok I_T
    /\ (0 <= n_path self)%Z.
Proof.
  intros Hrun. destruct (sigma_path_Ok_inv _ _ _ _ _ _ _ Hrun) as [Hne Hp].
  destruct rows as [| r rs]; [congruence |].
  destruct (index_last_cons_ok r rs) as [sT HsT].
  exists sT. eexists.
  split; [exact HsT | split; [apply intvar_normalized_unfold | exact Hp]].
Qed.

(** C8 (as amended): with vov = 0, the prices of ModelBsmMC, ModelNormMC and
    ModelBsmCondMC divide by zero as soon as the volatility path is there:
    they raise ZeroDivisionError, or the error of [sigma_path] if that
    raised first. *)
Theorem price_vov_zero (sim : simulator) (self : Model F) (strike : list F)
        (spot texp : F) (cp : Z) (s : nat) :
  (vov self == of_Z 0) = true ->
  sim <> NormCondMC ->
  price np_exp pf_price draws sim self strike spot texp cp s
  = match sigma_path np_exp draws self texp s with
    | Ok _ => Raise ZeroDivisionError
    | Raise e => Raise e
    end.
Proof.
  intros Hv Hsim.
  destruct (sigma_path np_exp draws self texp s) as [[rows s1] | e] eqn:Hrun.
  - destruct (price_prefix _ _ _ _ _ Hrun) as (sT & I_T & HsT & HI & Hp).
    destruct sim; try congruence; cbn [price];
      unfold ModelBsmMC_price, ModelNormMC_price, ModelBsmCondMC_price, bind, lift;
      rewrite Hrun, HsT, HI, ?(standard_normal_ok _ _ Hp), (pydiv_zero _ _ Hv);
      reflexivity.
  - destruct sim; try congruence; cbn [price];
      unfold ModelBsmMC_price, ModelNormMC_price, ModelBsmCondMC_price, bind;
      now rewrite Hrun.
Qed.

(** The normal conditional simulator never divides by vov: after the path
    it can only fail in [base_model]. *)
Lemma ModelNormCondMC_price_no_division (self : Model F) (strike : list F)
      (spot texp : F) (cp : Z) (s : nat) :
  match sigma_path np_exp draws self texp s with
  | Ok _ => ModelNormCondMC_price np_exp pf_price draws self strike spot texp cp s
            <> Raise ZeroDivisionError
  | Raise e => ModelNormCondMC_price np_exp pf_price draws self strike spot texp cp s
               = Raise e
  end.
Proof.
  destruct (sigma_path np_exp draws self texp s) as [[rows s1] | e] eqn:Hrun.
  - destruct (price_prefix _ _ _ _ _ Hrun) as (sT & I_T & HsT & HI & Hp).
    unfold ModelNormCondMC_price, bind, lift.
    rewrite Hrun, HsT, HI, (standard_normal_ok _ _ Hp).
    unfold base_model. destruct (beta self == of_Z 0); [discriminate |].
    destruct (beta self == of_Z 1); discriminate.
  - unfold ModelNormCondMC_price, bind. now rewrite Hrun.
Qed.

(** [vol_smile] starts with [price], so it stops at the same division. *)
Lemma vol_smile_divides_by_vov
      (pf_impvol : pf_kind -> F -> F -> F -> F -> F -> Z -> F)
      (sim : simulator) (self : Model F) (strike : list F) (spot texp : F) (s : nat) :
  (vov self == of_Z 0) = true ->
  sim <> NormCondMC ->
  vol_smile np_exp pf_price pf_impvol draws sim self strike spot texp s
  = match sigma_path np_exp draws self texp s with
    | Ok _ => Raise ZeroDivisionError
    | Raise e => Raise e
    end.
Proof.
  intros Hv Hsim. unfold vol_smile. unfold bind at 1.
  destruct (sigma_path np_exp draws self texp s) as [[rows s1] | e] eqn:Hrun.
  - destruct (price_prefix _ _ _ _ _ Hrun) as (sT & I_T & HsT & HI & Hp).
    destruct sim; try congruence; cbn [price];
      unfold ModelBsmMC_price, ModelNormMC_price, ModelBsmCondMC_price, bind, lift;
      rewrite Hrun, HsT, HI, ?(standard_normal_ok _ _ Hp), (pydiv_zero _ _ Hv);
      reflexivity.
  - destruct sim; try congruence; cbn [price];
      unfold ModelBsmMC_price, ModelNormMC_price, ModelBsmCondMC_price, bind;
      now rewrite Hrun.
Qed.
End VovZero.

(** The normal conditional simulator does not divide by vov: on a model with
    [vov = 0] it returns prices.  (With [vov = 0] every argument of the
    exponential is 0, where it is 1; the prices and the draws play no part.) *)
Lemma vov_zero_claim_fails : ~ vov_zero_claim (F := float).
Proof.
  intros Hc.
  specialize (Hc NormCondMC (fun _ => 1%float) (fun _ _ _ _ _ _ _ => 0%float)
                 (fun _ => 0%float)
                 b64_small_flat_model [100%float] 100%float 1%float 1%Z 0%nat eq_refl).
  vm_compute in Hc. discriminate.
Qed.

Lemma price_vov_zero_witness :
  feqb (vov b64_small_flat_model) (of_Z 0) = true
  /\ forall (np_exp : float -> float) pf_price (draws : nat -> float) (s : nat),
      price np_exp pf_price draws BsmMC b64_small_flat_model [100%float] 100%float 1%float 1 s
      = Raise ZeroDivisionError.
Proof.
  assert (Hv : feqb (vov b64_small_flat_model) (of_Z 0) = true) by (vm_compute; reflexivity).
  split; [exact Hv |].
  intros np_exp pf_price draws s.
  rewrite (price_vov_zero np_exp pf_price draws BsmMC b64_small_flat_model
             [100%float] 100%float 1%float 1 s Hv ltac:(discriminate)).
  assert (Ht : fltb (of_Z 0) 1%float = true) by (vm_compute; reflexivity).
  assert (Hd : fltb (of_Z 0) (dt b64_small_flat_model) = true) by (vm_compute; reflexivity).
  assert (Hc : int_ceil (fdiv 1%float (dt b64_small_flat_model)) = Ok 2%Z)
    by (vm_compute; reflexivity).
  destruct (sigma_path_runs np_exp draws b64_small_flat_model 1%float 2 s
              Ht Hd ltac:(discriminate) Hc ltac:(discriminate)) as (N & _ & _ & ->).
  reflexivity.
Defined.

(** *** vol_smile on the default model *)

(** C7: on the default model (vov = 0, rho = 0) [vol_smile] does not recover
    sigma: the price it starts with divides by vov and raises
    ZeroDivisionError. *)
Theorem vol_smile_flat_raises
        (np_exp : float -> float) pf_price pf_impvol (draws : nat -> float) (s : nat) :
  vol_smile np_exp pf_price pf_impvol draws BsmMC b64_flat_model
            [100%float] 100%float 1%float s
  = Raise ZeroDivisionError.
Proof.
  assert (Hv : feqb (vov b64_flat_model) (of_Z 0) = true) by (vm_compute; reflexivity).
  rewrite (vol_smile_divides_by_vov np_exp pf_price draws pf_impvol BsmMC b64_flat_model
             [100%float] 100%float 1%float s Hv ltac:(discriminate)).
  assert (Ht : fltb (of_Z 0) 1%float = true) by (vm_compute; reflexivity).
  assert (Hd : fltb (of_Z 0) (dt b64_flat_model) = true) by (vm_compute; reflexivity).
  assert (Hc : int_ceil (fdiv 1%float (dt b64_flat_model)) = Ok 10%Z)
    by (vm_compute; reflexivity).
  destruct (sigma_path_runs np_exp draws b64_flat_model 1%float 10 s
              Ht Hd ltac:(discriminate) Hc ltac:(discriminate)) as (N & _ & _ & ->).
  reflexivity.
Qed.

(* ================================================================== *)
(** ** The four price routines against the specification's formulas *)

Section PriceFormulas.
Context {F : Type} `{Arith F}.
Local Open Scope num_scope.
Variable np_exp : F -> F.
Variable pf_price : pf_kind -> F -> F -> F -> F -> F -> Z -> F.
Variable draws : nat -> F.

(** The array expression of lines 122-126 is the per-path terminal spot. *)
Lemma bsm_spot_paths (self : Model F) (spot texp : F) (sigma_T I_T Z : list F) :
  map2 (fun s e => s * spot * e)
       (map (fun s => np_exp (rho self * sigma self * s))
            (map2 (fun sT I => of_Z 1 / vov self * (sT - of_Z 1)
                               - half * sigma self * rho self * texp * I)
                  sigma_T I_T))
       (map2 (fun v z => np_exp (v * (z - v / of_Z 2)))
             (map (fun v => v * fsqrt texp)
                  (map (fun I => sigma self * fsqrt ((of_Z 1 - sq (rho self)) * I)) I_T))
             Z)
  = map (bsm_terminal_spot np_exp self spot texp) (combine (combine sigma_T I_T) Z).
Proof.
  revert I_T Z; induction sigma_T as [| sT sigma_T IH]; intros [| I I_T] [| z Z];
    try reflexivity.
  cbn [map map2 combine]. f_equal. apply IH.
Qed.

(** Lines 183-195: the per-path closed-form prices at the equivalent spot
    and volatility. *)
Lemma bsm_cond_paths (k : pf_kind) (self : Model F) (K spot texp : F) (cp : Z)
      (sigma_T I_T Z : list F) :
  map2 (fun sig S => pf_price k sig (intr self) K S texp cp)
       (map (fun I => sigma self * fsqrt ((of_Z 1 - sq (rho self)) * I)) I_T)
       (map2 (fun c e => c * e)
             (map (fun s => s * spot / np_exp (fneg (intr self) * texp))
                  (map (fun s => np_exp (rho self * sigma self * s))
                       (map2 (fun sT I => of_Z 1 / vov self * (sT - of_Z 1)
                                          - half * sigma self * rho self * texp * I)
                             sigma_T I_T)))
             (map2 (fun v z => np_exp (v * (z - v / of_Z 2)))
                   (map (fun v => v * fsqrt texp)
                        (map (fun I => sigma self * fsqrt ((of_Z 1 - sq (rho self)) * I))
                             I_T))
                   Z))
  = map (fun p => pf_price k (equiv_vol self (snd (fst p))) (intr self) K
                           (bsm_equiv_spot np_exp self spot texp p) texp cp)
        (combine (combine sigma_T I_T) Z).
Proof.
  revert I_T Z; induction sigma_T as [| sT sigma_T IH]; intros [| I I_T] [| z Z];
    try reflexivity.
  cbn [map map2 combine]. f_equal. apply IH.
Qed.

(** Lines 209-215. *)
Lemma norm_cond_paths (k : pf_kind) (self : Model F) (K spot texp : F) (cp : Z)
      (sigma_T I_T Z : list F) :
  map2 (fun sig S => pf_price k sig (intr self) K S texp cp)
       (map (fun I => sigma self * fsqrt ((of_Z 1 - sq (rho self)) * I)) I_T)
       (map2 (fun a b => a + b)
             (map2 (fun sT I => spot + sT * fsqrt I) sigma_T I_T)
             (map2 (fun sT z => sT * fsqrt texp * z) sigma_T Z))
  = map (fun p => pf_price k (equiv_vol self (snd (fst p))) (intr self) K
                           (norm_cond_spot spot texp p) texp cp)
        (combine (combine sigma_T I_T) Z).
Proof.
  revert I_T Z; induction sigma_T as [| sT sigma_T IH]; intros [| I I_T] [| z Z];
    try reflexivity.
  cbn [map map2 combine]. f_equal. apply IH.
Qed.

(** The normal conditional simulator with the closed-form model chosen by
    beta. *)
Lemma ModelNormCondMC_price_kind (self : Model F) (strike : list F) (spot texp : F)
      (cp : Z) (s : nat) :
  ModelNormCondMC_price np_exp pf_price draws self strike spot texp cp s
  = (vol_path <- sigma_path np_exp draws self texp ;;
     sigma_T <- lift (index_last vol_path) ;;
     I_T <- lift (intvar_normalized vol_path) ;;
     Z <- standard_normal draws (n_path self) ;;
     k <- lift (select_kind self) ;;
     ret (spec_conditional pf_price k self strike texp cp
                           (norm_cond_spot spot texp) sigma_T I_T Z)) s.
Proof.
  unfold ModelNormCondMC_price, bind, lift.
  destruct (sigma_path np_exp draws self texp s) as [[rows s1] |]; [| reflexivity].
  destruct (index_last rows) as [sT |]; [| reflexivity].
  destruct (intvar_normalized rows) as [I_T |]; [| reflexivity].
  destruct (standard_normal draws (n_path self) s1) as [[Z s2] |]; [| reflexivity].
  unfold base_model, select_kind.
  destruct (beta self == of_Z 0);
    [| destruct (beta self == of_Z 1); [| reflexivity]];
    unfold ret, spec_conditional, model_price, pf_vol_paths; cbn [pf_k pf_vol pf_intr];
    do 2 f_equal; rewrite map_map; apply map_ext; intros K; f_equal;
    apply norm_cond_paths.
Qed.

(** The log-normal conditional simulator, once it has divided by vov, with
    the closed-form model chosen by beta: the normal one for beta = 0, the
    log-normal one for beta = 1, ValueError for any other. *)
Lemma ModelBsmCondMC_price_kind (self : Model F) (strike : list F) (spot texp : F)
      (cp : Z) (s : nat) :
  (vov self == of_Z 0) = false ->
  ModelBsmCondMC_price np_exp pf_price draws self strike spot texp cp s
  = (vol_path <- sigma_path np_exp draws self texp ;;
     sigma_T <- lift (index_last vol_path) ;;
     I_T <- lift (intvar_normalized vol_path) ;;
     Z <- standard_normal draws (n_path self) ;;
     k <- lift (select_kind self) ;;
     ret (spec_conditional pf_price k self strike texp cp
                           (bsm_equiv_spot np_exp self spot texp) sigma_T I_T Z)) s.
Proof.
  intros Hv. unfold ModelBsmCondMC_price, bind, lift, pydiv. rewrite Hv.
  destruct (sigma_path np_exp draws self texp s) as [[rows s1] |]; [| reflexivity].
  destruct (index_last rows) as [sT |]; [| reflexivity].
  destruct (intvar_normalized rows) as [I_T |]; [| reflexivity].
  destruct (standard_normal draws (n_path self) s1) as [[Z s2] |]; [| reflexivity].
  unfold base_model, select_kind.
  destruct (beta self == of_Z 0);
    [| destruct (beta self == of_Z 1); [| reflexivity]];
    unfold ret, spec_conditional, model_price, pf_vol_paths; cbn [pf_k pf_vol pf_intr];
    do 2 f_equal; rewrite map_map; apply map_ext; intros K; f_equal;
    apply bsm_cond_paths.
Qed.
End PriceFormulas.

Section PriceTheorems.
Context {F : Type} `{ArithLaws F}.
Local Open Scope num_scope.
Variable np_exp : F -> F.
Variable pf_price : pf_kind -> F -> F -> F -> F -> F -> Z -> F.
Variable draws : nat -> F.

(** C2: with vov > 0, the price of the log-normal direct simulator is, for
    every realization of the draws, the specification's formula applied to
    the last row and the integrated variance of the volatility path and to
    one further normal draw per path. *)
Theorem ModelBsmMC_price_spec (self : Model F) (strike : list F) (spot texp : F)
        (cp : Z) (s : nat) :
  fltb (of_Z 0) (vov self) = true ->
  ModelBsmMC_price np_exp draws self strike spot texp cp s
  = (vol_path <- sigma_path np_exp draws self texp ;;
     sigma_T <- lift (index_last vol_path) ;;
     I_T <- lift (intvar_normalized vol_path) ;;
     Z <- standard_normal draws (n_path self) ;;
     ret (spec_bsm_direct np_exp self strike spot texp cp sigma_T I_T Z)) s.
Proof.
  intros Hv. unfold ModelBsmMC_price, bind, lift, pydiv. rewrite (pos_nonzero _ Hv).
  destruct (sigma_path np_exp draws self texp s) as [[rows s1] |]; [| reflexivity].
  destruct (index_last rows) as [sT |]; [| reflexivity].
  destruct (intvar_normalized rows) as [I_T |]; [| reflexivity].
  destruct (standard_normal draws (n_path self) s1) as [[Z s2] |]; [| reflexivity].
  unfold ret, spec_bsm_direct, discounted_payoff, discount, payoff_mean.
  now rewrite bsm_spot_paths.
Qed.

(** C3 (as amended): with vov > 0 and beta = 1, the price of the log-normal
    conditional simulator is the closed-form log-normal price at the
    equivalent spot and equivalent volatility of each path, averaged over
    the paths, for every strike. *)
Theorem ModelBsmCondMC_price_spec (self : Model F) (strike : list F) (spot texp : F)
        (cp : Z) (s : nat) :
  fltb (of_Z 0) (vov self) = true ->
  (beta self == of_Z 1) = true ->
  ModelBsmCondMC_price np_exp pf_price draws self strike spot texp cp s
  = (vol_path <- sigma_path np_exp draws self texp ;;
     sigma_T <- lift (index_last vol_path) ;;
     I_T <- lift (intvar_normalized vol_path) ;;
     Z <- standard_normal draws (n_path self) ;;
     ret (spec_conditional pf_price Bsm self strike texp cp
                           (bsm_equiv_spot np_exp self spot texp) sigma_T I_T Z)) s.
Proof.
  intros Hv Hb. unfold ModelBsmCondMC_price, bind, lift, pydiv. rewrite (pos_nonzero _ Hv).
  destruct (sigma_path np_exp draws self texp s) as [[rows s1] |]; [| reflexivity].
  destruct (index_last rows) as [sT |]; [| reflexivity].
  destruct (intvar_normalized rows) as [I_T |]; [| reflexivity].
  destruct (standard_normal draws (n_path self) s1) as [[Z s2] |]; [| reflexivity].
  unfold base_model. rewrite (one_nonzero _ Hb), Hb.
  unfold ret, spec_conditional, model_price, pf_vol_paths. cbn [pf_k pf_vol pf_intr].
  do 2 f_equal. rewrite map_map. apply map_ext. intros K. f_equal.
  apply bsm_cond_paths.
Qed.

(** C4 (as amended): with beta = 0, the price of the normal conditional
    simulator is the closed-form normal price at the equivalent volatility
    and at the terminal spot [spot + sigma_T sqrt(I_T) + sigma_T sqrt(texp) Z]
    of each path, averaged over the paths. *)
Theorem ModelNormCondMC_price_spec (self : Model F) (strike : list F) (spot texp : F)
        (cp : Z) (s : nat) :
  (beta self == of_Z 0) = true ->
  ModelNormCondMC_price np_exp pf_price draws self strike spot texp cp s
  = (vol_path <- sigma_path np_exp draws self texp ;;
     sigma_T <- lift (index_last vol_path) ;;
     I_T <- lift (intvar_normalized vol_path) ;;
     Z <- standard_normal draws (n_path self) ;;
     ret (spec_conditional pf_price Norm self strike texp cp
                           (norm_cond_spot spot texp) sigma_T I_T Z)) s.
Proof.
  intros Hb. rewrite ModelNormCondMC_price_kind. unfold bind, lift, select_kind.
  rewrite Hb.
  destruct (sigma_path np_exp draws self texp s) as [[rows s1] |]; [| reflexivity].
  destruct (index_last rows) as [sT |]; [| reflexivity].
  destruct (intvar_normalized rows) as [I_T |]; [| reflexivity].
  now destruct (standard_normal draws (n_path self) s1) as [[Z s2] |].
Qed.
End PriceTheorems.

(** With vov > 0 and a beta that is neither 0 nor 1 the log-normal
    conditional simulator returns no price: [base_model] raises ValueError
    once the path is generated, whatever the exponential, the closed-form
    price and the draws are.  (With beta = 0 it returns the average of the
    closed-form normal price: lemma [ModelBsmCondMC_price_kind].) *)
Lemma bsm_cond_claim_fails : ~ bsm_cond_claim (F := float).
Proof.
  intros Hc.
  specialize (Hc (fun x => x) pf_price_tag (fun _ => 0%float)
                 b64_cev_model [100%float] 100%float 1%float 1%Z 0%nat eq_refl).
  vm_compute in Hc. discriminate.
Qed.

(** With [beta = 1], the constructor's default, the normal conditional
    simulator prices with the log-normal model: a closed-form price that
    tells the two models apart shows it, whatever the exponential and the
    draws are. *)
Lemma norm_cond_claim_fails : ~ norm_cond_claim (F := float).
Proof.
  intros Hc.
  specialize (Hc (fun x => x) pf_price_tag (fun _ => 0%float)
                 b64_small_model [100%float] 100%float 1%float 1%Z 0%nat).
  vm_compute in Hc.
  apply (f_equal (fun r => match r with
                           | Ok (x :: _, _) => PrimFloat.eqb x 1
                           | _ => false
                           end)) in Hc.
  vm_compute in Hc. discriminate.
Qed.

(** What the first three steps of every [price] give on a binary64 model
    whose grid has [n] steps. *)
Lemma b64_price_prefix (np_exp : float -> float) (draws : nat -> float)
      (self : Model float) (texp : float) (n : Z) (s : nat) :
  fltb (of_Z 0) texp = true -> fltb (of_Z 0) (dt self) = true ->
  (0 < n_path self)%Z ->
  int_ceil (fdiv texp (dt self)) = Ok n -> (1 <= n)%Z ->
  exists rows sigma_T I_T,
    sigma_path np_exp draws self texp s
    = Ok (rows, (s + Z.to_nat n * Z.to_nat (n_path self))%nat)
    /\ index_last rows = Ok sigma_T
    /\ intvar_normalized rows = Ok I_T.
Proof.
  intros Ht Hd Hp Hc Hn.
  destruct (sigma_path_runs np_exp draws self texp n s Ht Hd ltac:(lia) Hc Hn)
    as (N & _ & _ & Hrun).
  destruct (price_prefix np_exp draws self texp s _ _ Hrun) as (sT & I_T & HsT & HI & _).
  eexists _, sT, I_T. split; [exact Hrun | split; assumption].
Qed.

Lemma ModelBsmMC_price_spec_witness :
  fltb (of_Z 0) (vov b64_model) = true
  /\ forall (np_exp : float -> float) (draws : nat -> float) (s : nat),
      exists rows sigma_T I_T,
        sigma_path np_exp draws b64_model 1%float s = Ok (rows, (s + 100000)%nat)
        /\ index_last rows = Ok sigma_T
        /\ intvar_normalized rows = Ok I_T
        /\ ModelBsmMC_price np_exp draws b64_model [90; 100; 110]%float 100%float 1%float 1 s
           = Ok (spec_bsm_direct np_exp b64_model [90; 100; 110]%float 100%float 1%float 1
                                 sigma_T I_T (map draws (seq (s + 100000) 10000)),
                 (s + 100000 + 10000)%nat).
Proof.
  assert (Hv : fltb (of_Z 0) (vov b64_model) = true) by (vm_compute; reflexivity).
  split; [exact Hv |].
  intros np_exp draws s.
  assert (Ht : fltb (of_Z 0) 1%float = true) by (vm_compute; reflexivity).
  assert (Hd : fltb (of_Z 0) (dt b64_model) = true) by (vm_compute; reflexivity).
  assert (Hc : int_ceil (fdiv 1%float (dt b64_model)) = Ok 10%Z) by (vm_compute; reflexivity).
  destruct (b64_price_prefix np_exp draws b64_model 1%float 10 s Ht Hd eq_refl Hc
              ltac:(discriminate)) as (rows & sT & I_T & Hrun & HsT & HI).
  exists rows, sT, I_T. repeat apply conj; try assumption.
  rewrite (ModelBsmMC_price_spec np_exp draws b64_model _ _ _ _ s Hv).
  unfold bind, lift, ret. now rewrite Hrun, HsT, HI.
Defined.

Lemma ModelBsmCondMC_price_spec_witness :
  fltb (of_Z 0) (vov b64_model) = true
  /\ feqb (beta b64_model) (of_Z 1) = true
  /\ forall (np_exp : float -> float) pf_price (draws : nat -> float) (s : nat),
      exists rows sigma_T I_T,
        sigma_path np_exp draws b64_model 1%float s = Ok (rows, (s + 100000)%nat)
        /\ index_last rows = Ok sigma_T
        /\ intvar_normalized rows = Ok I_T
        /\ ModelBsmCondMC_price np_exp pf_price draws b64_model [90; 100; 110]%float
                                100%float 1%float 1 s
           = Ok (spec_conditional pf_price Bsm b64_model [90; 100; 110]%float 1%float 1
                                  (bsm_equiv_spot np_exp b64_model 100%float 1%float)
                                  sigma_T I_T (map draws (seq (s + 100000) 10000)),
                 (s + 100000 + 10000)%nat).
Proof.
  assert (Hv : fltb (of_Z 0) (vov b64_model) = true) by (vm_compute; reflexivity).
  assert (Hb : feqb (beta b64_model) (of_Z 1) = true) by (vm_compute; reflexivity).
  split; [exact Hv |]. split; [exact Hb |].
  intros np_exp pf_price draws s.
  assert (Ht : fltb (of_Z 0) 1%float = true) by (vm_compute; reflexivity).
  assert (Hd : fltb (of_Z 0) (dt b64_model) = true) by (vm_compute; reflexivity).
  assert (Hc : int_ceil (fdiv 1%float (dt b64_model)) = Ok 10%Z) by (vm_compute; reflexivity).
  destruct (b64_price_prefix np_exp draws b64_model 1%float 10 s Ht Hd eq_refl Hc
              ltac:(discriminate)) as (rows & sT & I_T & Hrun & HsT & HI).
  exists rows, sT, I_T. repeat apply conj; try assumption.
  rewrite (ModelBsmCondMC_price_spec np_exp pf_price draws b64_model _ _ _ _ s Hv Hb).
  unfold bind, lift, ret. now rewrite Hrun, HsT, HI.
Defined.

Lemma ModelNormCondMC_price_spec_witness :
  feqb (beta b64_norm_model) (of_Z 0) = true
  /\ forall (np_exp : float -> float) pf_price (draws : nat -> float) (s : nat),
      exists rows sigma_T I_T,
        sigma_path np_exp draws b64_norm_model 1%float s = Ok (rows, (s + 4)%nat)
        /\ index_last rows = Ok sigma_T
        /\ intvar_normalized rows = Ok I_T
        /\ ModelNormCondMC_price np_exp pf_price draws b64_norm_model [90; 100; 110]%float
                                 100%float 1%float 1 s
           = Ok (spec_conditional pf_price Norm b64_norm_model [90; 100; 110]%float
                                  1%float 1 (norm_cond_spot 100%float 1%float)
                                  sigma_T I_T (map draws (seq (s + 4) 2)),
                 (s + 4 + 2)%nat).
Proof.
  assert (Hb : feqb (beta b64_norm_model) (of_Z 0) = true) by (vm_compute; reflexivity).
  split; [exact Hb |].
  intros np_exp pf_price draws s.
  assert (Ht : fltb (of_Z 0) 1%float = true) by (vm_compute; reflexivity).
  assert (Hd : fltb (of_Z 0) (dt b64_norm_model) = true) by (vm_compute; reflexivity).
  assert (Hc : int_ceil (fdiv 1%float (dt b64_norm_model)) = Ok 2%Z)
    by (vm_compute; reflexivity).
  destruct (b64_price_prefix np_exp draws b64_norm_model 1%float 2 s Ht Hd eq_refl Hc
              ltac:(discriminate)) as (rows & sT & I_T & Hrun & HsT & HI).
  exists rows, sT, I_T. repeat apply conj; try assumption.
  rewrite (ModelNormCondMC_price_spec np_exp pf_price draws b64_norm_model _ _ _ _ s Hb).
  unfold bind, lift, ret. now rewrite Hrun, HsT, HI.
Defined.

(* ================================================================== *)
(** ** Monotonicity in the strike, in exact arithmetic *)

Section StrikeMonotone.
Local Open Scope R_scope.
Variable pf_price : pf_kind -> R -> R -> R -> R -> R -> Z -> R.
Variable draws : nat -> R.

Lemma vsum_R_le (l l' : list R) : Forall2 Rle l l' -> vsum l <= vsum l'.
Proof.
  induction 1 as [| x y l l' Hxy _ IH]; [lra |]. rewrite !vsum_R_cons. lra.
Qed.

Lemma mean_R_le (l l' : list R) : Forall2 Rle l l' -> mean l <= mean l'.
Proof.
  intros Hl. unfold mean. rewrite <- (Forall2_length Hl).
  pose proof (vsum_R_le _ _ Hl) as Hs.
  destruct l as [| x l].
  - inversion Hl; subst. lra.
  - cbn [fdiv R_arith of_Z]. unfold Rdiv. apply Rmult_le_compat_r; [| exact Hs].
    left. apply Rinv_0_lt_compat, IZR_lt. cbn [length]. lia.
Qed.

Lemma Forall2_map_same {A} (f g : A -> R) (l : list A) :
  (forall a, f a <= g a) -> Forall2 Rle (map f l) (map g l).
Proof. intros Hfg. induction l; cbn; constructor; auto. Qed.

Lemma Forall2_map2_same {A B} (f g : A -> B -> R) (a : list A) (b : list B) :
  (forall x y, f x y <= g x y) -> Forall2 Rle (map2 f a b) (map2 g a b).
Proof.
  intros Hfg. revert b; induction a as [| x a IH]; intros [| y b]; cbn; constructor; auto.
Qed.

Lemma call_payoff_antitone (S K1 K2 : R) :
  K1 <= K2 -> Rmax (1 * (S - K2)) 0 <= Rmax (1 * (S - K1)) 0.
Proof. intros HK. apply Rmax_case; [apply Rle_trans with (1 * (S - K1)); [lra | apply Rmax_l] | apply Rmax_r]. Qed.

Lemma put_payoff_monotone (S K1 K2 : R) :
  K1 <= K2 -> Rmax (-1 * (S - K1)) 0 <= Rmax (-1 * (S - K2)) 0.
Proof. intros HK. apply Rmax_case; [apply Rle_trans with (-1 * (S - K2)); [lra | apply Rmax_l] | apply Rmax_r]. Qed.

Lemma payoff_mean_monotone (df : R) (S_t : list R) (K1 K2 : R) :
  0 <= df -> K1 <= K2 ->
  df * mean (map (fun S => fmax (of_Z 1 * (S - K2))%num (of_Z 0)) S_t)
  <= df * mean (map (fun S => fmax (of_Z 1 * (S - K1))%num (of_Z 0)) S_t)
  /\ df * mean (map (fun S => fmax (of_Z (-1) * (S - K1))%num (of_Z 0)) S_t)
     <= df * mean (map (fun S => fmax (of_Z (-1) * (S - K2))%num (of_Z 0)) S_t).
Proof.
  intros Hdf HK. split; apply Rmult_le_compat_l; try assumption;
    apply mean_R_le, Forall2_map_same; intros S; cbn.
  - now apply call_payoff_antitone.
  - now apply put_payoff_monotone.
Qed.

(** What the simulators return, as a function of the strikes: the direct
    ones a discounted mean payoff, the conditional ones a mean closed-form
    price. *)
Lemma price_strike_form (sim : simulator) (self : Model R) (strike : list R)
      (spot texp : R) (cp : Z) (s s' : nat) (p : list R) :
  price exp pf_price draws sim self strike spot texp cp s = Ok (p, s') ->
  ((sim = BsmMC \/ sim = NormMC)
   /\ exists S_t,
       p = map (fun K => exp (- intr self * texp)
                         * mean (map (fun S => fmax (of_Z cp * (S - K))%num (of_Z 0)) S_t))
               strike)
  \/ ((sim = BsmCondMC \/ sim = NormCondMC)
      /\ exists k r vol spots,
          p = map (fun K => mean (map2 (fun sig S => pf_price k sig r K S texp cp)
                                       vol spots))
                  strike).
Proof.
  destruct sim; cbn [price];
    unfold ModelBsmMC_price, ModelNormMC_price, ModelBsmCondMC_price,
           ModelNormCondMC_price, bind, lift, ret;
    destruct (sigma_path exp draws self texp s) as [[rows s1] |]; try discriminate;
    destruct (index_last rows) as [sT |]; try discriminate;
    destruct (intvar_normalized rows) as [I_T |]; try discriminate.
  - destruct (standard_normal draws (n_path self) s1) as [[Z s2] |]; try discriminate.
    destruct (pydiv (of_Z 1) (vov self)); try discriminate.
    intros [= <- _]. left. split; [now left |]. eexists. reflexivity.
  - destruct (standard_normal draws (n_path self) s1) as [[Z0 s2] |]; try discriminate.
    destruct (pydiv (rho self) (vov self)); try discriminate.
    destruct (standard_normal draws (Z.of_nat (length sT)) s2) as [[Z s3] |];
      try discriminate.
    intros [= <- _]. left. split; [now right |]. eexists. reflexivity.
  - destruct (pydiv (of_Z 1) (vov self)); try discriminate.
    destruct (standard_normal draws (n_path self) s1) as [[Z s2] |]; try discriminate.
    destruct (base_model self _) as [m |]; try discriminate.
    intros [= <- _]. right. split; [now left |]. unfold model_price. rewrite map_map.
    eexists _, _, _, _. reflexivity.
  - destruct (standard_normal draws (n_path self) s1) as [[Z s2] |]; try discriminate.
    destruct (base_model self _) as [m |]; try discriminate.
    intros [= <- _]. right. split; [now right |]. unfold model_price. rewrite map_map.
    eexists _, _, _, _. reflexivity.
Qed.

(** C9: in exact arithmetic, for a fixed model and fixed draws, the prices
    returned for two strikes Ki <= Kj are ordered: the call price (cp = 1)
    at Kj is at most the one at Ki, the put price (cp = -1) at least.  The
    two direct simulators need nothing more; the two conditional ones
    inherit the order from pyfeng's closed-form price. *)
Theorem price_monotone_in_strike (sim : simulator) (self : Model R) (strike : list R)
        (spot texp : R) (cp : Z) (s s' : nat) (p : list R) :
  (sim = BsmCondMC \/ sim = NormCondMC -> strike_monotone pf_price) ->
  price exp pf_price draws sim self strike spot texp cp s = Ok (p, s') ->
  length p = length strike
  /\ forall (i j : nat) (Ki Kj pi pj : R),
      nth_error strike i = Some Ki -> nth_error strike j = Some Kj ->
      nth_error p i = Some pi -> nth_error p j = Some pj ->
      Ki <= Kj ->
      (cp = 1%Z -> pj <= pi) /\ (cp = (-1)%Z -> pi <= pj).
Proof.
  intros Hmono Hrun.
  destruct (price_strike_form _ _ _ _ _ _ _ _ _ Hrun)
    as [[_ [S_t ->]] | [Hsim (k & r & vol & spots & ->)]];
    (split; [apply length_map |]);
    intros i j Ki Kj pi pj Hi Hj Hpi Hpj HK;
    rewrite nth_error_map in Hpi, Hpj; rewrite Hi in Hpi; rewrite Hj in Hpj;
    cbn in Hpi, Hpj; injection Hpi as <-; injection Hpj as <-.
  - assert (Hdf : 0 <= exp (- intr self * texp)) by (left; apply exp_pos).
    destruct (payoff_mean_monotone _ S_t _ _ Hdf HK) as [Hcall Hput].
    split; intros ->; assumption.
  - specialize (Hmono Hsim).
    split; intros ->; apply mean_R_le, Forall2_map2_same; intros sig S;
      now apply Hmono.
Qed.
End StrikeMonotone.

Lemma pf_price_intrinsic_monotone : strike_monotone pf_price_intrinsic.
Proof.
  intros k sig r K1 K2 S t HK. unfold pf_price_intrinsic. split.
  - now apply call_payoff_antitone.
  - now apply put_payoff_monotone.
Qed.

(** The log-normal direct simulator returns a price vector once the path is
    generated and vov is positive. *)
Lemma ModelBsmMC_price_returns {F : Type} `{ArithLaws F}
      (np_exp : F -> F) (draws : nat -> F) (self : Model F) (strike : list F)
      (spot texp : F) (cp : Z) (s s1 : nat) (rows : list (list F)) :
  fltb (of_Z 0) (vov self) = true ->
  sigma_path np_exp draws self texp s = Ok (rows, s1) ->
  exists p, ModelBsmMC_price np_exp draws self strike spot texp cp s
            = Ok (p, (s1 + Z.to_nat (n_path self))%nat)
            /\ length p = length strike.
Proof.
  intros Hv Hrun.
  destruct (price_prefix _ _ _ _ _ _ _ Hrun) as (sT & I_T & HsT & HI & Hp).
  unfold ModelBsmMC_price, bind, lift, ret.
  rewrite Hrun, HsT, HI, (standard_normal_ok _ _ _ Hp), (pydiv_nonzero _ _ (pos_nonzero _ Hv)).
  eexists. split; [reflexivity |]. unfold payoff_mean. apply length_map.
Qed.

(** So does the conditional one when beta selects a closed-form model. *)
Lemma ModelBsmCondMC_price_returns {F : Type} `{ArithLaws F}
      (np_exp : F -> F) (pf_price : pf_kind -> F -> F -> F -> F -> F -> Z -> F)
      (draws : nat -> F) (self : Model F) (strike : list F)
      (spot texp : F) (cp : Z) (s s1 : nat) (rows : list (list F)) (k : pf_kind) :
  fltb (of_Z 0) (vov self) = true ->
  select_kind self = Ok k ->
  sigma_path np_exp draws self texp s = Ok (rows, s1) ->
  exists p, ModelBsmCondMC_price np_exp pf_price draws self strike spot texp cp s
            = Ok (p, (s1 + Z.to_nat (n_path self))%nat)
            /\ length p = length strike.
Proof.
  intros Hv Hk Hrun.
  destruct (price_prefix _ _ _ _ _ _ _ Hrun) as (sT & I_T & HsT & HI & Hp).
  unfold ModelBsmCondMC_price, bind, lift, ret.
  rewrite Hrun, HsT, HI, (pydiv_nonzero _ _ (pos_nonzero _ Hv)),
    (standard_normal_ok _ _ _ Hp), base_model_select_kind, Hk.
  eexists. split; [reflexivity |]. unfold model_price. now rewrite !length_map.
Qed.

(** Both log-normal simulators return prices on [R_model] at maturity 1. *)
Lemma R_model_price_returns (pf_price : pf_kind -> R -> R -> R -> R -> R -> Z -> R)
      (draws : nat -> R) (strike : list R) (spot : R) (cp : Z) (s : nat) :
  (exists p s',
      price exp pf_price draws BsmMC R_model strike spot 1%R cp s = Ok (p, s'))
  /\ (exists p s',
         price exp pf_price draws BsmCondMC R_model strike spot 1%R cp s = Ok (p, s')).
Proof.
  destruct (sigma_path_claim_exact draws R_model 1%R s)
    as (n & rows & s1 & _ & Hrun & _).
  - apply R_ltb_true. cbn. lra.
  - apply R_ltb_true. cbn. lra.
  - reflexivity.
  - assert (Hv : fltb (of_Z 0) (vov R_model) = true) by (apply R_ltb_true; cbn; lra).
    split.
    + destruct (ModelBsmMC_price_returns exp draws R_model strike spot 1%R cp s s1 rows)
        as (p & Hp & _); [exact Hv | exact Hrun |].
      now exists p, (s1 + Z.to_nat (n_path R_model))%nat.
    + assert (Hk : select_kind R_model = Ok Bsm).
      { unfold select_kind. cbn.
        replace (R_eqb 1 0) with false by (symmetry; apply R_eqb_false; lra).
        now replace (R_eqb 1 1) with true by (symmetry; now apply R_eqb_true). }
      destruct (ModelBsmCondMC_price_returns exp pf_price draws R_model strike spot 1%R
                  cp s s1 rows Bsm Hv Hk Hrun) as (p & Hp & _).
      now exists p, (s1 + Z.to_nat (n_path R_model))%nat.
Qed.

Lemma price_monotone_in_strike_witness :
  strike_monotone pf_price_intrinsic
  /\ (exists p s',
         price exp pf_price_intrinsic (fun _ => 0%R) BsmMC R_model
               [90; 100; 110]%R 100%R 1%R 1 0 = Ok (p, s')
         /\ length p = 3%nat
         /\ forall pi pj : R,
             nth_error p 0 = Some pi -> nth_error p 2 = Some pj -> (pj <= pi)%R)
  /\ (exists p s',
         price exp pf_price_intrinsic (fun _ => 0%R) BsmCondMC R_model
               [90; 100; 110]%R 100%R 1%R (-1) 0 = Ok (p, s')
         /\ length p = 3%nat
         /\ forall pi pj : R,
             nth_error p 0 = Some pi -> nth_error p 2 = Some pj -> (pi <= pj)%R).
Proof.
  assert (HK : (90 <= 110)%R) by lra.
  split; [exact pf_price_intrinsic_monotone | split].
  - destruct (proj1 (R_model_price_returns pf_price_intrinsic (fun _ => 0%R)
                       [90; 100; 110]%R 100%R 1 0)) as (p & s' & Hrun).
    exists p, s'. split; [exact Hrun |].
    destruct (price_monotone_in_strike pf_price_intrinsic (fun _ => 0%R) BsmMC R_model
                [90; 100; 110]%R 100%R 1%R 1 0 s' p
                (fun _ => pf_price_intrinsic_monotone) Hrun) as [Hlen Hm].
    split; [exact Hlen |].
    intros pi pj Hi Hj.
    exact (proj1 (Hm 0%nat 2%nat 90%R 110%R pi pj eq_refl eq_refl Hi Hj HK) eq_refl).
  - destruct (proj2 (R_model_price_returns pf_price_intrinsic (fun _ => 0%R)
                       [90; 100; 110]%R 100%R (-1) 0)) as (p & s' & Hrun).
    exists p, s'. split; [exact Hrun |].
    destruct (price_monotone_in_strike pf_price_intrinsic (fun _ => 0%R) BsmCondMC R_model
                [90; 100; 110]%R 100%R 1%R (-1) 0 s' p
                (fun _ => pf_price_intrinsic_monotone) Hrun) as [Hlen Hm].
    split; [exact Hlen |].
    intros pi pj Hi Hj.
    exact (proj2 (Hm 0%nat 2%nat 90%R 110%R pi pj eq_refl eq_refl Hi Hj HK) eq_refl).
Defined.

(** On [b64_overflow_model] at maturity 1, with the draws
    [b64_still_draws], every exponential but the discount factor is taken at
    0: the one terminal spot is exactly the spot 100, the call at strike 90
    is worth infinity * 10 and the call at strike 1000 infinity * 0. *)
Lemma b64_overflow_run (np_exp : float -> float) pf_price :
  np_exp 0%float = 1%float -> np_exp 1000%float = infinity ->
  price np_exp pf_price b64_still_draws BsmMC b64_overflow_model
        [90%float; 1000%float] 100%float 1%float 1 0
  = Ok ([infinity; nan], 2%nat).
Proof.
  intros H0 Hinf. cbn [price].
  repeat (vm_compute; rewrite ?H0, ?Hinf).
  reflexivity.
Qed.

(** In binary64 the prices are not monotone in the strike: where the
    discount factor overflows, the call at a strike above every terminal
    spot is infinity * 0 = nan, which is not below the call at a lower
    strike. *)
Lemma price_monotone_claim_fails : ~ price_monotone_claim_b64.
Proof.
  intros (np_exp & H0 & Hinf & Hc).
  pose proof (b64_overflow_run np_exp pf_price_tag H0 Hinf) as Hrun.
  assert (HK : fleb 90%float 1000%float = true) by (vm_compute; reflexivity).
  destruct (Hc pf_price_tag b64_still_draws BsmMC b64_overflow_model
               [90%float; 1000%float] 100%float 1%float 1%Z 0%nat 2%nat
               [infinity; nan] (or_introl eq_refl) Hrun
               0%nat 1%nat 90%float 1000%float infinity nan
               eq_refl eq_refl eq_refl eq_refl HK) as [Hcall _].
  specialize (Hcall eq_refl). vm_compute in Hcall. discriminate.
Qed.

(* ================================================================== *)
(** ** Further properties of the code *)

(** *** What [sigma_path] returns, and how it fails *)

Section SigmaPathInversion.
Context {F : Type} `{Arith F}.
Local Open Scope num_scope.
Variable np_exp : F -> F.
Variable draws : nat -> F.

(** Every successful run of [sigma_path] went through a grid of [n >= 1]
    steps and returns the row of ones on top of [sigma_rows]. *)
Lemma sigma_path_Ok_rows (self : Model F) (texp : F) (s s' : nat) (rows : list (list F)) :
  sigma_path np_exp draws self texp s = Ok (rows, s') ->
  exists (n : Z) (N : list (list F)),
    (dt self == of_Z 0) = false
    /\ int_ceil (texp / dt self) = Ok n
    /\ (1 <= n)%Z /\ (0 <= n_path self)%Z
    /\ standard_normal2 draws n (n_path self) s = Ok (N, s')
    /\ length N = Z.to_nat n
    /\ Forall (fun row => length row = Z.to_nat (n_path self)) N
    /\ s' = (s + Z.to_nat n * Z.to_nat (n_path self))%nat
    /\ rows = repeat (of_Z 1) (Z.to_nat (n_path self)) :: sigma_rows np_exp self texp n N.
Proof.
  unfold sigma_path, bind, lift, ret, pydiv.
  destruct (dt self == of_Z 0) eqn:Hdt; [discriminate |].
  destruct (int_ceil (texp / dt self)) as [n |] eqn:Hc; [| discriminate].
  unfold pydiv_int. destruct (n =? 0)%Z eqn:Hn0; [discriminate |].
  apply Z.eqb_neq in Hn0.
  destruct (index_last (time_grid n texp)) as [t |] eqn:Ht; [| discriminate].
  assert (Hn : (1 <= n)%Z).
  { destruct (Z_le_gt_dec 1 n) as [Hle | Hgt]; [exact Hle |].
    rewrite time_grid_nonpositive in Ht by lia. discriminate. }
  destruct (py_assert (texp == t)) as [u |]; [| discriminate].
  destruct (standard_normal2 draws n (n_path self) s) as [[N s1] |] eqn:HN; [| discriminate].
  assert (Hp : (0 <= n_path self)%Z).
  { unfold standard_normal2 in HN.
    destruct ((n <? 0)%Z || (n_path self <? 0)%Z) eqn:Hneg; [discriminate |].
    apply orb_false_iff in Hneg. destruct Hneg as [_ Hp]. now apply Z.ltb_ge in Hp. }
  destruct (standard_normal2_shape draws n (n_path self) s) as (N' & HN' & Hlen & Hcols);
    [lia | exact Hp |].
  rewrite HN in HN'. injection HN' as <- ->.
  fold (sigma_rows np_exp self texp n N).
  destruct (sigma_rows_shape np_exp self texp n (Z.to_nat (n_path self)) N Hlen Hcols)
    as (Hl & Hcs & _).
  intros [= <- <-]. exists n, N.
  repeat apply conj; try assumption; try reflexivity.
  destruct (sigma_rows np_exp self texp n N) as [| r rs]; [simpl in Hl; lia |].
  inversion Hcs as [| ? ? Hr0 _]; subst. cbn [ncols]. now rewrite Hr0.
Qed.

(** X1: whatever [sigma_path] returns, in any arithmetic, is a matrix of
    n_dt + 1 rows and n_path columns for a step count n_dt >= 1, its first
    row all ones and its other entries values of np.exp; exactly
    n_dt * n_path draws were consumed. *)
Theorem sigma_path_Ok_shape (self : Model F) (texp : F) (s s' : nat) (rows : list (list F)) :
  sigma_path np_exp draws self texp s = Ok (rows, s') ->
  exists n : Z,
    int_ceil (texp / dt self) = Ok n
    /\ (1 <= n)%Z /\ (0 <= n_path self)%Z
    /\ s' = (s + Z.to_nat n * Z.to_nat (n_path self))%nat
    /\ length rows = S (Z.to_nat n)
    /\ Forall (fun row => length row = Z.to_nat (n_path self)) rows
    /\ hd [] rows = repeat (of_Z 1) (Z.to_nat (n_path self))
    /\ Forall (Forall (fun x => exists a, x = np_exp a)) (tl rows).
Proof.
  intros Hrun.
  destruct (sigma_path_Ok_rows _ _ _ _ _ Hrun)
    as (n & N & _ & Hc & Hn & Hp & _ & Hlen & Hcols & Hs & ->).
  destruct (sigma_rows_shape np_exp self texp n _ N Hlen Hcols) as (Hl & Hcs & Hex).
  exists n. cbn [length hd tl].
  repeat apply conj; try assumption; try reflexivity.
  - now rewrite Hl.
  - constructor; [apply repeat_length | exact Hcs].
Qed.

(** How [sigma_path] fails.  A zero [dt] and a step count of
    zero divide by zero, a failed conversion of the step count is passed on,
    a negative step count indexes an empty grid, a negative path count is
    refused by the random generator. *)
Lemma sigma_path_errors (self : Model F) (texp : F) (s : nat) :
  ((dt self == of_Z 0) = true ->
   sigma_path np_exp draws self texp s = Raise ZeroDivisionError)
  /\ ((dt self == of_Z 0) = false ->
      (forall e, int_ceil (texp / dt self) = Raise e ->
                 sigma_path np_exp draws self texp s = Raise e)
      /\ (int_ceil (texp / dt self) = Ok 0%Z ->
          sigma_path np_exp draws self texp s = Raise ZeroDivisionError)
      /\ (forall n, int_ceil (texp / dt self) = Ok n -> (n < 0)%Z ->
                    sigma_path np_exp draws self texp s = Raise IndexError)
      /\ (forall n t, int_ceil (texp / dt self) = Ok n -> (1 <= n)%Z ->
                      index_last (time_grid n texp) = Ok t -> (texp == t) = true ->
                      (n_path self < 0)%Z ->
                      sigma_path np_exp draws self texp s = Raise ValueError)).
Proof.
  unfold sigma_path, bind, lift, pydiv. split.
  - now intros ->.
  - intros ->. repeat apply conj.
    + now intros e ->.
    + now intros ->.
    + intros n -> Hn. unfold pydiv_int.
      replace (n =? 0)%Z with false by (symmetry; apply Z.eqb_neq; lia).
      now rewrite time_grid_nonpositive by lia.
    + intros n t -> Hn -> -> Hp. unfold pydiv_int.
      replace (n =? 0)%Z with false by (symmetry; apply Z.eqb_neq; lia).
      cbn [py_assert]. unfold standard_normal2.
      replace (n_path self <? 0)%Z with true by (symmetry; apply Z.ltb_lt; lia).
      now rewrite orb_true_r.
Qed.
End SigmaPathInversion.

(** *** The entries of the path matrix *)

Section PathFormula.
Context {F : Type} `{Arith F}.
Local Open Scope num_scope.
Variable np_exp : F -> F.
Variable draws : nat -> F.


Lemma seq_from_zero (a c : nat) : seq a c = map (fun j => (a + j)%nat) (seq 0 c).
Proof.
  revert a; induction c as [| c IH]; intros a; [reflexivity |].
  cbn [seq map]. rewrite Nat.add_0_r. f_equal.
  rewrite <- (seq_shift c 0), map_map, (IH (S a)).
  apply map_ext. intros j. lia.
Qed.

Lemma map2_map_same {A B C D} (f : B -> C -> D) (g1 : A -> B) (g2 : A -> C) (l : list A) :
  map2 f (map g1 l) (map g2 l) = map (fun x => f (g1 x) (g2 x)) l.
Proof. induction l as [| x l IH]; [reflexivity |]. cbn. now rewrite IH. Qed.

Lemma cumsum_from_walk (s c : nat) (sd : F) (m k0 : nat) :
  cumsum_from (map (fun j => scaled_walk draws s c sd j k0) (seq 0 c))
              (map (fun i => map (fun j => draws (s + i * c + j) * sd) (seq 0 c))
                   (seq (S k0) m))
  = map (fun i => map (fun j => scaled_walk draws s c sd j i) (seq 0 c)) (seq (S k0) m).
Proof.
  revert k0; induction m as [| m IH]; intros k0; [reflexivity |].
  cbn [seq map cumsum_from]. rewrite map2_map_same.
  change (map (fun x => scaled_walk draws s c sd x k0 + draws (s + S k0 * c + x) * sd) (seq 0 c))
    with (map (fun j => scaled_walk draws s c sd j (S k0)) (seq 0 c)).
  f_equal. apply IH.
Qed.

(** The cumulative sum of the scaled matrix of draws, row by row. *)
Lemma cumsum_axis0_walk (s c : nat) (sd : F) (n : nat) :
  cumsum_axis0 (map (map (fun x => x * sd))
                    (map (fun i => map draws (seq (s + i * c) c)) (seq 0 n)))
  = map (fun i => map (fun j => scaled_walk draws s c sd j i) (seq 0 c)) (seq 0 n).
Proof.
  rewrite map_map.
  rewrite (map_ext (fun i => map (fun x => x * sd) (map draws (seq (s + i * c) c)))
                   (fun i => map (fun j => draws (s + i * c + j) * sd) (seq 0 c))).
  2:{ intros i. rewrite map_map, (seq_from_zero (s + i * c)), map_map. reflexivity. }
  destruct n as [| n]; [reflexivity |].
  cbn [seq map cumsum_axis0]. f_equal.
  - apply map_ext. intros j. cbn [scaled_walk]. now rewrite Nat.add_0_r.
  - rewrite <- (cumsum_from_walk s c sd n 0). f_equal.
    apply map_ext. intros j. cbn [scaled_walk]. now rewrite Nat.add_0_r.
Qed.

Lemma time_grid_nth (n : Z) (texp : F) (k : nat) :
  (k < Z.to_nat n)%nat ->
  nth_error (time_grid n texp) k = Some (of_Z (Z.of_nat (S k)) / of_Z n * texp).
Proof.
  intros Hk. unfold time_grid, arange1. rewrite !nth_error_map.
  rewrite (nth_error_nth' _ 0%nat) by (now rewrite length_seq).
  rewrite seq_nth by assumption. reflexivity.
Qed.

(** X2: the entry of the returned matrix for path j at observation k + 1 is
    np.exp(vov * (W - vov/2 * t)), W the running sum of the path's own draws
    (one per step, n_path positions apart in the generator's stream) each
    times sqrt(texp / n_dt), and t = (k + 1) / n_dt * texp. *)
Theorem sigma_path_entry (self : Model F) (texp : F) (s s' : nat) (rows : list (list F))
    (n : Z) (j k : nat) :
  sigma_path np_exp draws self texp s = Ok (rows, s') ->
  int_ceil (texp / dt self) = Ok n ->
  (k < Z.to_nat n)%nat -> (j < Z.to_nat (n_path self))%nat ->
  exists row,
    nth_error rows (S k) = Some row
    /\ nth_error row j = Some (vol_entry np_exp draws self texp n s j k).
Proof.
  intros Hrun Hn Hk Hj.
  destruct (sigma_path_Ok_rows _ _ _ _ _ _ _ Hrun)
    as (n' & N & _ & Hc & Hn1 & Hp & HN & _ & _ & _ & ->).
  rewrite Hn in Hc. injection Hc as <-.
  unfold standard_normal2 in HN.
  destruct ((n <? 0)%Z || (n_path self <? 0)%Z); [discriminate |].
  injection HN as <- _.
  cbn [nth_error]. unfold sigma_rows. rewrite cumsum_axis0_walk.
  set (c := Z.to_nat (n_path self)) in *.
  set (sd := fsqrt (texp / of_Z n)).
  eexists. split.
  - apply nth_error_map2; [| now apply time_grid_nth].
    rewrite nth_error_map, (nth_error_nth' _ 0%nat) by (now rewrite length_seq).
    rewrite seq_nth by assumption. reflexivity.
  - rewrite !nth_error_map, (nth_error_nth' _ 0%nat) by (now rewrite length_seq).
    rewrite seq_nth by assumption. reflexivity.
Qed.
End PathFormula.

(** *** Maturity zero; the time grid in exact arithmetic *)

(** The ceiling on the reals. *)
Lemma R_ceil_spec (x : R) : (IZR (R_ceil x) - 1 < x <= IZR (R_ceil x))%R.
Proof.
  unfold R_ceil. destruct (archimed (- x)) as [H1 H2].
  rewrite minus_IZR. lra.
Qed.

Lemma R_ceil_zero : R_ceil 0 = 0%Z.
Proof.
  pose proof (R_ceil_spec 0) as [H1 H2].
  assert (Ha : (IZR (R_ceil 0) < 1)%R) by lra.
  apply lt_IZR in Ha. apply le_IZR in H2. lia.
Qed.

(** Zero divided by a float that is not nan is a zero or, for a zero
    divisor, nan. *)
Lemma b64_zero_div (y : float) :
  Prim2SF y <> S754_nan -> PrimFloat.eqb y 0 = false ->
  exists sg, Prim2SF (0 / y)%float = S754_zero sg.
Proof.
  intros Hnan Hz. rewrite FloatAxioms.div_spec.
  rewrite FloatAxioms.eqb_spec in Hz.
  change (Prim2SF 0%float) with (S754_zero false) in *.
  destruct (Prim2SF y) as [sy | sy | | sy m e]; cbn in *; try discriminate; try congruence; eauto.
Qed.

Section ZeroMaturity.
Variable pf_price_b : pf_kind -> float -> float -> float -> float -> float -> Z -> float.
Variable pf_price_r : pf_kind -> R -> R -> R -> R -> R -> Z -> R.

Lemma price_sigma_path_raises {F : Type} `{Arith F} (np_exp : F -> F)
    (pf_price : pf_kind -> F -> F -> F -> F -> F -> Z -> F) (draws : nat -> F)
    (sim : simulator) (self : Model F) (strike : list F) (spot texp : F) (cp : Z)
    (s : nat) (e : exn) :
  sigma_path np_exp draws self texp s = Raise e ->
  price np_exp pf_price draws sim self strike spot texp cp s = Raise e.
Proof.
  intros Hrun.
  destruct sim; cbn [price];
    unfold ModelBsmMC_price, ModelNormMC_price, ModelBsmCondMC_price,
           ModelNormCondMC_price, bind;
    now rewrite Hrun.
Qed.

Lemma sigma_path_zero_maturity_b64 (np_exp : float -> float) (draws : nat -> float)
    (self : Model float) (s : nat) :
  Prim2SF (dt self) <> S754_nan ->
  sigma_path np_exp draws self 0%float s = Raise ZeroDivisionError.
Proof.
  intros Hnan.
  destruct (sigma_path_errors np_exp draws self 0%float s) as [Hz Hnz].
  destruct (dt self == of_Z 0)%num eqn:Hd; [now apply Hz |].
  destruct (Hnz eq_refl) as (_ & H0 & _). apply H0.
  destruct (b64_zero_div (dt self) Hnan Hd) as [sg Hsg].
  cbn. unfold b64_int_ceil. now rewrite Hsg.
Qed.

Lemma sigma_path_zero_maturity_R (np_exp : R -> R) (draws : nat -> R)
    (self : Model R) (s : nat) :
  sigma_path np_exp draws self 0%R s = Raise ZeroDivisionError.
Proof.
  destruct (sigma_path_errors np_exp draws self 0%R s) as [Hz Hnz].
  destruct (dt self == of_Z 0)%num eqn:Hd; [now apply Hz |].
  destruct (Hnz eq_refl) as (_ & H0 & _). apply H0.
  cbn. f_equal. unfold Rdiv. rewrite Rmult_0_l. apply R_ceil_zero.
Qed.

(** X3: a maturity of zero makes every simulator's [price] raise
    ZeroDivisionError, in binary64 (for a time step that is not nan) and in
    exact arithmetic: the step count is 0 and texp / n_dt divides by it. *)
Theorem price_zero_maturity :
  (forall (np_exp : float -> float) (draws : nat -> float) (sim : simulator)
          (self : Model float) (strike : list float) (spot : float) (cp : Z) (s : nat),
      Prim2SF (dt self) <> S754_nan ->
      price np_exp pf_price_b draws sim self strike spot 0%float cp s
      = Raise ZeroDivisionError)
  /\ (forall (np_exp : R -> R) (draws : nat -> R) (sim : simulator)
             (self : Model R) (strike : list R) (spot : R) (cp : Z) (s : nat),
         price np_exp pf_price_r draws sim self strike spot 0%R cp s
         = Raise ZeroDivisionError).
Proof.
  split.
  - intros np_exp draws sim self strike spot cp s Hnan.
    apply price_sigma_path_raises. now apply sigma_path_zero_maturity_b64.
  - intros np_exp draws sim self strike spot cp s.
    apply price_sigma_path_raises. apply sigma_path_zero_maturity_R.
Qed.
End ZeroMaturity.

Section GridExact.
Local Open Scope R_scope.

(** X4: in exact arithmetic, for texp > 0 and dt > 0, the step count
    n_dt = ceil(texp / dt) is the least number of equal steps of length at
    most dt: the step texp / n_dt lies in (0, dt], no smaller count does, and
    observation k + 1 is at (k + 1) * texp / n_dt, the last one at texp. *)
Theorem time_grid_uniform (texp dt0 : R) :
  0 < texp -> 0 < dt0 ->
  let n := R_ceil (texp / dt0) in
  (1 <= n)%Z
  /\ 0 < texp / IZR n <= dt0
  /\ (forall m : Z, (1 <= m)%Z -> texp / IZR m <= dt0 -> (n <= m)%Z)
  /\ (forall k : nat, (k < Z.to_nat n)%nat ->
        nth_error (time_grid n texp) k = Some (INR (S k) * (texp / IZR n)))
  /\ index_last (time_grid n texp) = Ok texp.
Proof.
  intros Ht Hd n.
  pose proof (R_ceil_spec (texp / dt0)) as [Hlo Hhi]. fold n in Hlo, Hhi.
  assert (Hq : 0 < texp / dt0) by now apply Rdiv_lt_0_compat.
  assert (Hn : (1 <= n)%Z) by now apply R_ceil_pos.
  assert (Hn' : 1 <= IZR n) by now apply IZR_le.
  repeat apply conj.
  - exact Hn.
  - apply Rdiv_lt_0_compat; lra.
  - apply (Rmult_le_reg_r (IZR n)); [lra |].
    unfold Rdiv. rewrite Rmult_assoc, Rinv_l, Rmult_1_r by lra.
    apply (Rmult_le_compat_l dt0) in Hhi; [| lra].
    replace (dt0 * (texp / dt0)) with texp in Hhi by (field; lra). lra.
  - intros m Hm Hstep.
    assert (Hm' : 1 <= IZR m) by now apply IZR_le.
    assert (Hqm : texp / dt0 <= IZR m).
    { apply (Rmult_le_compat_r (IZR m)) in Hstep; [| lra].
      unfold Rdiv in Hstep. rewrite Rmult_assoc, Rinv_l, Rmult_1_r in Hstep by lra.
      apply (Rmult_le_reg_r dt0); [lra |].
      unfold Rdiv. rewrite Rmult_assoc, Rinv_l, Rmult_1_r by lra. lra. }
    assert (Hlt : IZR n < IZR m + 1) by lra.
    rewrite <- plus_IZR in Hlt. apply lt_IZR in Hlt. lia.
  - intros k Hk. rewrite time_grid_nth by assumption. f_equal.
    change (IZR (Z.of_nat (S k)) / IZR n * texp = INR (S k) * (texp / IZR n)).
    rewrite <- INR_IZR_INZ. field. lra.
  - rewrite time_grid_last by assumption. f_equal.
    change (IZR n / IZR n * texp = texp). field. lra.
Qed.
End GridExact.

(** *** The integrated variance in exact arithmetic *)

Section IntvarBounds.
Local Open Scope R_scope.

Lemma weighted_square_sum_vsum (w p : list R) :
  weighted_square_sum w p = vsum (map2 (fun wi x => fmul wi (sq x)) w p).
Proof.
  unfold weighted_square_sum.
  destruct (map2 (fun wi x : R => fmul wi (sq x)) w p) as [| t ts]; [reflexivity |].
  unfold vsum. cbn. now rewrite Rplus_0_l.
Qed.

Lemma trapezoid_weights_pos (m : nat) : Forall (fun t : R => 0 < t) (trapezoid_weights m).
Proof.
  assert (Hh : 0 < (half : R)) by (change (half : R) with (/ 2); lra).
  destruct m as [| [| k]]; cbn [trapezoid_weights]; repeat constructor; try exact Hh.
  apply Forall_app. split; [| repeat constructor; exact Hh].
  apply Forall_forall. intros x Hx. apply repeat_spec in Hx. subst.
  change (of_Z 1 : R) with 1. lra.
Qed.

Lemma normalized_weights_pos (m : nat) :
  Forall (fun t : R => 0 < t) (normalized_weights (S m)).
Proof.
  unfold normalized_weights. apply Forall_map.
  eapply Forall_impl; [| apply trapezoid_weights_pos].
  intros t Ht. cbn beta. apply Rdiv_lt_0_compat; [exact Ht |].
  apply trapezoid_weights_sum_pos.
Qed.

(** A sum of squares with non-negative weights lies between the extreme
    squares times the total weight. *)
Lemma weighted_squares_between (lo hi : R) (w p : list R) :
  length w = length p ->
  Forall (fun t => 0 < t) w ->
  Forall (fun x => lo <= x * x <= hi) p ->
  lo * vsum w <= vsum (map2 (fun wi x => fmul wi (sq x)) w p) <= hi * vsum w.
Proof.
  revert p; induction w as [| t w IH]; intros [| x p] Hlen Hw Hp; try discriminate.
  - unfold vsum; cbn. lra.
  - inversion Hw as [| ? ? Ht Hw']; inversion Hp as [| ? ? Hx Hp']; subst.
    cbn [map2]. rewrite !vsum_R_cons.
    destruct (IH p) as [H1 H2]; [now injection Hlen | assumption | assumption |].
    change (fmul t (sq x)) with (t * (x * x)). nra.
Qed.

Lemma weighted_squares_positive (w p : list R) :
  length w = length p -> w <> [] ->
  Forall (fun t => 0 < t) w ->
  Forall (fun x => x <> 0) p ->
  0 < vsum (map2 (fun wi x => fmul wi (sq x)) w p).
Proof.
  intros Hlen Hne Hw Hp.
  assert (Hge : forall (w p : list R), Forall (fun t => 0 < t) w ->
                  0 <= vsum (map2 (fun wi x => fmul wi (sq x)) w p)).
  { clear. induction w as [| t w IH]; intros [| x p] Hw; try (unfold vsum; cbn; lra).
    inversion Hw; subst. cbn [map2]. rewrite vsum_R_cons.
    specialize (IH p ltac:(assumption)).
    change (fmul t (sq x)) with (t * (x * x)). nra. }
  destruct w as [| t w]; [congruence |]. destruct p as [| x p]; [discriminate |].
  inversion Hw; inversion Hp; subst. cbn [map2]. rewrite vsum_R_cons.
  specialize (Hge w p ltac:(assumption)).
  change (fmul t (sq x)) with (t * (x * x)).
  assert (0 < x * x) by nra. nra.
Qed.

Lemma column_length {F : Type} `{Arith F} (j : nat) (rows : list (list F)) :
  Forall (fun r => (j < length r)%nat) rows -> length (column j rows) = length rows.
Proof.
  induction 1 as [| r rows Hj _ IH]; [reflexivity |].
  destruct (nth_error_lt _ _ Hj) as [x Hx].
  rewrite (column_cons j r rows x Hx). cbn [length]. now rewrite IH.
Qed.

Lemma column_Forall {F : Type} `{Arith F} (P : F -> Prop) (j : nat) (rows : list (list F)) :
  Forall (Forall P) rows -> Forall P (column j rows).
Proof.
  induction 1 as [| r rows Hr _ IH]; [constructor |].
  unfold column. cbn [flat_map]. apply Forall_app. split; [| exact IH].
  destruct (nth_error r j) as [x |] eqn:Hx; [| constructor].
  constructor; [| constructor].
  rewrite Forall_forall in Hr. apply Hr. eapply nth_error_In; eauto.
Qed.

(** The value [intvar_normalized] gives path [j], as a sum. *)
Lemma intvar_normalized_entries (path : list (list R)) (n : nat) :
  path <> [] -> Forall (fun row => length row = n) path ->
  exists I_t,
    intvar_normalized path = Ok I_t
    /\ length I_t = n
    /\ forall y, In y I_t ->
         exists j, (j < n)%nat
           /\ length (column j path) = length path
           /\ y = vsum (map2 (fun wi x => fmul wi (sq x))
                             (normalized_weights (length path)) (column j path)).
Proof.
  intros Hne Hrect.
  destruct (intvar_normalized_columns path n Hne Hrect) as (I_t & HI & Hlen & Hnth).
  exists I_t. split; [exact HI |]. split; [exact Hlen |].
  intros y Hy. apply In_nth_error in Hy. destruct Hy as [j Hj].
  assert (Hjn : (j < n)%nat).
  { rewrite <- Hlen. apply nth_error_Some. now rewrite Hj. }
  exists j. split; [exact Hjn |]. split.
  - apply column_length. eapply Forall_impl; [| exact Hrect].
    intros r Hr. cbn beta in Hr. lia.
  - rewrite (Hnth j Hjn) in Hj. injection Hj as <-.
    apply weighted_square_sum_vsum.
Qed.

(** X5: in exact arithmetic [intvar_normalized] is a weighted average of the
    squared entries of each column: on a matrix with at least one row and n
    columns whose entries lie in [a, b], 0 <= a, it returns n values in
    [a^2, b^2]. *)
Theorem intvar_normalized_between (path : list (list R)) (n : nat) (a b : R) :
  path <> [] -> Forall (fun row => length row = n) path ->
  0 <= a ->
  Forall (Forall (fun x => a <= x <= b)) path ->
  exists I_t,
    intvar_normalized path = Ok I_t
    /\ length I_t = n
    /\ Forall (fun y => a * a <= y <= b * b) I_t.
Proof.
  intros Hne Hrect Ha Hab.
  destruct (intvar_normalized_entries path n Hne Hrect) as (I_t & HI & Hlen & Hsum).
  exists I_t. split; [exact HI |]. split; [exact Hlen |].
  apply Forall_forall. intros y Hy.
  destruct (Hsum y Hy) as (j & Hj & Hcol & ->).
  destruct path as [| r rs]; [congruence |].
  pose proof (normalized_weights_sum (length rs)) as Hone.
  pose proof (normalized_weights_pos (length rs)) as Hpos.
  cbn [length] in *.
  destruct (weighted_squares_between (a * a) (b * b)
              (normalized_weights (S (length rs))) (column j (r :: rs))) as [H1 H2].
  - now rewrite normalized_weights_length, Hcol.
  - exact Hpos.
  - apply (column_Forall (fun x => a * a <= x * x <= b * b)).
    eapply Forall_impl; [| exact Hab]. intros row Hrow.
    eapply Forall_impl; [| exact Hrow]. intros x Hx. cbn beta in Hx. nra.
  - rewrite Hone in H1, H2. lra.
Qed.

(** On a matrix without a zero entry the integrated variances are positive. *)
Lemma intvar_normalized_positive (path : list (list R)) (n : nat) :
  path <> [] -> Forall (fun row => length row = n) path ->
  Forall (Forall (fun x => x <> 0)) path ->
  exists I_t,
    intvar_normalized path = Ok I_t
    /\ length I_t = n
    /\ Forall (fun y => 0 < y) I_t.
Proof.
  intros Hne Hrect Hnz.
  destruct (intvar_normalized_entries path n Hne Hrect) as (I_t & HI & Hlen & Hsum).
  exists I_t. split; [exact HI |]. split; [exact Hlen |].
  apply Forall_forall. intros y Hy.
  destruct (Hsum y Hy) as (j & Hj & Hcol & ->).
  destruct path as [| r rs]; [congruence |]. cbn [length] in *.
  apply weighted_squares_positive.
  - now rewrite normalized_weights_length, Hcol.
  - intros Hnil. pose proof (normalized_weights_length (F := R) (S (length rs))) as Hl.
    rewrite Hnil in Hl. discriminate.
  - apply normalized_weights_pos.
  - now apply column_Forall.
Qed.
End IntvarBounds.

Section PathExact.
Local Open Scope R_scope.
Variable np_exp : R -> R.
Variable draws : nat -> R.

Lemma sigma_path_runs_R (self : Model R) (texp : R) (s : nat) :
  0 < texp -> 0 < dt self -> (0 <= n_path self)%Z ->
  let n := R_ceil (texp / dt self) in
  exists N,
    (1 <= n)%Z
    /\ length N = Z.to_nat n
    /\ Forall (fun row => length row = Z.to_nat (n_path self)) N
    /\ sigma_path np_exp draws self texp s
       = Ok (repeat 1 (Z.to_nat (n_path self)) :: sigma_rows np_exp self texp n N,
             (s + Z.to_nat n * Z.to_nat (n_path self))%nat).
Proof.
  intros Ht Hd Hp n.
  assert (Hn : (1 <= n)%Z) by (apply R_ceil_pos, Rdiv_lt_0_compat; assumption).
  destruct (sigma_path_runs np_exp draws self texp n s) as (N & HlenN & HcolsN & Hrun);
    try assumption; try reflexivity; try (cbn; now apply R_ltb_true).
  exists N. repeat apply conj; assumption.
Qed.

(** X6: in exact arithmetic, with a positive exponential, for texp > 0 and
    dt > 0 the path matrix and its integrated variance compose: [sigma_path]
    returns, [intvar_normalized] returns on its result, with one strictly
    positive value per path, and the last row is strictly positive too. *)
Theorem intvar_of_sigma_path_positive (self : Model R) (texp : R) (s : nat) :
  (forall a, 0 < np_exp a) ->
  0 < texp -> 0 < dt self -> (0 <= n_path self)%Z ->
  exists rows s' sigma_T I_T,
    sigma_path np_exp draws self texp s = Ok (rows, s')
    /\ index_last rows = Ok sigma_T
    /\ intvar_normalized rows = Ok I_T
    /\ length sigma_T = Z.to_nat (n_path self)
    /\ length I_T = Z.to_nat (n_path self)
    /\ Forall (fun x => 0 < x) sigma_T
    /\ Forall (fun y => 0 < y) I_T.
Proof.
  intros Hexp Ht Hd Hp.
  destruct (sigma_path_runs_R self texp s Ht Hd Hp) as (N & Hn & HlenN & HcolsN & Hrun).
  set (n := R_ceil (texp / dt self)) in *.
  set (c := Z.to_nat (n_path self)) in *.
  destruct (sigma_rows_shape np_exp self texp n c N HlenN HcolsN) as (Hl & Hcs & Hex).
  set (rows := repeat 1 c :: sigma_rows np_exp self texp n N) in *.
  assert (Hrect : Forall (fun row => length row = c) rows)
    by (constructor; [apply repeat_length | exact Hcs]).
  assert (Hpos : Forall (Forall (fun x => 0 < x)) rows).
  { constructor.
    - apply Forall_forall. intros x Hx. apply repeat_spec in Hx. subst. lra.
    - eapply Forall_impl; [| exact Hex]. intros r Hr.
      eapply Forall_impl; [| exact Hr]. intros x [a ->]. apply Hexp. }
  destruct (intvar_normalized_positive rows c) as (I_T & HI & HlenI & HposI).
  - discriminate.
  - exact Hrect.
  - eapply Forall_impl; [| exact Hpos]. intros r Hr.
    eapply Forall_impl; [| exact Hr]. intros x Hx. cbn beta in Hx. lra.
  - destruct (index_last_cons_ok (repeat 1 c) (sigma_rows np_exp self texp n N))
      as [sT HsT].
    assert (HinT : In sT rows).
    { unfold index_last in HsT. fold rows in HsT.
      destruct (rev rows) as [| x l] eqn:Hrev; [discriminate |].
      injection HsT as ->. apply in_rev. rewrite Hrev. now left. }
    rewrite Forall_forall in Hrect, Hpos.
    exists rows, (s + Z.to_nat n * c)%nat, sT, I_T.
    repeat apply conj; try assumption.
    + now apply Hrect.
    + now apply Hpos.
Qed.

(** With vov = 0 every row below the first is a row of ones. *)
Lemma sigma_rows_flat (self : Model R) (texp : R) (n : Z) (c : nat) (N : list (list R)) :
  vov self = 0 -> np_exp 0 = 1 ->
  length N = Z.to_nat n -> Forall (fun row => length row = c) N ->
  sigma_rows np_exp self texp n N = repeat (repeat 1 c) (Z.to_nat n).
Proof.
  intros Hv He HlenN HcolsN.
  destruct (sigma_rows_shape np_exp self texp n c N HlenN HcolsN) as (Hl & Hcs & _).
  assert (Hone : Forall (Forall (fun x => x = 1)) (sigma_rows np_exp self texp n N)).
  { unfold sigma_rows. apply map2_Forall. intros r t _ _.
    apply Forall_map, Forall_forall. intros z _. rewrite Hv.
    change (np_exp (0 * (z - 0 / 2 * t)) = 1). now rewrite Rmult_0_l. }
  rewrite <- Hl. clear Hl.
  induction Hone as [| r rs Hr _ IH]; [reflexivity |].
  inversion Hcs as [| ? ? Hrc Hcs']; subst. cbn [length repeat]. f_equal.
  - clear -Hr. induction Hr as [| x r Hx _ IHr]; [reflexivity |].
    cbn [length repeat]. now f_equal.
  - now apply IH.
Qed.

(** X7: in exact arithmetic, with vov = 0 (and np.exp(0) = 1) the simulated
    volatility does not move: [sigma_path] returns the matrix of ones and
    [intvar_normalized] gives exactly 1 on every path. *)
Theorem sigma_path_vov_zero (self : Model R) (texp : R) (s : nat) :
  vov self = 0 -> np_exp 0 = 1 ->
  0 < texp -> 0 < dt self -> (0 <= n_path self)%Z ->
  let n := R_ceil (texp / dt self) in
  let c := Z.to_nat (n_path self) in
  sigma_path np_exp draws self texp s
  = Ok (repeat (repeat 1 c) (S (Z.to_nat n)), (s + Z.to_nat n * c)%nat)
  /\ intvar_normalized (repeat (repeat 1 c) (S (Z.to_nat n))) = Ok (repeat 1 c).
Proof.
  intros Hv He Ht Hd Hp n c.
  destruct (sigma_path_runs_R self texp s Ht Hd Hp) as (N & Hn & HlenN & HcolsN & Hrun).
  split; [| apply intvar_normalized_ones_exact].
  rewrite Hrun. fold n c.
  now rewrite (sigma_rows_flat self texp n c N Hv He HlenN HcolsN).
Qed.
End PathExact.

(** *** The prices: formulas, draws, beta *)


Section PriceRuns.
Context {F : Type} `{Arith F}.
Local Open Scope num_scope.
Variable np_exp : F -> F.
Variable pf_price : pf_kind -> F -> F -> F -> F -> F -> Z -> F.
Variable pf_impvol : pf_kind -> F -> F -> F -> F -> F -> Z -> F.
Variable draws : nat -> F.

(** After the path: its last row and its integrated variance, one value per
    path each. *)
Lemma price_prefix_shape (self : Model F) (texp : F) (s s1 : nat) (rows : list (list F)) :
  sigma_path np_exp draws self texp s = Ok (rows, s1) ->
  exists n sigma_T I_T,
    int_ceil (texp / dt self) = Ok n /\ (1 <= n)%Z /\ (0 <= n_path self)%Z
    /\ s1 = (s + Z.to_nat n * Z.to_nat (n_path self))%nat
    /\ index_last rows = Ok sigma_T /\ intvar_normalized rows = Ok I_T
    /\ length sigma_T = Z.to_nat (n_path self)
    /\ length I_T = Z.to_nat (n_path self).
Proof.
  intros Hrun.
  destruct (sigma_path_Ok_rows _ _ _ _ _ _ _ Hrun)
    as (n & N & _ & Hc & Hn & Hp & _ & Hlen & Hcols & Hs & ->).
  destruct (sigma_rows_shape np_exp self texp n _ N Hlen Hcols) as (Hl & Hcs & _).
  set (c := Z.to_nat (n_path self)) in *.
  set (rows := repeat (of_Z 1) c :: sigma_rows np_exp self texp n N).
  assert (Hrect : Forall (fun row => length row = c) rows)
    by (constructor; [apply repeat_length | exact Hcs]).
  destruct (intvar_normalized_columns rows c) as (I_T & HI & HlenI & _);
    [discriminate | exact Hrect |].
  destruct (index_last_cons_ok (repeat (of_Z 1) c) (sigma_rows np_exp self texp n N))
    as [sT HsT].
  assert (HinT : In sT rows).
  { unfold index_last in HsT. fold rows in HsT.
    destruct (rev rows) as [| x l] eqn:Hrev; [discriminate |].
    injection HsT as ->. apply in_rev. rewrite Hrev. now left. }
  rewrite Forall_forall in Hrect.
  exists n, sT, I_T. repeat apply conj; try assumption. now apply Hrect.
Qed.

Lemma norm_spot_paths (self : Model F) (spot texp : F) (sigma_T I_T Z : list F) :
  length I_T = length sigma_T -> length Z = length sigma_T ->
  map2 (fun s vz => s + spot / np_exp (fneg (intr self) * texp) + vz)
       (map (fun sT => rho self / vov self * (sT - of_Z 1) * sigma self) sigma_T)
       (map2 fmul
             (map (fun v => v * fsqrt texp)
                  (map (fun I => sigma self * fsqrt ((of_Z 1 - sq (rho self)) * I)) I_T))
             Z)
  = map (norm_terminal_spot np_exp self spot texp) (combine (combine sigma_T I_T) Z).
Proof.
  revert I_T Z; induction sigma_T as [| sT sigma_T IH]; intros [| I I_T] [| z Z];
    try reflexivity; try discriminate.
  intros HI HZ. cbn [map map2 combine]. f_equal. apply IH; [now injection HI | now injection HZ].
Qed.

(** X8: with vov nonzero, once the path is there the normal direct
    simulator returns the discounted mean payoff at the terminal spots
    (rho/vov)(sigma_T - 1) sigma + spot/df + sigma sqrt((1 - rho^2) I_T)
    sqrt(texp) Z.  It takes two batches of n_path draws from the
    generator: the first is never used, Z is the second. *)
Theorem ModelNormMC_price_spec (self : Model F) (strike : list F) (spot texp : F)
        (cp : Z) (s s1 : nat) (rows : list (list F)) :
  (vov self == of_Z 0) = false ->
  sigma_path np_exp draws self texp s = Ok (rows, s1) ->
  let c := Z.to_nat (n_path self) in
  exists sigma_T I_T,
    index_last rows = Ok sigma_T
    /\ intvar_normalized rows = Ok I_T
    /\ ModelNormMC_price np_exp draws self strike spot texp cp s
       = Ok (spec_norm_direct np_exp self strike spot texp cp sigma_T I_T
                              (map draws (seq (s1 + c) c)),
             (s1 + c + c)%nat).
Proof.
  intros Hv Hrun c.
  destruct (price_prefix_shape _ _ _ _ _ Hrun)
    as (n & sT & I_T & _ & _ & Hp & _ & HsT & HI & HlenT & HlenI).
  exists sT, I_T. split; [exact HsT |]. split; [exact HI |].
  unfold ModelNormMC_price, bind, lift, ret.
  rewrite Hrun, HsT, HI, (standard_normal_ok _ _ _ Hp), (pydiv_nonzero _ _ Hv).
  rewrite standard_normal_ok by lia.
  rewrite HlenT, Nat2Z.id. fold c.
  unfold spec_norm_direct, discounted_payoff, discount, payoff_mean.
  rewrite norm_spot_paths; [reflexivity | lia |].
  rewrite length_map, length_seq. fold c in HlenT. lia.
Qed.

(** One price per strike. *)
Lemma price_Ok_length (sim : simulator) (self : Model F) (strike : list F)
      (spot texp : F) (cp : Z) (s s' : nat) (p : list F) :
  price np_exp pf_price draws sim self strike spot texp cp s = Ok (p, s') ->
  length p = length strike.
Proof.
  destruct sim; cbn [price];
    unfold ModelBsmMC_price, ModelNormMC_price, ModelBsmCondMC_price,
           ModelNormCondMC_price, bind, lift, ret;
    destruct (sigma_path np_exp draws self texp s) as [[rows s1] |]; try discriminate;
    destruct (index_last rows) as [sT |]; try discriminate;
    destruct (intvar_normalized rows) as [I_T |]; try discriminate.
  - destruct (standard_normal draws (n_path self) s1) as [[Z s2] |]; try discriminate.
    destruct (pydiv (of_Z 1) (vov self)); try discriminate.
    intros [= <- _]. apply length_map.
  - destruct (standard_normal draws (n_path self) s1) as [[Z0 s2] |]; try discriminate.
    destruct (pydiv (rho self) (vov self)); try discriminate.
    destruct (standard_normal draws (Z.of_nat (length sT)) s2) as [[Z s3] |];
      try discriminate.
    intros [= <- _]. apply length_map.
  - destruct (pydiv (of_Z 1) (vov self)); try discriminate.
    destruct (standard_normal draws (n_path self) s1) as [[Z s2] |]; try discriminate.
    destruct (base_model self _) as [m |]; try discriminate.
    intros [= <- _]. unfold model_price. now rewrite !length_map.
  - destruct (standard_normal draws (n_path self) s1) as [[Z s2] |]; try discriminate.
    destruct (base_model self _) as [m |]; try discriminate.
    intros [= <- _]. unfold model_price. now rewrite !length_map.
Qed.

(** What a direct simulator returns, for every strike vector and sign at
    once: the discounted mean payoff over one vector of terminal spots, one
    per path, that depends on neither. *)
Lemma direct_price_paths (sim : simulator) (self : Model F) (strike : list F)
      (spot texp : F) (cp : Z) (s s' : nat) (p : list F) :
  sim = BsmMC \/ sim = NormMC ->
  price np_exp pf_price draws sim self strike spot texp cp s = Ok (p, s') ->
  exists S_T,
    length S_T = Z.to_nat (n_path self)
    /\ forall strike' cp',
         price np_exp pf_price draws sim self strike' spot texp cp' s
         = Ok (payoff_mean (np_exp (fneg (intr self) * texp)) cp' S_T strike', s').
Proof.
  intros Hsim Hrun.
  destruct (sigma_path np_exp draws self texp s) as [[rows s1] | e] eqn:Hpath.
  2:{ rewrite (price_sigma_path_raises _ _ _ _ _ _ _ _ _ _ _ Hpath) in Hrun. discriminate. }
  destruct (price_prefix_shape _ _ _ _ _ Hpath)
    as (n & sT & I_T & _ & _ & Hp & _ & HsT & HI & HlenT & HlenI).
  revert Hrun.
  destruct Hsim as [-> | ->]; cbn [price];
    unfold ModelBsmMC_price, ModelNormMC_price, bind, lift, ret;
    rewrite Hpath, HsT, HI, (standard_normal_ok _ _ _ Hp).
  - destruct (pydiv (of_Z 1) (vov self)) as [iv |]; [| discriminate].
    intros [= _ <-]. eexists. split; [| intros strike' cp'; reflexivity].
    repeat (rewrite ?map2_length, ?length_map, ?length_seq). lia.
  - destruct (pydiv (rho self) (vov self)) as [rv |]; [| discriminate].
    rewrite standard_normal_ok by lia.
    intros [= _ <-]. eexists. split; [| intros strike' cp'; reflexivity].
    repeat (rewrite ?map2_length, ?length_map, ?length_seq). rewrite Nat2Z.id. lia.
Qed.

(** X9: a [price] call that returns gives one price per strike and has
    advanced the generator by (n_dt + 1) * n_path draws, n_dt >= 1 the step
    count, or by (n_dt + 2) * n_path for the normal direct simulator. *)
Theorem price_draws_and_length (sim : simulator) (self : Model F) (strike : list F)
        (spot texp : F) (cp : Z) (s s' : nat) (p : list F) :
  price np_exp pf_price draws sim self strike spot texp cp s = Ok (p, s') ->
  exists n : Z,
    int_ceil (texp / dt self) = Ok n /\ (1 <= n)%Z /\ (0 <= n_path self)%Z
    /\ length p = length strike
    /\ s' = (s + (Z.to_nat n + batches sim) * Z.to_nat (n_path self))%nat.
Proof.
  intros Hrun.
  destruct (sigma_path np_exp draws self texp s) as [[rows s1] | e] eqn:Hpath.
  2:{ rewrite (price_sigma_path_raises _ _ _ _ _ _ _ _ _ _ _ Hpath) in Hrun. discriminate. }
  destruct (price_prefix_shape _ _ _ _ _ Hpath)
    as (n & sT & I_T & Hc & Hn & Hp & Hs1 & HsT & HI & HlenT & HlenI).
  exists n. split; [exact Hc |]. split; [exact Hn |]. split; [exact Hp |].
  revert Hrun.
  destruct sim; cbn [price batches];
    unfold ModelBsmMC_price, ModelNormMC_price, ModelBsmCondMC_price,
           ModelNormCondMC_price, bind, lift, ret;
    rewrite Hpath, HsT, HI, ?(standard_normal_ok _ _ _ Hp).
  - destruct (pydiv (of_Z 1) (vov self)); [| discriminate].
    intros [= <- <-]. split; [apply length_map | lia].
  - destruct (pydiv (rho self) (vov self)); [| discriminate].
    rewrite standard_normal_ok by lia. rewrite HlenT, Nat2Z.id.
    intros [= <- <-]. split; [apply length_map | lia].
  - destruct (pydiv (of_Z 1) (vov self)); [| discriminate].
    rewrite (standard_normal_ok _ _ _ Hp).
    destruct (base_model self _); [| discriminate].
    intros [= <- <-]. split; [unfold model_price; now rewrite !length_map | lia].
  - destruct (base_model self _); [| discriminate].
    intros [= <- <-]. split; [unfold model_price; now rewrite !length_map | lia].
Qed.

(** X11: on a model whose beta is neither 0 nor 1 the conditional
    simulators generate the whole path and only then raise ValueError (the
    log-normal one when vov is nonzero; with vov = 0 it has divided by zero
    before). *)
Theorem conditional_price_unsupported_beta (self : Model F) (strike : list F)
        (spot texp : F) (cp : Z) (s s1 : nat) (rows : list (list F)) :
  (beta self == of_Z 0) = false -> (beta self == of_Z 1) = false ->
  sigma_path np_exp draws self texp s = Ok (rows, s1) ->
  ModelNormCondMC_price np_exp pf_price draws self strike spot texp cp s = Raise ValueError
  /\ ((vov self == of_Z 0) = false ->
      ModelBsmCondMC_price np_exp pf_price draws self strike spot texp cp s
      = Raise ValueError).
Proof.
  intros Hb0 Hb1 Hrun.
  destruct (price_prefix _ _ _ _ _ _ _ Hrun) as (sT & I_T & HsT & HI & Hp).
  split; [| intros Hv];
    unfold ModelNormCondMC_price, ModelBsmCondMC_price, bind, lift;
    rewrite Hrun, HsT, HI, ?(pydiv_nonzero _ _ Hv), (standard_normal_ok _ _ _ Hp);
    unfold base_model; now rewrite Hb0, Hb1.
Qed.

(** X12: after a [price] call that returned, [vol_smile] inverts each price
    at its strike with the closed-form model beta selects, as a call, and
    leaves the generator where [price] left it; with a beta that is neither
    0 nor 1 it raises ValueError although the prices were computed. *)
Theorem vol_smile_after_price (sim : simulator) (self : Model F) (strike : list F)
        (spot texp : F) (s s' : nat) (p : list F) :
  price np_exp pf_price draws sim self strike spot texp 1 s = Ok (p, s') ->
  match select_kind self with
  | Ok k =>
      exists iv,
        vol_smile np_exp pf_price pf_impvol draws sim self strike spot texp s = Ok (iv, s')
        /\ length iv = length strike
        /\ forall j pj K,
             nth_error p j = Some pj -> nth_error strike j = Some K ->
             nth_error iv j = Some (pf_impvol k (intr self) pj K spot texp 1)
  | Raise _ =>
      vol_smile np_exp pf_price pf_impvol draws sim self strike spot texp s
      = Raise ValueError
  end.
Proof.
  intros Hrun. pose proof (price_Ok_length _ _ _ _ _ _ _ _ _ Hrun) as Hlen.
  unfold vol_smile, bind, lift, ret. rewrite Hrun.
  unfold base_model, select_kind.
  destruct (beta self == of_Z 0);
    [| destruct (beta self == of_Z 1); [| reflexivity]];
    (eexists; split; [reflexivity |]);
    unfold model_impvol; cbn [pf_k pf_intr];
    (split; [rewrite map2_length, Hlen; apply Nat.min_id |]);
    intros j pj K Hpj HK; exact (nth_error_map2 _ _ _ _ _ _ Hpj HK).
Qed.
End PriceRuns.

Section DirectSpots.
Context {F : Type} `{Arith F}.
Local Open Scope num_scope.
Variable np_exp : F -> F.
Variable pf_price : pf_kind -> F -> F -> F -> F -> F -> Z -> F.
Variable draws : nat -> F.

(** A direct simulator that returns has generated the path and priced, for
    every strike vector and sign alike, the discounted mean payoff over the
    terminal spots [direct_terminal_spots], one per path. *)
Lemma direct_price_spots (sim : simulator) (self : Model F) (strike : list F)
      (spot texp : F) (cp : Z) (s s' : nat) (p : list F) :
  sim = BsmMC \/ sim = NormMC ->
  price np_exp pf_price draws sim self strike spot texp cp s = Ok (p, s') ->
  exists rows s1 sigma_T I_T,
    sigma_path np_exp draws self texp s = Ok (rows, s1)
    /\ index_last rows = Ok sigma_T
    /\ intvar_normalized rows = Ok I_T
    /\ length (direct_terminal_spots np_exp draws sim self spot texp sigma_T I_T s1)
       = Z.to_nat (n_path self)
    /\ forall strike' cp',
         price np_exp pf_price draws sim self strike' spot texp cp' s
         = Ok (payoff_mean (np_exp (fneg (intr self) * texp)) cp'
                           (direct_terminal_spots np_exp draws sim self spot texp
                                                  sigma_T I_T s1)
                           strike', s').
Proof.
  intros Hsim Hrun.
  destruct (sigma_path np_exp draws self texp s) as [[rows s1] | e] eqn:Hpath.
  2:{ rewrite (price_sigma_path_raises _ _ _ _ _ _ _ _ _ _ _ Hpath) in Hrun. discriminate. }
  destruct (price_prefix_shape _ _ _ _ _ _ _ Hpath)
    as (n & sT & I_T & _ & _ & Hp & _ & HsT & HI & HlenT & HlenI).
  exists rows, s1, sT, I_T.
  split; [reflexivity |]. split; [exact HsT |]. split; [exact HI |].
  assert (Hlen : forall sm, sm = BsmMC \/ sm = NormMC ->
            length (direct_terminal_spots np_exp draws sm self spot texp sT I_T s1)
            = Z.to_nat (n_path self)).
  { intros sm [-> | ->]; unfold direct_terminal_spots;
      rewrite length_map, !length_combine, length_map, length_seq; lia. }
  split; [now apply Hlen |].
  revert Hrun.
  destruct Hsim as [-> | ->]; cbn [price];
    unfold ModelBsmMC_price, ModelNormMC_price, bind, lift, ret, pydiv;
    rewrite Hpath, HsT, HI, (standard_normal_ok _ _ _ Hp).
  - destruct (vov self == of_Z 0); [discriminate |].
    intros [= _ <-] strike' cp'. rewrite bsm_spot_paths. reflexivity.
  - destruct (vov self == of_Z 0); [discriminate |].
    rewrite standard_normal_ok by lia. rewrite HlenT, Nat2Z.id.
    intros [= _ <-] strike' cp'.
    rewrite norm_spot_paths; [reflexivity | lia |].
    rewrite length_map, length_seq. lia.
Qed.
End DirectSpots.

(** *** The direct simulators in exact arithmetic *)

Section DirectExact.
Local Open Scope R_scope.
Variable np_exp : R -> R.
Variable pf_price : pf_kind -> R -> R -> R -> R -> R -> Z -> R.
Variable draws : nat -> R.

Lemma payoff_difference (S_T : list R) (K : R) :
  vsum (map (fun S => fmax (of_Z 1 * (S - K))%num (of_Z 0)) S_T)
  - vsum (map (fun S => fmax (of_Z (-1) * (S - K))%num (of_Z 0)) S_T)
  = vsum S_T - INR (length S_T) * K.
Proof.
  induction S_T as [| S S_T IH].
  - unfold vsum. cbn. lra.
  - cbn [map]. rewrite !vsum_R_cons. change (length (S :: S_T)) with (Datatypes.S (length S_T)).
    rewrite S_INR.
    change (fmax (of_Z 1 * (S - K))%num (of_Z 0)) with (Rmax (1 * (S - K)) 0).
    change (fmax (of_Z (-1) * (S - K))%num (of_Z 0)) with (Rmax (-1 * (S - K)) 0).
    assert (Hm : Rmax (1 * (S - K)) 0 - Rmax (-1 * (S - K)) 0 = S - K).
    { unfold Rmax. destruct (Rle_dec (1 * (S - K)) 0), (Rle_dec (-1 * (S - K)) 0); lra. }
    lra.
Qed.

Lemma mean_payoff_difference (S_T : list R) (K : R) :
  S_T <> [] ->
  mean (map (fun S => fmax (of_Z 1 * (S - K))%num (of_Z 0)) S_T)
  - mean (map (fun S => fmax (of_Z (-1) * (S - K))%num (of_Z 0)) S_T)
  = mean S_T - K.
Proof.
  intros Hne. unfold mean. rewrite !length_map.
  change (fdiv ?a ?b) with (a / b).
  change (of_Z (Z.of_nat (length S_T)) : R) with (IZR (Z.of_nat (length S_T))).
  rewrite <- INR_IZR_INZ.
  assert (Hn : 0 < INR (length S_T)).
  { apply lt_0_INR. destruct S_T; [congruence | cbn; lia]. }
  pose proof (payoff_difference S_T K) as Hd.
  apply (Rmult_eq_reg_r (INR (length S_T))); [| lra].
  unfold Rdiv. rewrite !Rmult_minus_distr_r, !Rmult_assoc, Rinv_l by lra. lra.
Qed.

Lemma vsum_R_nonneg (l : list R) : Forall (fun x => 0 <= x) l -> 0 <= vsum l.
Proof.
  induction 1 as [| x l Hx _ IH]; [unfold vsum; cbn; lra |].
  rewrite vsum_R_cons. lra.
Qed.

(** X13: in exact arithmetic the direct simulators satisfy put-call parity
    path by path.  A call price vector (cp = 1) that is returned is the
    discounted mean call payoff over the terminal spots S_T of the simulated
    paths; from the same random state the put (cp = -1) is returned too, the
    discounted mean put payoff over the same S_T; and at every strike K
    call - put = df * (mean(S_T) - K), for n_path >= 1. *)
Theorem direct_put_call_parity (sim : simulator) (self : Model R) (strike : list R)
        (spot texp : R) (s s' : nat) (call : list R) :
  sim = BsmMC \/ sim = NormMC ->
  (0 < n_path self)%Z ->
  price np_exp pf_price draws sim self strike spot texp 1 s = Ok (call, s') ->
  exists rows s1 sigma_T I_T put,
    sigma_path np_exp draws self texp s = Ok (rows, s1)
    /\ index_last rows = Ok sigma_T
    /\ intvar_normalized rows = Ok I_T
    /\ price np_exp pf_price draws sim self strike spot texp (-1) s = Ok (put, s')
    /\ let S_T := direct_terminal_spots np_exp draws sim self spot texp sigma_T I_T s1 in
       let df := np_exp (- intr self * texp) in
       length S_T = Z.to_nat (n_path self)
       /\ call = map (fun K => df * mean (map (fun S => Rmax (1 * (S - K)) 0) S_T)) strike
       /\ put = map (fun K => df * mean (map (fun S => Rmax (-1 * (S - K)) 0) S_T)) strike
       /\ forall j K cj pj,
            nth_error strike j = Some K ->
            nth_error call j = Some cj -> nth_error put j = Some pj ->
            cj - pj = df * (mean S_T - K).
Proof.
  intros Hsim Hp Hrun.
  destruct (direct_price_spots _ _ _ _ _ _ _ _ _ _ _ _ Hsim Hrun)
    as (rows & s1 & sT & I_T & Hpath & HsT & HI & Hlen & Hall).
  rewrite (Hall strike 1%Z) in Hrun. injection Hrun as <-.
  assert (Hne : direct_terminal_spots np_exp draws sim self spot texp sT I_T s1 <> []).
  { intros HS. rewrite HS in Hlen. cbn [length] in Hlen. lia. }
  set (S_T := direct_terminal_spots np_exp draws sim self spot texp sT I_T s1) in *.
  exists rows, s1, sT, I_T,
         (payoff_mean (np_exp (fneg (intr self) * texp)%num) (-1) S_T strike).
  split; [exact Hpath |]. split; [exact HsT |]. split; [exact HI |].
  split; [apply Hall |].
  split; [exact Hlen |]. split; [reflexivity |]. split; [reflexivity |].
  intros j K cj pj HK Hc Hput. unfold payoff_mean in Hc, Hput.
  rewrite nth_error_map, HK in Hc, Hput. cbn [option_map] in Hc, Hput.
  injection Hc as <-. injection Hput as <-.
  change (fneg (intr self) * texp)%num with (- intr self * texp).
  change (fmul ?a ?b) with (a * b).
  rewrite <- Rmult_minus_distr_l. f_equal.
  apply mean_payoff_difference.
  exact Hne.
Qed.

(** X14: in exact arithmetic, with a non-negative exponential and at least
    one path, every price a direct simulator returns is non-negative,
    whatever the sign cp. *)
Theorem direct_price_nonnegative (sim : simulator) (self : Model R) (strike : list R)
        (spot texp : R) (cp : Z) (s s' : nat) (p : list R) :
  (forall a, 0 <= np_exp a) ->
  sim = BsmMC \/ sim = NormMC ->
  (0 < n_path self)%Z ->
  price np_exp pf_price draws sim self strike spot texp cp s = Ok (p, s') ->
  Forall (fun x => 0 <= x) p.
Proof.
  intros Hexp Hsim Hp Hrun.
  destruct (direct_price_paths _ _ _ _ _ _ _ _ _ _ _ _ Hsim Hrun) as (S_T & Hlen & Hall).
  rewrite (Hall strike cp) in Hrun. injection Hrun as <-.
  unfold payoff_mean. apply Forall_map, Forall_forall. intros K _.
  apply Rmult_le_pos; [apply Hexp |].
  unfold mean. rewrite length_map.
  apply Rmult_le_pos.
  - apply vsum_R_nonneg, Forall_map, Forall_forall. intros S _. apply Rmax_r.
  - left. apply Rinv_0_lt_compat. apply IZR_lt. lia.
Qed.
End DirectExact.

Section NormCondFlat.
Local Open Scope R_scope.
Variable np_exp : R -> R.
Variable pf_price : pf_kind -> R -> R -> R -> R -> R -> Z -> R.
Variable draws : nat -> R.

Lemma index_last_repeat {A} (x : A) (m : nat) : index_last (repeat x (S m)) = Ok x.
Proof.
  replace (repeat x (S m)) with (repeat x m ++ [x]); [apply index_last_app |].
  induction m as [| m IH]; [reflexivity |]. cbn [repeat app] in *. now rewrite IH.
Qed.

Lemma map_combine_constant {A B C D} (g : A * B * C -> D) (a : A) (b : B) (Z : list C) :
  map g (combine (combine (repeat a (length Z)) (repeat b (length Z))) Z)
  = map (fun z => g (a, b, z)) Z.
Proof. induction Z as [| z Z IH]; [reflexivity |]. cbn. now rewrite IH. Qed.

(** X15: in exact arithmetic, with vov = 0 the normal conditional simulator
    prices every path with the volatility sigma sqrt(1 - rho^2) at the
    terminal spot spot + 1 + sqrt(texp) z, z the path's own draw. *)
Theorem ModelNormCondMC_price_vov_zero (self : Model R) (strike : list R)
        (spot texp : R) (cp : Z) (s : nat) (k : pf_kind) :
  vov self = 0 -> np_exp 0 = 1 ->
  0 < texp -> 0 < dt self -> (0 <= n_path self)%Z ->
  select_kind self = Ok k ->
  let c := Z.to_nat (n_path self) in
  let s1 := (s + Z.to_nat (R_ceil (texp / dt self)) * c)%nat in
  ModelNormCondMC_price np_exp pf_price draws self strike spot texp cp s
  = Ok (map (fun K =>
               mean (map (fun z => pf_price k (sigma self * R_sqrt.sqrt (1 - rho self * rho self))
                                            (intr self) K (spot + 1 + R_sqrt.sqrt texp * z) texp cp)
                         (map draws (seq s1 c))))
            strike,
        (s1 + c)%nat).
Proof.
  intros Hv He Ht Hd Hp Hk c s1.
  destruct (sigma_path_runs_R np_exp draws self texp s Ht Hd Hp)
    as (N & Hn & HlenN & HcolsN & Hrun).
  rewrite (sigma_rows_flat np_exp self texp _ c N Hv He HlenN HcolsN) in Hrun.
  rewrite ModelNormCondMC_price_kind. unfold bind, lift, ret.
  rewrite Hrun.
  change (repeat 1 (Z.to_nat (n_path self)) :: repeat (repeat 1 c) (Z.to_nat (R_ceil (texp / dt self))))
    with (repeat (repeat 1 c) (S (Z.to_nat (R_ceil (texp / dt self))))).
  rewrite index_last_repeat, intvar_normalized_ones_exact.
  rewrite (standard_normal_ok _ _ _ Hp), Hk. fold c s1. f_equal. f_equal.
  unfold spec_conditional. apply map_ext. intros K. f_equal.
  set (Zs := map draws (seq s1 c)).
  assert (HZ : length Zs = c) by (unfold Zs; now rewrite length_map, length_seq).
  replace (repeat 1 c) with (repeat 1 (length Zs)) by (now rewrite HZ).
  rewrite map_combine_constant. apply map_ext. intros z.
  unfold equiv_vol, norm_cond_spot, sq.
  change (fmul ?a ?b) with (a * b). change (fadd ?a ?b) with (a + b).
  change (fsub ?a ?b) with (a - b). change (fsqrt ?a) with (R_sqrt.sqrt a).
  change (of_Z 1 : R) with 1.
  rewrite Rmult_1_r, R_sqrt.sqrt_1.
  f_equal; unfold fadd, fmul, R_arith; ring.
Qed.
End NormCondFlat.

(** *** Negative maturity; examples *)

Section NegativeMaturity.
Local Open Scope R_scope.
Variable np_exp : R -> R.
Variable draws : nat -> R.

(** X16: in exact arithmetic, with dt > 0, a negative maturity never gives a
    path: ZeroDivisionError for -dt < texp < 0 (the step count is 0),
    IndexError for texp <= -dt (the step count is negative and the time
    grid is empty). *)
Theorem sigma_path_negative_maturity (self : Model R) (texp : R) (s : nat) :
  0 < dt self -> texp < 0 ->
  sigma_path np_exp draws self texp s
  = if Rlt_dec (- dt self) texp then Raise ZeroDivisionError else Raise IndexError.
Proof.
  intros Hd Ht.
  destruct (sigma_path_errors np_exp draws self texp s) as [_ Hnz].
  assert (Hdz : (dt self == of_Z 0)%num = false) by (apply R_eqb_false; cbn; lra).
  destruct (Hnz Hdz) as (_ & H0 & Hneg & _).
  pose proof (R_ceil_spec (texp / dt self)) as [Hlo Hhi].
  assert (Hq : texp / dt self < 0).
  { apply (Rmult_lt_reg_r (dt self)); [exact Hd |].
    unfold Rdiv. rewrite Rmult_assoc, Rinv_l by lra. lra. }
  assert (Hle : (R_ceil (texp / dt self) <= 0)%Z).
  { apply Z.lt_succ_r. apply lt_IZR. change (Z.succ 0) with 1%Z. lra. }
  destruct (Rlt_dec (- dt self) texp) as [Hin | Hout].
  - apply H0. change (Ok (R_ceil (texp / dt self)) = Ok 0%Z). f_equal.
    assert (Hq1 : -1 < texp / dt self).
    { apply (Rmult_lt_reg_r (dt self)); [exact Hd |].
      unfold Rdiv. rewrite Rmult_assoc, Rinv_l by lra. lra. }
    assert (Hgt : (-1 < R_ceil (texp / dt self))%Z) by (apply lt_IZR; lra).
    lia.
  - apply (Hneg (R_ceil (texp / dt self))); [reflexivity |].
    assert (Hq1 : texp / dt self <= -1).
    { apply (Rmult_le_reg_r (dt self)); [exact Hd |].
      unfold Rdiv. rewrite Rmult_assoc, Rinv_l by lra. lra. }
    assert (Hlt : (R_ceil (texp / dt self) < 0)%Z) by (apply lt_IZR; lra).
    exact Hlt.
Qed.
End NegativeMaturity.

Lemma sigma_path_Ok_shape_witness :
  exists rows s',
    sigma_path b64_affine_exp b64_count_draws b64_small_model 1%float 0 = Ok (rows, s')
    /\ exists n : Z,
        int_ceil (fdiv 1%float (dt b64_small_model)) = Ok n
        /\ (1 <= n)%Z /\ (0 <= n_path b64_small_model)%Z
        /\ s' = (0 + Z.to_nat n * Z.to_nat (n_path b64_small_model))%nat
        /\ length rows = S (Z.to_nat n)
        /\ Forall (fun row => length row = Z.to_nat (n_path b64_small_model)) rows
        /\ hd [] rows = repeat (of_Z 1) (Z.to_nat (n_path b64_small_model))
        /\ Forall (Forall (fun x => exists a, x = b64_affine_exp a)) (tl rows).
Proof.
  destruct (sigma_path b64_affine_exp b64_count_draws b64_small_model 1%float 0)
    as [[rows s'] | e] eqn:Hrun; [| vm_compute in Hrun; discriminate].
  exists rows, s'. split; [reflexivity |].
  exact (sigma_path_Ok_shape b64_affine_exp b64_count_draws b64_small_model 1%float
           0 s' rows Hrun).
Defined.

Lemma sigma_path_entry_witness :
  exists rows s',
    sigma_path b64_affine_exp b64_count_draws b64_small_model 1%float 0 = Ok (rows, s')
    /\ int_ceil (fdiv 1%float (dt b64_small_model)) = Ok 2%Z
    /\ exists row,
        nth_error rows 2 = Some row
        /\ nth_error row 1
           = Some (vol_entry b64_affine_exp b64_count_draws b64_small_model 1%float 2 0 1 1).
Proof.
  destruct (sigma_path b64_affine_exp b64_count_draws b64_small_model 1%float 0)
    as [[rows s'] | e] eqn:Hrun; [| vm_compute in Hrun; discriminate].
  assert (Hc : int_ceil (fdiv 1%float (dt b64_small_model)) = Ok 2%Z)
    by (vm_compute; reflexivity).
  exists rows, s'. split; [reflexivity |]. split; [exact Hc |].
  apply (sigma_path_entry b64_affine_exp b64_count_draws b64_small_model 1%float
           0 s' rows 2 1 1 Hrun Hc); vm_compute; lia.
Defined.

Lemma time_grid_uniform_witness :
  (0 < 1)%R /\ (0 < 3 / 10)%R
  /\ let n := R_ceil (1 / (3 / 10)) in
     (1 <= n)%Z
     /\ (0 < 1 / IZR n <= 3 / 10)%R
     /\ (forall m : Z, (1 <= m)%Z -> (1 / IZR m <= 3 / 10)%R -> (n <= m)%Z)
     /\ (forall k : nat, (k < Z.to_nat n)%nat ->
           nth_error (time_grid n 1%R) k = Some (INR (S k) * (1 / IZR n))%R)
     /\ index_last (time_grid n 1%R) = Ok 1%R.
Proof.
  assert (H1 : (0 < 1)%R) by lra.
  assert (H2 : (0 < 3 / 10)%R) by lra.
  split; [exact H1 |]. split; [exact H2 |].
  exact (time_grid_uniform 1 (3 / 10) H1 H2).
Defined.

Lemma intvar_normalized_between_witness :
  exists I_t,
    intvar_normalized [[1; 2]; [3; 4]; [2; 1]]%R = Ok I_t
    /\ length I_t = 2%nat
    /\ Forall (fun y => 1 * 1 <= y <= 4 * 4)%R I_t.
Proof.
  apply (intvar_normalized_between [[1; 2]; [3; 4]; [2; 1]]%R 2 1 4).
  - discriminate.
  - repeat constructor.
  - lra.
  - repeat constructor; lra.
Defined.

Lemma sigma_path_vov_zero_witness :
  vov R_flat_model = 0%R
  /\ let n := R_ceil (1 / dt R_flat_model) in
     sigma_path exp (fun _ => 1%R) R_flat_model 1%R 0
     = Ok (repeat (repeat 1%R 2) (S (Z.to_nat n)), (0 + Z.to_nat n * 2)%nat)
     /\ intvar_normalized (repeat (repeat 1%R 2) (S (Z.to_nat n))) = Ok (repeat 1%R 2).
Proof.
  split; [reflexivity |].
  apply (sigma_path_vov_zero exp (fun _ => 1%R) R_flat_model 1%R 0).
  - reflexivity.
  - apply exp_0.
  - lra.
  - cbn. lra.
  - cbn. lia.
Defined.

Lemma intvar_of_sigma_path_positive_witness :
  exists rows s' sigma_T I_T,
    sigma_path exp (fun _ => 1%R) R_model 1%R 0 = Ok (rows, s')
    /\ index_last rows = Ok sigma_T
    /\ intvar_normalized rows = Ok I_T
    /\ length sigma_T = Z.to_nat (n_path R_model)
    /\ length I_T = Z.to_nat (n_path R_model)
    /\ Forall (fun x => 0 < x)%R sigma_T
    /\ Forall (fun y => 0 < y)%R I_T.
Proof.
  apply (intvar_of_sigma_path_positive exp (fun _ => 1%R) R_model 1%R 0).
  - exact exp_pos.
  - lra.
  - cbn. lra.
  - cbn. lia.
Defined.

Lemma ModelNormMC_price_spec_witness :
  feqb (vov b64_norm_model) (of_Z 0) = false
  /\ exists rows s1,
      sigma_path b64_affine_exp b64_count_draws b64_norm_model 1%float 0 = Ok (rows, s1)
      /\ exists sigma_T I_T,
          index_last rows = Ok sigma_T
          /\ intvar_normalized rows = Ok I_T
          /\ ModelNormMC_price b64_affine_exp b64_count_draws b64_norm_model
                               [100%float] 100%float 1%float 1 0
             = Ok (spec_norm_direct b64_affine_exp b64_norm_model [100%float] 100%float
                                    1%float 1 sigma_T I_T
                                    (map b64_count_draws (seq (s1 + 2) 2)),
                   (s1 + 2 + 2)%nat).
Proof.
  assert (Hv : feqb (vov b64_norm_model) (of_Z 0) = false) by (vm_compute; reflexivity).
  split; [exact Hv |].
  destruct (sigma_path b64_affine_exp b64_count_draws b64_norm_model 1%float 0)
    as [[rows s1] | e] eqn:Hrun; [| vm_compute in Hrun; discriminate].
  exists rows, s1. split; [reflexivity |].
  exact (ModelNormMC_price_spec b64_affine_exp b64_count_draws b64_norm_model
           [100%float] 100%float 1%float 1 0 s1 rows Hv Hrun).
Defined.

Lemma price_draws_and_length_witness :
  exists p s',
    price b64_affine_exp pf_price_tag b64_count_draws NormMC b64_norm_model
          [90%float; 100%float] 100%float 1%float 1 0 = Ok (p, s')
    /\ exists n : Z,
        int_ceil (fdiv 1%float (dt b64_norm_model)) = Ok n
        /\ (1 <= n)%Z /\ (0 <= n_path b64_norm_model)%Z
        /\ length p = 2%nat
        /\ s' = (0 + (Z.to_nat n + 2) * Z.to_nat (n_path b64_norm_model))%nat.
Proof.
  destruct (price b64_affine_exp pf_price_tag b64_count_draws NormMC b64_norm_model
                  [90%float; 100%float] 100%float 1%float 1 0)
    as [[p s'] | e] eqn:Hrun; [| vm_compute in Hrun; discriminate].
  exists p, s'. split; [reflexivity |].
  exact (price_draws_and_length b64_affine_exp pf_price_tag b64_count_draws NormMC
           b64_norm_model [90%float; 100%float] 100%float 1%float 1 0 s' p Hrun).
Defined.

Lemma direct_put_call_parity_witness :
  exists call s',
    price exp pf_price_intrinsic (fun _ => 0%R) BsmMC R_model
          [90; 100; 110]%R 100%R 1%R 1 0 = Ok (call, s')
    /\ exists rows s1 sigma_T I_T put,
        sigma_path exp (fun _ => 0%R) R_model 1%R 0 = Ok (rows, s1)
        /\ index_last rows = Ok sigma_T
        /\ intvar_normalized rows = Ok I_T
        /\ price exp pf_price_intrinsic (fun _ => 0%R) BsmMC R_model
                 [90; 100; 110]%R 100%R 1%R (-1) 0 = Ok (put, s')
        /\ let S_T := direct_terminal_spots exp (fun _ => 0%R) BsmMC R_model 100%R 1%R
                                            sigma_T I_T s1 in
           let df := exp (- intr R_model * 1) in
           length S_T = Z.to_nat (n_path R_model)
           /\ call = map (fun K => df * mean (map (fun S => Rmax (1 * (S - K)) 0) S_T))%R
                         [90; 100; 110]%R
           /\ put = map (fun K => df * mean (map (fun S => Rmax (-1 * (S - K)) 0) S_T))%R
                        [90; 100; 110]%R
           /\ forall j K cj pj,
                nth_error [90; 100; 110]%R j = Some K ->
                nth_error call j = Some cj -> nth_error put j = Some pj ->
                (cj - pj = df * (mean S_T - K))%R.
Proof.
  destruct (proj1 (R_model_price_returns pf_price_intrinsic (fun _ => 0%R)
                     [90; 100; 110]%R 100%R 1 0)) as (call & s' & Hrun).
  exists call, s'. split; [exact Hrun |].
  apply (direct_put_call_parity exp pf_price_intrinsic (fun _ => 0%R) BsmMC R_model
           [90; 100; 110]%R 100%R 1%R 0 s' call).
  - now left.
  - cbn. lia.
  - exact Hrun.
Defined.

Lemma direct_price_nonnegative_witness :
  exists p s',
    price exp pf_price_intrinsic (fun _ => 0%R) BsmMC R_model
          [90; 100; 110]%R 100%R 1%R (-1) 0 = Ok (p, s')
    /\ Forall (fun x => 0 <= x)%R p.
Proof.
  destruct (proj1 (R_model_price_returns pf_price_intrinsic (fun _ => 0%R)
                     [90; 100; 110]%R 100%R (-1) 0)) as (p & s' & Hrun).
  exists p, s'. split; [exact Hrun |].
  apply (direct_price_nonnegative exp pf_price_intrinsic (fun _ => 0%R) BsmMC R_model
           [90; 100; 110]%R 100%R 1%R (-1) 0 s' p).
  - intros a. left. apply exp_pos.
  - now left.
  - cbn. lia.
  - exact Hrun.
Defined.

Lemma vol_smile_after_price_witness :
  exists p s',
    price b64_affine_exp pf_price_tag b64_count_draws BsmMC b64_cev_model
          [90%float; 100%float] 100%float 1%float 1 0 = Ok (p, s')
    /\ vol_smile b64_affine_exp pf_price_tag pf_impvol_ratio b64_count_draws BsmMC
                 b64_cev_model [90%float; 100%float] 100%float 1%float 0
       = Raise ValueError.
Proof.
  destruct (price b64_affine_exp pf_price_tag b64_count_draws BsmMC b64_cev_model
                  [90%float; 100%float] 100%float 1%float 1 0)
    as [[p s'] | e] eqn:Hrun; [| vm_compute in Hrun; discriminate].
  exists p, s'. split; [reflexivity |].
  exact (vol_smile_after_price b64_affine_exp pf_price_tag pf_impvol_ratio b64_count_draws
           BsmMC b64_cev_model [90%float; 100%float] 100%float 1%float 0 s' p Hrun).
Defined.

Lemma conditional_price_unsupported_beta_witness :
  feqb (beta b64_cev_model) (of_Z 0) = false
  /\ feqb (beta b64_cev_model) (of_Z 1) = false
  /\ feqb (vov b64_cev_model) (of_Z 0) = false
  /\ (exists rows s1,
         sigma_path b64_affine_exp b64_count_draws b64_cev_model 1%float 0 = Ok (rows, s1))
  /\ ModelNormCondMC_price b64_affine_exp pf_price_tag b64_count_draws b64_cev_model
                           [100%float] 100%float 1%float 1 0 = Raise ValueError
  /\ ModelBsmCondMC_price b64_affine_exp pf_price_tag b64_count_draws b64_cev_model
                          [100%float] 100%float 1%float 1 0 = Raise ValueError.
Proof.
  assert (Hb0 : feqb (beta b64_cev_model) (of_Z 0) = false) by (vm_compute; reflexivity).
  assert (Hb1 : feqb (beta b64_cev_model) (of_Z 1) = false) by (vm_compute; reflexivity).
  assert (Hv : feqb (vov b64_cev_model) (of_Z 0) = false) by (vm_compute; reflexivity).
  destruct (sigma_path b64_affine_exp b64_count_draws b64_cev_model 1%float 0)
    as [[rows s1] | e] eqn:Hrun; [| vm_compute in Hrun; discriminate].
  destruct (conditional_price_unsupported_beta b64_affine_exp pf_price_tag b64_count_draws
              b64_cev_model [100%float] 100%float 1%float 1 0 s1 rows Hb0 Hb1 Hrun)
    as [Hn Hb].
  split; [exact Hb0 |]. split; [exact Hb1 |]. split; [exact Hv |].
  split; [now exists rows, s1 |].
  split; [exact Hn | exact (Hb Hv)].
Defined.

Lemma ModelNormCondMC_price_vov_zero_witness :
  vov R_flat_model = 0%R
  /\ select_kind R_flat_model = Ok Norm
  /\ let s1 := (0 + Z.to_nat (R_ceil (1 / dt R_flat_model)) * 2)%nat in
     ModelNormCondMC_price exp pf_price_intrinsic (fun n => INR n) R_flat_model
                           [100%R] 100%R 1%R 1 0
     = Ok (map (fun K =>
                  mean (map (fun z =>
                               pf_price_intrinsic Norm
                                 (sigma R_flat_model
                                  * R_sqrt.sqrt (1 - rho R_flat_model * rho R_flat_model))%R
                                 (intr R_flat_model) K (100 + 1 + R_sqrt.sqrt 1 * z)%R 1%R 1)
                            (map (fun n => INR n) (seq s1 2))))
               [100%R],
           (s1 + 2)%nat).
Proof.
  assert (Hk : select_kind R_flat_model = Ok Norm).
  { unfold select_kind.
    now replace (feqb (beta R_flat_model) (of_Z 0)) with true
      by (symmetry; now apply R_eqb_true). }
  split; [reflexivity |]. split; [exact Hk |].
  apply (ModelNormCondMC_price_vov_zero exp pf_price_intrinsic (fun n => INR n)
           R_flat_model [100%R] 100%R 1%R 1 0 Norm).
  - reflexivity.
  - apply exp_0.
  - lra.
  - cbn. lra.
  - cbn. lia.
  - exact Hk.
Defined.

Lemma sigma_path_negative_maturity_witness :
  (0 < dt R_model)%R /\ (- (1 / 20) < 0)%R
  /\ sigma_path exp (fun _ => 0%R) R_model (- (1 / 20))%R 0
     = (if Rlt_dec (- dt R_model) (- (1 / 20)) then Raise ZeroDivisionError
        else Raise IndexError).
Proof.
  assert (Hd : (0 < dt R_model)%R) by (cbn; lra).
  assert (Ht : (- (1 / 20) < 0)%R) by lra.
  split; [exact Hd |]. split; [exact Ht |].
  exact (sigma_path_negative_maturity exp (fun _ => 0%R) R_model (- (1 / 20))%R 0 Hd Ht).
Defined.
